(** * FBHanoi: breadth-first search over generalized Tower of Hanoi states

    A shallow embedding of [FBHanoi.cpp] and the properties of its search.

    Conventions of the embedding.
    - [int] values are modelled as [Z].  Every [int] the search computes
      ([peg+1], [distance+1], [numVertices++]) is bounded by a loop bound or by
      the number of vertices, so no signed overflow is modelled there; the
      two places where the input can overflow an [int] ([atoi] and
      [GetNextInt()-1]) are modelled as undefined behaviour.
    - A [std::vector<int>] is a [list Z]; positions are [nat].
    - [std::list<Vertex>] only ever grows by [push_back] between two calls
      of [Cleanup], and its elements never move, so a [Vertex *] is modelled
      as the position of the element in [vtxList]; the null pointer is
      [None].
    - The linked [Edge] chain of a vertex is the list of its [vertexIndex]
      fields, head first (new edges are linked in at the head). *)

From Stdlib Require Import ZArith Ascii String.
From stdpp Require Import base tactics option list numbers relations sorting strings.

Local Open Scope Z_scope.

(** ** Data model (class [Graph]) *)

Inductive VertexColor : Type :=
  | kVertexColor_White
  | kVertexColor_Grey
  | kVertexColor_Black.

#[global] Instance VertexColor_eq_dec : EqDecision VertexColor.
Proof. solve_decision. Defined.

Record Vertex : Type := mkVertex {
  color : VertexColor;
  index : Z;
  distance : Z;
  edgeList : list Z;
  state : list Z;
  predecessor : option nat;
  lastMove : Z * Z
}.

Record Graph : Type := mkGraph {
  numDisks : Z;
  numPegs : Z;
  numVertices : Z;
  vtxList : list Vertex
}.

(** [Graph(int numDisks, int numPegs)] *)
Definition Graph_new (nd np : Z) : Graph := mkGraph nd np 0 [].

(** The vertex [GetVertex] builds: [memset] to zero, then [color], [state]
    and [index] are assigned. *)
Definition newVtx (st : list Z) (idx : Z) : Vertex :=
  mkVertex kVertexColor_White idx 0 [] st None (0, 0).

#[global] Instance Vertex_inhabited : Inhabited Vertex := populate (newVtx [] 0).

(** Field assignments through a pointer. *)
Definition set_color (c : VertexColor) (v : Vertex) : Vertex :=
  mkVertex c (index v) (distance v) (edgeList v) (state v) (predecessor v) (lastMove v).

Definition push_edge (vertexIndex : Z) (v : Vertex) : Vertex :=
  mkVertex (color v) (index v) (distance v) (vertexIndex :: edgeList v) (state v)
           (predecessor v) (lastMove v).

Definition discover (pred : nat) (dist : Z) (mv : Z * Z) (v : Vertex) : Vertex :=
  mkVertex kVertexColor_Grey (index v) dist (edgeList v) (state v) (Some pred) mv.

(** [p->field] for a pointer [p] into [vtxList].  Every pointer the code
    dereferences comes from [GetVertex], from [bfsList] or from a
    predecessor field, and points to an element of the list; at any other
    position [deref] reads a zeroed vertex. *)
Definition deref (g : Graph) (p : nat) : Vertex := vtxList g !!! p.

(** A write through the pointer [p]: the element it points to becomes
    [f] of itself. *)
Definition upd (p : nat) (f : Vertex → Vertex) (g : Graph) : Graph :=
  mkGraph (numDisks g) (numPegs g) (numVertices g) (alter f p (vtxList g)).

(** ** [Graph::Cleanup] *)
Definition Cleanup (g : Graph) : Graph := mkGraph (numDisks g) (numPegs g) 0 [].

(** ** [std::equal(a.begin(), a.end(), b.begin())]

    Compares the elements of [a] with the elements of [b] at the same
    positions.  Reading past the end of [b] is undefined in C++; it is
    modelled as a mismatch and does not arise when [b] is at least as long
    as [a]. *)
Fixpoint std_equal (a b : list Z) : bool :=
  match a, b with
  | [], _ => true
  | x :: a', y :: b' => if decide (x = y) then std_equal a' b' else false
  | _ :: _, [] => false
  end.

(** ** [Graph::GetVertex] *)
Fixpoint find_vertex (l : list Vertex) (st : list Z) (pos : nat) : option nat :=
  match l with
  | [] => None
  | vtx :: l' => if std_equal (state vtx) st then Some pos else find_vertex l' st (S pos)
  end.

Definition GetVertex (st : list Z) (g : Graph) : Graph * nat :=
  match find_vertex (vtxList g) st 0 with
  | Some p => (g, p)
  | None =>
      (mkGraph (numDisks g) (numPegs g) (numVertices g + 1)
               (vtxList g ++ [newVtx st (numVertices g)]),
       length (vtxList g))
  end.

(** ** [PegHasSmallerDisk] and [DiskNotSmallestOnPeg]

    Both scan the positions [diskRad-1] down to [0].  The callers pass a
    [diskRad] below the size of the vector, so every [state[i]] is read in
    range. *)
Fixpoint PegHasSmallerDisk (st : list Z) (diskRad : nat) (peg : Z) : bool :=
  match diskRad with
  | O => false
  | S i => if decide (st !!! i = peg) then true else PegHasSmallerDisk st i peg
  end.

Definition DiskNotSmallestOnPeg (st : list Z) (diskRad : nat) : bool :=
  PegHasSmallerDisk st diskRad (st !!! diskRad).

(** ** The two nested neighbour loops of [BuildAndExplore]

    [for diskRad in 0 .. curState.size()-1], skipping disks that are not the
    smallest on their peg; [for peg in 0 .. numPegs-1], skipping the disk's
    own peg and pegs that hold a smaller disk.  [body diskRad peg] is the
    code run for each neighbour that is generated. *)
Definition peg_loop {St : Type} (np : Z) (curState : list Z) (diskRad : nat)
    (body : nat → Z → St → St) (s : St) : St :=
  foldl (fun s peg =>
           if bool_decide (peg = curState !!! diskRad) || PegHasSmallerDisk curState diskRad peg
           then s
           else body diskRad peg s)
        s (seqZ 0 np).

Definition neighbor_loops {St : Type} (np : Z) (curState : list Z)
    (body : nat → Z → St → St) (s : St) : St :=
  foldl (fun s diskRad =>
           if DiskNotSmallestOnPeg curState diskRad
           then s
           else peg_loop np curState diskRad body s)
        s (seq 0 (length curState)).

(** The moves for which the loops run their body, in the order they do. *)
Definition generated_moves (np : Z) (curState : list Z) : list (nat * Z) :=
  neighbor_loops np curState (fun d p acc => acc ++ [(d, p)]) [].

(** ** Body of the inner loop: lines 207-233

    [GetVertex] never returns a null pointer, so the test [if (newVtx)]
    always passes and the two edges are pushed at every visit. *)
Definition visit (cur : nat) (curState : list Z) (diskRad : nat) (peg : Z)
    (s : Graph * list nat) : Graph * list nat :=
  let '(g, bfsList) := s in
  let newState := <[diskRad := peg]> curState in
  let '(g1, new) := GetVertex newState g in
  let g2 := upd cur (push_edge (index (deref g1 new))) g1 in
  let g3 := upd new (push_edge (index (deref g2 cur))) g2 in
  if decide (color (deref g3 new) = kVertexColor_White) then
    (upd new (discover cur (distance (deref g3 cur) + 1)
                       (curState !!! diskRad + 1, peg + 1)) g3,
     bfsList ++ [new])
  else (g3, bfsList).

(** ** [Graph::BuildAndExplore]

    The [while] loop runs on fuel: one unit per vertex taken from the front
    of [bfsList].  Falling out of the loop reaches the end of a non-void
    function without a [return]. *)
Inductive Outcome : Type :=
  | Returned (d : Z) (g : Graph)
  | FellThrough (g : Graph)
  | OutOfFuel (g : Graph) (bfsList : list nat).

Definition explore (cur : nat) (g : Graph) (rest : list nat) : Graph * list nat :=
  let curState := state (deref g cur) in
  let '(g', bfsList') := neighbor_loops (numPegs g) curState (visit cur curState) (g, rest) in
  (upd cur (set_color kVertexColor_Black) g', bfsList').

Fixpoint bfs_loop (endState : list Z) (fuel : nat) (g : Graph) (bfsList : list nat) : Outcome :=
  match bfsList with
  | [] => FellThrough g
  | cur :: rest =>
      match fuel with
      | O => OutOfFuel g bfsList
      | S fuel' =>
          let '(g', bfsList') := explore cur g rest in
          if std_equal (state (deref g' cur)) endState
          then Returned (distance (deref g' cur)) g'
          else bfs_loop endState fuel' g' bfsList'
      end
  end.

Definition seed (startState : list Z) (g : Graph) : Graph * list nat :=
  let '(g1, startVtx) := GetVertex startState (Cleanup g) in
  (upd startVtx (set_color kVertexColor_Grey) g1, [startVtx]).

Definition BuildAndExplore (fuel : nat) (startState endState : list Z) (g : Graph) : Outcome :=
  let '(g1, bfsList) := seed startState g in
  bfs_loop endState fuel g1 bfsList.

Definition returned_distance (o : Outcome) : option Z :=
  match o with Returned d _ => Some d | _ => None end.

Definition outcome_graph (o : Outcome) : Graph :=
  match o with Returned _ g | FellThrough g | OutOfFuel g _ => g end.

(** ** [GetNextInt]

    [getchar] is modelled on the list of characters left on standard input.
    The loop stores characters into [buf] until it has stored a space or a
    newline.  At the end of input [getchar] keeps returning [EOF], which is
    neither, so the loop runs past the end of [buf]; the same happens when
    no delimiter is among the first [MAX_NUMBER_BUF] characters.  Both are
    undefined behaviour ([None]). *)
Definition MAX_NUMBER_BUF : nat := 128.

Definition is_delimiter (c : ascii) : bool :=
  bool_decide (c = " "%char) || bool_decide (c = ascii_of_nat 10).

Fixpoint read_token (room : nat) (stdin : list ascii) : option (list ascii * list ascii) :=
  match room with
  | O => None
  | S room' =>
      match stdin with
      | [] => None
      | c :: stdin' =>
          if is_delimiter c then Some ([], stdin')
          else '(tok, rest) ← read_token room' stdin'; Some (c :: tok, rest)
      end
  end.

(** [atoi]: white space, an optional sign, then decimal digits, read from a
    C string (which ends at the first NUL).  A value that does not fit an
    [int] is undefined behaviour. *)
Definition INT_MIN : Z := - 2 ^ 31.
Definition INT_MAX : Z := 2 ^ 31 - 1.

Definition isspace (c : ascii) : bool :=
  let n := nat_of_ascii c in bool_decide (n = 32%nat) || bool_decide (9 ≤ n ≤ 13)%nat.

Definition digit_value (c : ascii) : option Z :=
  let n := nat_of_ascii c in
  if bool_decide (48 ≤ n ≤ 57)%nat then Some (Z.of_nat n - 48) else None.

Fixpoint c_string (buf : list ascii) : list ascii :=
  match buf with
  | [] => []
  | c :: buf' => if bool_decide (c = ascii_of_nat 0) then [] else c :: c_string buf'
  end.

Fixpoint skip_spaces (s : list ascii) : list ascii :=
  match s with
  | c :: s' => if isspace c then skip_spaces s' else s
  | [] => []
  end.

Fixpoint read_digits (s : list ascii) (acc : Z) : Z :=
  match s with
  | c :: s' =>
      match digit_value c with
      | Some d => read_digits s' (10 * acc + d)
      | None => acc
      end
  | [] => acc
  end.

Definition atoi (buf : list ascii) : option Z :=
  let s := skip_spaces (c_string buf) in
  let v :=
    match s with
    | c :: s' =>
        if bool_decide (c = "-"%char) then - read_digits s' 0
        else if bool_decide (c = "+"%char) then read_digits s' 0
        else read_digits s 0
    | [] => 0
    end in
  if bool_decide (INT_MIN ≤ v ≤ INT_MAX) then Some v else None.

Definition GetNextInt (stdin : list ascii) : option (Z * list ascii) :=
  '(tok, rest) ← read_token MAX_NUMBER_BUF stdin;
  v ← atoi tok;
  Some (v, rest).

(** ** [main]

    Standard output is modelled as the list of the lines written. *)
Inductive Line : Type :=
  | LineNumMoves (numMoves : Z)      (* "num moves = " << numMoves *)
  | LineCount (numMoves : Z)         (* numMoves alone on a line *)
  | LineMove (src dst : Z).          (* PrintMove *)

Inductive Result : Type :=
  | Exit (stdout : list Line)        (* [return 0] *)
  | Undefined                        (* undefined behaviour was reached *)
  | NoFuel.                          (* the search needs more fuel *)

(** The two input loops: [state.push_back(GetNextInt()-1)], [count] times. *)
Fixpoint read_state (count : nat) (stdin : list ascii) : option (list Z * list ascii) :=
  match count with
  | O => Some ([], stdin)
  | S count' =>
      '(v, rest) ← GetNextInt stdin;
      if bool_decide (v = INT_MIN) then None
      else '(st, rest') ← read_state count' rest; Some ((v - 1) :: st, rest')
  end.

(** The loop that walks the predecessor links: lines 326-330. *)
Fixpoint collect (g : Graph) (count : nat) (vtx : option nat) (forwardList : list nat)
    : option (list nat * option nat) :=
  match count with
  | O => Some (forwardList, vtx)
  | S count' =>
      match vtx with
      | None => None
      | Some p => collect g count' (predecessor (deref g p)) (p :: forwardList)
      end
  end.

(** Lines 319-341, once the input has been read. *)
Definition solve (fuel : nat) (nd np : Z) (startState endState : list Z) : Result :=
  match BuildAndExplore fuel startState endState (Graph_new nd np) with
  | Returned numMoves g =>
      let '(g', vtx) := GetVertex endState g in
      match collect g' (Z.to_nat numMoves) (Some vtx) [] with
      | Some (forwardList, _) =>
          Exit (LineNumMoves numMoves :: LineCount numMoves ::
                map (fun p => LineMove (lastMove (deref g' p)).1 (lastMove (deref g' p)).2)
                    forwardList)
      | None => Undefined
      end
  | FellThrough _ => Undefined
  | OutOfFuel _ _ => NoFuel
  end.

Definition read_input (stdin : list ascii) : option (Z * Z * list Z * list Z) :=
  '(nd, in1) ← GetNextInt stdin;
  '(np, in2) ← GetNextInt in1;
  '(startState, in3) ← read_state (Z.to_nat nd) in2;
  '(endState, _) ← read_state (Z.to_nat nd) in3;
  Some (nd, np, startState, endState).

Definition main (fuel : nat) (stdin : list ascii) : Result :=
  match read_input stdin with
  | Some (nd, np, startState, endState) => solve fuel nd np startState endState
  | None => Undefined
  end.

(** The moves printed, as pairs. *)
Definition printed_moves (out : list Line) : list (Z * Z) :=
  omap (fun l => match l with LineMove a b => Some (a, b) | _ => None end) out.

(** The classic puzzle: three pegs, [N] disks from peg 0 to peg 2. *)
Definition classic (N : nat) (fuel : nat) : option Z :=
  returned_distance
    (BuildAndExplore fuel (replicate N 0) (replicate N 2) (Graph_new (Z.of_nat N) 3)).

(** ** Replaying a printed move list

    The oracle the move lists are checked against.  A printed move names
    two pegs, numbered from 1.  The disk it moves is the topmost disk of
    the source peg, that is the disk of least index on it; the move is
    legal when the destination is another peg of the puzzle that holds no
    disk of smaller index. *)
Fixpoint top_disk (st : list Z) (peg : Z) (pos : nat) : option nat :=
  match st with
  | [] => None
  | x :: st' => if decide (x = peg) then Some pos else top_disk st' peg (S pos)
  end.

Definition apply_move (np : Z) (st : list Z) (mv : Z * Z) : option (list Z) :=
  let src := mv.1 - 1 in
  let dst := mv.2 - 1 in
  d ← top_disk st src 0;
  if bool_decide (0 ≤ dst < np ∧ dst ≠ src) && negb (PegHasSmallerDisk st d dst)
  then Some (<[d := dst]> st)
  else None.

Fixpoint replay (np : Z) (st : list Z) (moves : list (Z * Z)) : option (list Z) :=
  match moves with
  | [] => Some st
  | mv :: moves' => st' ← apply_move np st mv; replay np st' moves'
  end.

(** ** The assignments [BuildAndExplore] makes to the vertices

    The search once more, now with the list of the assignments it makes to
    the colour, the predecessor, the distance and the last move of
    vertices, in the order in which it makes them: line 178 for the start
    vertex, lines 226-230 in the body of the inner loop, line 237 when a
    vertex is settled.  What [GetVertex] stores in a vertex it creates
    ([memset] to zero, then the colour white) is the initial value of the
    vertex and is not an assignment of the search.  The two assignments to
    [lastMove[0]] and [lastMove[1]] are listed as one. *)
Inductive Write : Type :=
  | SetColor (p : nat) (c : VertexColor)
  | SetPredecessor (p : nat) (pred : nat)
  | SetDistance (p : nat) (d : Z)
  | SetLastMove (p : nat) (mv : Z * Z).

Definition visit_log (cur : nat) (curState : list Z) (diskRad : nat) (peg : Z)
    (s : Graph * list nat * list Write) : Graph * list nat * list Write :=
  let '(g, bfsList, log) := s in
  let newState := <[diskRad := peg]> curState in
  let '(g1, new) := GetVertex newState g in
  let g2 := upd cur (push_edge (index (deref g1 new))) g1 in
  let g3 := upd new (push_edge (index (deref g2 cur))) g2 in
  if decide (color (deref g3 new) = kVertexColor_White) then
    let dist := distance (deref g3 cur) + 1 in
    let mv := (curState !!! diskRad + 1, peg + 1) in
    (upd new (discover cur dist mv) g3, bfsList ++ [new],
     log ++ [SetPredecessor new cur; SetDistance new dist;
             SetColor new kVertexColor_Grey; SetLastMove new mv])
  else (g3, bfsList, log).

Definition explore_log (cur : nat) (g : Graph) (rest : list nat) (log : list Write)
    : Graph * list nat * list Write :=
  let curState := state (deref g cur) in
  let '(g', bfsList', log') :=
    neighbor_loops (numPegs g) curState (visit_log cur curState) (g, rest, log) in
  (upd cur (set_color kVertexColor_Black) g', bfsList',
   log' ++ [SetColor cur kVertexColor_Black]).

Fixpoint bfs_loop_log (endState : list Z) (fuel : nat) (g : Graph) (bfsList : list nat)
    (log : list Write) : Outcome * list Write :=
  match bfsList with
  | [] => (FellThrough g, log)
  | cur :: rest =>
      match fuel with
      | O => (OutOfFuel g bfsList, log)
      | S fuel' =>
          let '(g', bfsList', log') := explore_log cur g rest log in
          if std_equal (state (deref g' cur)) endState
          then (Returned (distance (deref g' cur)) g', log')
          else bfs_loop_log endState fuel' g' bfsList' log'
      end
  end.

Definition seed_log (startState : list Z) (g : Graph) : Graph * list nat * list Write :=
  let '(g1, startVtx) := GetVertex startState (Cleanup g) in
  (upd startVtx (set_color kVertexColor_Grey) g1, [startVtx],
   [SetColor startVtx kVertexColor_Grey]).

Definition BuildAndExplore_log (fuel : nat) (startState endState : list Z) (g : Graph)
    : Outcome * list Write :=
  let '(g1, bfsList, log) := seed_log startState g in
  bfs_loop_log endState fuel g1 bfsList log.

(** * Predicates used to state the properties *)

(** The disks the outer loop does not skip and, for a disk, the pegs the
    inner loop does not skip. *)
Definition movable_disks (curState : list Z) : list nat :=
  filter (fun d => DiskNotSmallestOnPeg curState d = false) (seq 0 (length curState)).

Definition free_pegs (np : Z) (curState : list Z) (diskRad : nat) : list Z :=
  filter (fun peg => bool_decide (peg = curState !!! diskRad)
                     || PegHasSmallerDisk curState diskRad peg = false)
         (seqZ 0 np).

(** The vertex a newly met state gets once the body of the loop is done
    with it. *)
Definition fresh_vtx (idx : nat) (cur : nat) (dist : Z) (st : list Z) (mv : Z * Z) : Vertex :=
  mkVertex kVertexColor_Grey (Z.of_nat idx) dist [Z.of_nat cur] st (Some cur) mv.

(** Two vertices that differ at most in their edge lists. *)
Definition same_but_edges (v v' : Vertex) : Prop :=
  color v' = color v ∧ index v' = index v ∧ distance v' = distance v ∧
  state v' = state v ∧ predecessor v' = predecessor v ∧ lastMove v' = lastMove v.

(** What a visit that finds the vertex [j] of the new state does to the
    vertex at position [i]: an edge to [j] is pushed on [cur], then an edge
    to [cur] on [j]. *)
Definition link (cur j i : nat) (v : Vertex) : Vertex :=
  let v1 := if decide (cur = i) then push_edge (Z.of_nat j) v else v in
  if decide (j = i) then push_edge (Z.of_nat cur) v1 else v1.

(** [greys] lists the vertices that are in [bfsList] or are being
    explored. *)
Record Inv (startState : list Z) (np : Z) (g : Graph) (greys : list nat) : Prop :=
  mkInv {
  inv_pegs : numPegs g = np;
  inv_num : numVertices g = Z.of_nat (length (vtxList g));
  inv_index : ∀ i v, vtxList g !! i = Some v → index v = Z.of_nat i;
  inv_len : ∀ i v, vtxList g !! i = Some v → length (state v) = length startState;
  inv_uniq : ∀ i j vi vj,
    vtxList g !! i = Some vi → vtxList g !! j = Some vj → state vi = state vj → i = j;
  inv_entries : ∀ i v x,
    vtxList g !! i = Some v → x ∈ state v → x ∈ startState ∨ 0 ≤ x < np;
  inv_color : ∀ i v,
    vtxList g !! i = Some v →
    color v = if decide (i ∈ greys) then kVertexColor_Grey else kVertexColor_Black;
  inv_greys : ∀ p, p ∈ greys → (p < length (vtxList g))%nat;
  inv_nodup : NoDup greys;
  inv_start : ∃ v0,
    vtxList g !! 0%nat = Some v0 ∧ state v0 = startState ∧ distance v0 = 0
    ∧ predecessor v0 = None;
  inv_dist : ∀ i v, vtxList g !! i = Some v → 0 ≤ distance v;
  inv_pred : ∀ i v,
    vtxList g !! i = Some v → i ≠ 0%nat →
    ∃ j u, predecessor v = Some j ∧ (j < i)%nat ∧ vtxList g !! j = Some u
           ∧ distance v = distance u + 1
           ∧ apply_move np (state u) (lastMove v) = Some (state v);
  inv_closed : ∀ i v,
    vtxList g !! i = Some v → color v = kVertexColor_Black →
    ∀ d p, (d, p) ∈ generated_moves np (state v) →
           ∃ j u, vtxList g !! j = Some u ∧ state u = <[d := p]> (state v)
}.

(** No settled vertex is the goal: the loop has not returned yet. *)
Definition NoGoal (endState : list Z) (g : Graph) : Prop :=
  ∀ i v, vtxList g !! i = Some v → color v = kVertexColor_Black →
         std_equal (state v) endState = false.

(** Every vertex of [g] is still in [g'], changed at most in its edges. *)
Definition extends (g g' : Graph) : Prop :=
  ∀ i v, vtxList g !! i = Some v →
         ∃ v', vtxList g' !! i = Some v' ∧ same_but_edges v v'.

(** [neighbor np s s'] holds when the loops of [BuildAndExplore] generate
    [s'] as a neighbour of [s]. *)
Definition neighbor (np : Z) (s s' : list Z) : Prop :=
  ∃ d p, (d, p) ∈ generated_moves np s ∧ s' = <[d := p]> s.

(** Every entry is the number of a peg. *)
Definition in_range (np : Z) (s : list Z) : Prop :=
  Forall (fun x => 0 ≤ x < np) s.

(** All the configurations of [n] disks on [np] pegs. *)
Fixpoint all_cfgs (n : nat) (np : Z) : list (list Z) :=
  match n with
  | O => [[]]
  | S n' => x ← seqZ 0 np; (cons x) <$> all_cfgs n' np
  end.

(** Every entry of an edge list is the index of a vertex, and the list of
    [u] holds as many entries for [v] as the list of [v] holds for [u]. *)
Definition edge_count (v : Vertex) (idx : Z) : nat := count_occ Z.eq_dec (edgeList v) idx.

Record EdgesOk (g : Graph) : Prop := mkEdgesOk {
  edges_valid : ∀ i v e,
    vtxList g !! i = Some v → e ∈ edgeList v →
    ∃ j, e = Z.of_nat j ∧ (j < length (vtxList g))%nat;
  edges_sym : ∀ i j vi vj,
    vtxList g !! i = Some vi → vtxList g !! j = Some vj →
    edge_count vi (Z.of_nat j) = edge_count vj (Z.of_nat i)
}.

(** The order of the loops: by disk, then by peg. *)
Definition move_lt (m1 m2 : nat * Z) : Prop :=
  (m1.1 < m2.1)%nat ∨ (m1.1 = m2.1 ∧ m1.2 < m2.2).

(** The state a generated move leads to. *)
Definition target (curState : list Z) (m : nat * Z) : list Z := <[m.1 := m.2]> curState.

(** 1 for a settled vertex, 0 otherwise. *)
Definition settled (v : Vertex) : nat :=
  if decide (color v = kVertexColor_Black) then 1%nat else 0%nat.

(** Between two turns of the loop, the edge list of [u] holds at most one
    entry for [v] for each of the two that is settled. *)
Definition EdgeBound (g : Graph) : Prop :=
  ∀ i j vi vj,
    vtxList g !! i = Some vi → vtxList g !! j = Some vj →
    (edge_count vi (Z.of_nat j) ≤ settled vi + settled vj)%nat.

(** The same while [cur] is explored and the neighbours with the states
    [tgts] have been visited: one more entry between [cur] and each of
    these. *)
Definition MidBound (cur : nat) (tgts : list (list Z)) (g : Graph) : Prop :=
  ∀ i j vi vj,
    vtxList g !! i = Some vi → vtxList g !! j = Some vj →
    (edge_count vi (Z.of_nat j)
     ≤ settled vi + settled vj
       + (if decide (i = cur ∧ state vj ∈ tgts) then 1 else 0)
       + (if decide (j = cur ∧ state vi ∈ tgts) then 1 else 0))%nat.

(** [step] relates the graph before and after each statement of
    [BuildAndExplore] that writes to a vertex: the seeding of the start
    vertex (lines 177-178), one run of the body of the inner loop (lines
    207-233), and the settling of the explored vertex (line 237). *)
Inductive step : Graph → Graph → Prop :=
  | step_seed startState g : step (Cleanup g) (seed startState g).1
  | step_visit cur curState d p q g : step g (visit cur curState d p (g, q)).1
  | step_settle cur g : step g (upd cur (set_color kVertexColor_Black) g).



(** The order in which the search meets the vertices.  Along [greys] the
    distances do not decrease; no vertex is more than one step farther than
    the first grey vertex; a settled vertex is never farther than a grey
    one; and a vertex one generated move away from a settled vertex is at
    most one step farther than it. *)
Record Layered (np : Z) (g : Graph) (greys : list nat) : Prop := mkLayered {
  lay_sorted : ∀ a b i j vi vj,
    (a ≤ b)%nat → greys !! a = Some i → greys !! b = Some j →
    vtxList g !! i = Some vi → vtxList g !! j = Some vj →
    distance vi ≤ distance vj;
  lay_head : ∀ h vh i v,
    greys !! 0%nat = Some h → vtxList g !! h = Some vh → vtxList g !! i = Some v →
    distance v ≤ distance vh + 1;
  lay_black : ∀ i j vi vj,
    vtxList g !! i = Some vi → vtxList g !! j = Some vj →
    color vi = kVertexColor_Black → color vj = kVertexColor_Grey →
    distance vi ≤ distance vj;
  lay_step : ∀ i j vi vj d p,
    vtxList g !! i = Some vi → vtxList g !! j = Some vj →
    color vi = kVertexColor_Black →
    (d, p) ∈ generated_moves np (state vi) → state vj = <[d := p]> (state vi) →
    distance vj ≤ distance vi + 1;
  lay_order : ∀ i j vi vj,
    (i ≤ j)%nat → vtxList g !! i = Some vi → vtxList g !! j = Some vj →
    distance vi ≤ distance vj
}.

(** All the lists of [n] entries taken among [xs]. *)
Fixpoint lists_over (xs : list Z) (n : nat) : list (list Z) :=
  match n with
  | O => [[]]
  | S n' => x ← xs; (cons x) <$> lists_over xs n'
  end.

(** Every entry of an edge list is the index of a vertex whose state is
    one generated move away, in one direction or the other. *)
Definition EdgesJoin (np : Z) (g : Graph) : Prop :=
  ∀ i v e, vtxList g !! i = Some v → e ∈ edgeList v →
    ∃ j u, e = Z.of_nat j ∧ vtxList g !! j = Some u
           ∧ (neighbor np (state v) (state u) ∨ neighbor np (state u) (state v)).

(** The traversal of the edge from [u] to [v]: 1 when [u] has been explored
    (is settled) and the loops generate the state of [v] as a neighbour of
    the state of [u], 0 otherwise. *)
Definition traversed (np : Z) (u v : Vertex) : nat :=
  if decide (color u = kVertexColor_Black
             ∧ state v ∈ (target (state u) <$> generated_moves np (state u)))
  then 1%nat else 0%nat.

(** Between two turns of the loop, the edge list of [u] holds one entry for
    [v] for each traversal of the edge, from either end. *)
Definition EdgeExact (np : Z) (g : Graph) : Prop :=
  ∀ i j vi vj,
    vtxList g !! i = Some vi → vtxList g !! j = Some vj →
    edge_count vi (Z.of_nat j) = (traversed np vi vj + traversed np vj vi)%nat.

(** The same while [cur] is explored and the neighbours with the states
    [tgts] have been visited. *)
Definition MidExact (np : Z) (cur : nat) (tgts : list (list Z)) (g : Graph) : Prop :=
  ∀ i j vi vj,
    vtxList g !! i = Some vi → vtxList g !! j = Some vj →
    edge_count vi (Z.of_nat j)
    = (traversed np vi vj + traversed np vj vi
       + (if decide (i = cur ∧ state vj ∈ tgts) then 1 else 0)
       + (if decide (j = cur ∧ state vi ∈ tgts) then 1 else 0))%nat.

(** The vertex an assignment writes to, and the assignments of a list that
    write to the vertex at position [i]. *)
Definition written (w : Write) : nat :=
  match w with
  | SetColor p _ | SetPredecessor p _ | SetDistance p _ | SetLastMove p _ => p
  end.

Definition writes_to (i : nat) (log : list Write) : list Write :=
  filter (fun w => written w = i) log.

(** The first assignments to the vertex [v] at position [i].  For the
    start vertex, at position 0, the colour alone is assigned, and the
    vertex holds the zeroed fields it was created with.  For any other
    vertex they are the assignments of lines 226-230, whose values the
    vertex holds. *)
Definition first_writes (i : nat) (v : Vertex) (block : list Write) : Prop :=
  if decide (i = 0%nat)
  then block = [SetColor i kVertexColor_Grey]
       ∧ distance v = 0 ∧ predecessor v = None ∧ lastMove v = (0, 0)
  else ∃ c, predecessor v = Some c
            ∧ block = [SetPredecessor i c; SetDistance i (distance v);
                       SetColor i kVertexColor_Grey; SetLastMove i (lastMove v)].

(** The assignments made so far, against the graph: every one writes to a
    vertex of the graph, and for each vertex they are its first
    assignments, in one block, with no assignment to the vertex before and
    only its settling, if it is settled, after. *)
Definition Logged (g : Graph) (log : list Write) : Prop :=
  (∀ w, w ∈ log → (written w < length (vtxList g))%nat)
  ∧ ∀ i v, vtxList g !! i = Some v →
      ∃ before block after,
        log = before ++ block ++ after
        ∧ writes_to i before = []
        ∧ first_writes i v block
        ∧ writes_to i after
          = if decide (color v = kVertexColor_Black)
            then [SetColor i kVertexColor_Black] else [].

(** * Properties *)

(** ** [std_equal] *)

Lemma std_equal_refl a : std_equal a a = true.
Proof. induction a as [|x a IH]; simpl; [done|]. by rewrite decide_True. Qed.

Lemma std_equal_eq a b : length a = length b → std_equal a b = true → a = b.
Proof.
  revert b. induction a as [|x a IH]; intros [|y b] Hlen Heq; simplify_eq/=; [done|].
  case_decide; [|done]. f_equal; [done|]. by apply IH.
Qed.

Lemma std_equal_iff a b : length a = length b → std_equal a b = true ↔ a = b.
Proof.
  intros Hlen. split; [by apply std_equal_eq|]. intros ->. apply std_equal_refl.
Qed.

(** ** The loops as folds over the list of generated moves *)

Lemma foldl_skip {A B} (skip : B → bool) (f : A → B → A) (l : list B) (a : A) :
  foldl (fun a b => if skip b then a else f a b) a l
  = foldl f a (filter (fun b => skip b = false) l).
Proof.
  revert a. induction l as [|b l IH]; intros a; simpl; [done|].
  rewrite filter_cons. destruct (skip b) eqn:Hb.
  - rewrite decide_False by congruence. apply IH.
  - rewrite decide_True by done. simpl. apply IH.
Qed.

Lemma foldl_nested {A B C} (f : B → C → A → A) (h : B → list C) (l : list B) (a : A) :
  foldl (fun a b => foldl (fun a c => f b c a) a (h b)) a l
  = foldl (fun a m => f m.1 m.2 a) a (b ← l; (pair b) <$> h b).
Proof.
  revert a. induction l as [|b l IH]; intros a; simpl; [done|].
  rewrite foldl_app, IH. f_equal.
  generalize (h b). clear. intros k. revert a.
  induction k as [|c k IH]; intros a; simpl; [done|]. apply IH.
Qed.

Lemma peg_loop_foldl {St} np curState d (body : nat → Z → St → St) s :
  peg_loop np curState d body s = foldl (fun s p => body d p s) s (free_pegs np curState d).
Proof.
  unfold peg_loop, free_pegs.
  exact (foldl_skip (fun peg => bool_decide (peg = curState !!! d)
                                || PegHasSmallerDisk curState d peg)
                    (fun s p => body d p s) (seqZ 0 np) s).
Qed.

Lemma neighbor_loops_foldl {St} np curState (body : nat → Z → St → St) s :
  neighbor_loops np curState body s
  = foldl (fun s m => body m.1 m.2 s) s
          (d ← movable_disks curState; (pair d) <$> free_pegs np curState d).
Proof.
  unfold neighbor_loops, movable_disks.
  rewrite (foldl_skip (DiskNotSmallestOnPeg curState)
             (fun s d => peg_loop np curState d body s)).
  rewrite <- (foldl_nested body (free_pegs np curState)).
  generalize (filter (fun b => DiskNotSmallestOnPeg curState b = false)
                     (seq 0 (length curState))).
  intros l. revert s. induction l as [|d l IH]; intros s; simpl; [done|].
  by rewrite IH, peg_loop_foldl.
Qed.

Lemma generated_moves_eq np curState :
  generated_moves np curState
  = d ← movable_disks curState; (pair d) <$> free_pegs np curState d.
Proof.
  unfold generated_moves. rewrite neighbor_loops_foldl.
  generalize (d ← movable_disks curState; (pair d) <$> free_pegs np curState d).
  intros l.
  assert (∀ acc : list (nat * Z),
            foldl (fun s m => s ++ [(m.1, m.2)]) acc l = acc ++ l) as Hacc.
  { induction l as [|m l IH]; intros acc; simpl.
    - by rewrite app_nil_r.
    - rewrite IH. destruct m. by rewrite <- app_assoc. }
  apply (Hacc []).
Qed.

Lemma neighbor_loops_moves {St} np curState (body : nat → Z → St → St) s :
  neighbor_loops np curState body s
  = foldl (fun s m => body m.1 m.2 s) s (generated_moves np curState).
Proof. by rewrite generated_moves_eq, neighbor_loops_foldl. Qed.

Lemma PegHasSmallerDisk_true st d peg :
  PegHasSmallerDisk st d peg = true ↔ ∃ i, (i < d)%nat ∧ st !!! i = peg.
Proof.
  induction d as [|d IH]; simpl.
  - split; [done|]. intros (i & ? & _). lia.
  - case_decide as Heq.
    + split; [|done]. intros _. exists d. split; [lia|done].
    + rewrite IH. split.
      * intros (i & ? & ?). exists i. split; [lia|done].
      * intros (i & Hi & ?). exists i. split; [|done].
        destruct (decide (i = d)) as [->|]; [done|lia].
Qed.

Lemma PegHasSmallerDisk_false st d peg :
  PegHasSmallerDisk st d peg = false ↔ ∀ i, (i < d)%nat → st !!! i ≠ peg.
Proof.
  rewrite <- not_true_iff_false, PegHasSmallerDisk_true. split.
  - intros Hn i Hi Heq. apply Hn. eauto.
  - intros Hall (i & Hi & Heq). by apply (Hall i).
Qed.

Lemma elem_of_generated_moves np curState d p :
  (d, p) ∈ generated_moves np curState ↔
    (d < length curState)%nat ∧ 0 ≤ p < np ∧
    DiskNotSmallestOnPeg curState d = false ∧
    p ≠ curState !!! d ∧
    PegHasSmallerDisk curState d p = false.
Proof.
  rewrite generated_moves_eq, list_elem_of_bind. split.
  - intros (d' & Hp & Hd). apply list_elem_of_fmap in Hp as (p' & [= <- <-] & Hp).
    unfold movable_disks in Hd. apply list_elem_of_filter in Hd as [Hsm Hd].
    apply elem_of_seq in Hd. unfold free_pegs in Hp.
    apply list_elem_of_filter in Hp as [Hfree Hp]. apply elem_of_seqZ in Hp.
    apply orb_false_iff in Hfree as [Hne Hfree]. apply bool_decide_eq_false in Hne.
    repeat split; [lia|lia|lia|done|done|done].
  - intros (Hd & Hp & Hsm & Hne & Hfree). exists d. split.
    + apply list_elem_of_fmap. exists p. split; [done|].
      unfold free_pegs. apply list_elem_of_filter. split.
      * apply orb_false_iff. split; [by apply bool_decide_eq_false|done].
      * apply elem_of_seqZ. lia.
    + unfold movable_disks. apply list_elem_of_filter. split; [done|].
      apply elem_of_seq. lia.
Qed.

(** ** [GetVertex] *)

Lemma find_vertex_Some l st k p :
  find_vertex l st k = Some p →
  ∃ v, (k ≤ p)%nat ∧ l !! (p - k)%nat = Some v ∧ std_equal (state v) st = true.
Proof.
  revert k. induction l as [|u l IH]; intros k Hf; simpl in Hf; [done|].
  destruct (std_equal (state u) st) eqn:Hu.
  - simplify_eq. exists u. by rewrite Nat.sub_diag.
  - apply IH in Hf as (v & Hk & Hl & Hv). exists v. split; [lia|]. split; [|done].
    replace (p - k)%nat with (S (p - S k)) by lia. done.
Qed.

Lemma find_vertex_None l st k i v :
  find_vertex l st k = None → l !! i = Some v → std_equal (state v) st = false.
Proof.
  revert k i. induction l as [|u l IH]; intros k i Hf Hl; simpl in Hf; [done|].
  destruct (std_equal (state u) st) eqn:Hu; [done|].
  destruct i as [|i]; simplify_eq/=; [done|]. by eapply IH.
Qed.

Lemma GetVertex_cases st g :
  (∃ p v, GetVertex st g = (g, p) ∧ vtxList g !! p = Some v
          ∧ std_equal (state v) st = true)
  ∨ (GetVertex st g
       = (mkGraph (numDisks g) (numPegs g) (numVertices g + 1)
                  (vtxList g ++ [newVtx st (numVertices g)]),
          length (vtxList g))
     ∧ ∀ i v, vtxList g !! i = Some v → std_equal (state v) st = false).
Proof.
  unfold GetVertex. destruct (find_vertex (vtxList g) st 0) as [p|] eqn:Hf.
  - left. apply find_vertex_Some in Hf as (v & _ & Hl & Hv).
    rewrite Nat.sub_0_r in Hl. eauto.
  - right. split; [done|]. intros i v Hl. exact (find_vertex_None _ _ 0%nat i v Hf Hl).
Qed.

(** ** Reading and writing through vertex pointers *)

Lemma deref_lookup g p v : vtxList g !! p = Some v → deref g p = v.
Proof. intros H. unfold deref. by apply list_lookup_total_correct. Qed.

Lemma lookup_upd g p f i :
  vtxList (upd p f g) !! i
  = (fun v => if decide (p = i) then f v else v) <$> vtxList g !! i.
Proof.
  simpl. rewrite list_lookup_alter. case_decide as Hd.
  - subst i. by destruct (vtxList g !! p).
  - by destruct (vtxList g !! i).
Qed.

Lemma length_upd g p f : length (vtxList (upd p f g)) = length (vtxList g).
Proof. simpl. apply length_alter. Qed.

(** ** What one visit does to the graph *)

Lemma same_but_edges_refl v : same_but_edges v v.
Proof. by repeat split. Qed.

Lemma same_but_edges_push e v : same_but_edges v (push_edge e v).
Proof. by repeat split. Qed.

Lemma same_but_edges_link cur j i v : same_but_edges v (link cur j i v).
Proof. unfold link. repeat case_decide; by repeat split. Qed.

Section visit.
Context (g : Graph) (q : list nat) (cur : nat) (vc : Vertex).
Context (curState : list Z) (d : nat) (p : Z).
Hypothesis Hnum : numVertices g = Z.of_nat (length (vtxList g)).
Hypothesis Hindex : ∀ i v, vtxList g !! i = Some v → index v = Z.of_nat i.
Hypothesis Hnowhite : ∀ i v, vtxList g !! i = Some v → color v ≠ kVertexColor_White.
Hypothesis Hcur : vtxList g !! cur = Some vc.

Local Abbreviation newState := (<[d := p]> curState).
Local Abbreviation len := (length (vtxList g)).
Local Abbreviation g' := (visit cur curState d p (g, q)).1.
Local Abbreviation q' := (visit cur curState d p (g, q)).2.

Lemma visit_spec :
  (∃ j vj, vtxList g !! j = Some vj ∧ std_equal (state vj) newState = true ∧
           q' = q ∧ numVertices g' = numVertices g ∧ numPegs g' = numPegs g ∧
           ∀ i, vtxList g' !! i = link cur j i <$> vtxList g !! i)
  ∨ ((∀ i v, vtxList g !! i = Some v → std_equal (state v) newState = false) ∧
     q' = q ++ [len] ∧ numVertices g' = numVertices g + 1 ∧ numPegs g' = numPegs g ∧
     vtxList g'
     = alter (push_edge (Z.of_nat len)) cur (vtxList g)
       ++ [fresh_vtx len cur (distance vc + 1) newState (curState !!! d + 1, p + 1)]).
Proof.
  unfold visit.
  destruct (GetVertex_cases newState g) as [(j & vj & -> & Hj & Heq)|[-> Hno]].
  - left. exists j, vj. split; [done|]. split; [done|].
    rewrite (deref_lookup g j vj Hj), (Hindex j vj Hj).
    assert (vtxList (upd cur (push_edge (Z.of_nat j)) g) !! cur
            = Some (push_edge (Z.of_nat j) vc)) as Hc2.
    { rewrite lookup_upd, Hcur. simpl. by rewrite decide_True. }
    rewrite (deref_lookup _ _ _ Hc2). simpl. rewrite (Hindex cur vc Hcur).
    set (g3 := upd j _ _).
    assert (∀ i, vtxList g3 !! i = link cur j i <$> vtxList g !! i) as Hg3.
    { intros i. subst g3. rewrite !lookup_upd. destruct (vtxList g !! i); [|done].
      simpl. unfold link. by repeat case_decide. }
    assert (color (deref g3 j) = color vj) as Hcol.
    { erewrite deref_lookup; [|by rewrite Hg3, Hj]. apply same_but_edges_link. }
    rewrite decide_False; [done|]. rewrite Hcol. by eapply Hnowhite.
  - right. split; [done|].
    set (g1 := mkGraph _ _ _ _).
    assert (vtxList g1 !! len = Some (newVtx newState (numVertices g))) as Hl1.
    { subst g1. simpl. rewrite lookup_app_r by lia. by rewrite Nat.sub_diag. }
    assert (vtxList g1 !! cur = Some vc) as Hc1.
    { subst g1. simpl. by apply lookup_app_l_Some. }
    assert (cur ≠ len) as Hne.
    { apply lookup_lt_Some in Hcur. lia. }
    rewrite (deref_lookup _ _ _ Hl1). simpl. rewrite Hnum.
    set (g2 := upd cur _ g1).
    assert (vtxList g2 !! cur = Some (push_edge (Z.of_nat len) vc)) as Hc2.
    { subst g2. rewrite lookup_upd, Hc1. simpl. by rewrite decide_True. }
    rewrite (deref_lookup _ _ _ Hc2). simpl. rewrite (Hindex cur vc Hcur).
    set (g3 := upd len _ g2).
    assert (vtxList g3 !! len
            = Some (push_edge (Z.of_nat cur) (newVtx newState (Z.of_nat len)))) as Hl3.
    { subst g3 g2. rewrite !lookup_upd, Hl1. simpl.
      rewrite decide_True by done. rewrite decide_False by done. by rewrite Hnum. }
    assert (vtxList g3 !! cur = Some (push_edge (Z.of_nat len) vc)) as Hc3.
    { subst g3. rewrite lookup_upd, Hc2. simpl. by rewrite decide_False. }
    rewrite (deref_lookup _ _ _ Hl3), (deref_lookup _ _ _ Hc3). simpl.
    split; [done|]. split; [by rewrite Hnum|]. split; [done|].
    assert (cur < length (vtxList g))%nat as Hlt by by eapply lookup_lt_Some.
    rewrite alter_app_l by done.
    rewrite !alter_app_r_alt by (rewrite length_alter; lia).
    rewrite length_alter, Nat.sub_diag. simpl.
    by rewrite Hnum.
Qed.
End visit.

Arguments visit : simpl never.
Arguments explore : simpl never.

(** ** Replaying a generated move *)

Lemma top_disk_first st peg k d :
  (d < length st)%nat → st !!! d = peg → (∀ i, (i < d)%nat → st !!! i ≠ peg) →
  top_disk st peg k = Some (k + d)%nat.
Proof.
  revert k d. induction st as [|x st IH]; intros k d Hd Hp Hlt; simpl in *; [lia|].
  destruct d as [|d]; simpl in *.
  - rewrite decide_True by done. f_equal. lia.
  - rewrite decide_False by (apply (Hlt 0%nat); lia).
    rewrite (IH (S k) d); [f_equal; lia|lia|done|].
    intros i Hi. apply (Hlt (S i)). lia.
Qed.

Lemma apply_move_generated np st d p :
  (d, p) ∈ generated_moves np st →
  apply_move np st (st !!! d + 1, p + 1) = Some (<[d := p]> st).
Proof.
  intros (Hd & Hp & Hsm & Hne & Hfree)%elem_of_generated_moves.
  unfold apply_move. simpl.
  replace (st !!! d + 1 - 1) with (st !!! d) by lia.
  replace (p + 1 - 1) with p by lia.
  rewrite (top_disk_first st (st !!! d) 0 d); [|done|done|].
  - simpl. rewrite Hfree. rewrite bool_decide_eq_true_2 by done. done.
  - by apply PegHasSmallerDisk_false.
Qed.

(** ** The invariant of the search *)

Section search.
Context (startState endState : list Z) (np : Z).

(** A step that only touches edge lists keeps the invariant. *)
Lemma Inv_frame g g' greys :
  Inv startState np g greys →
  numPegs g' = numPegs g → numVertices g' = numVertices g →
  Forall2 same_but_edges (vtxList g) (vtxList g') →
  Inv startState np g' greys.
Proof.
  intros HI Hp Hn HF.
  assert (∀ i v', vtxList g' !! i = Some v' →
                  ∃ v, vtxList g !! i = Some v ∧ same_but_edges v v') as Hback.
  { intros i v' Hl. by eapply Forall2_lookup_r. }
  assert (∀ i v, vtxList g !! i = Some v →
                 ∃ v', vtxList g' !! i = Some v' ∧ same_but_edges v v') as Hfwd.
  { intros i v Hl. by eapply Forall2_lookup_l. }
  pose proof (Forall2_length _ _ _ HF) as Hlen.
  destruct HI. split.
  - congruence.
  - rewrite Hn, <- Hlen. done.
  - intros i v' (v & Hl & Hs)%Hback. destruct Hs as (_ & -> & _). eauto.
  - intros i v' (v & Hl & Hs)%Hback. destruct Hs as (_ & _ & _ & -> & _). eauto.
  - intros i j vi' vj' (vi & Hi & Hsi)%Hback (vj & Hj & Hsj)%Hback.
    destruct Hsi as (_ & _ & _ & -> & _). destruct Hsj as (_ & _ & _ & -> & _). eauto.
  - intros i v' x (v & Hl & Hs)%Hback. destruct Hs as (_ & _ & _ & -> & _). eauto.
  - intros i v' (v & Hl & Hs)%Hback. destruct Hs as (-> & _). eauto.
  - intros p Hp'. rewrite <- Hlen. eauto.
  - done.
  - destruct inv_start0 as (v0 & Hl & H1 & H2 & H3).
    apply Hfwd in Hl as (v0' & Hl' & Hs). exists v0'.
    destruct Hs as (_ & _ & -> & -> & -> & _). done.
  - intros i v' (v & Hl & Hs)%Hback. destruct Hs as (_ & _ & -> & _). eauto.
  - intros i v' (v & Hl & Hs)%Hback Hi.
    destruct (inv_pred0 i v Hl Hi) as (j & u & H1 & H2 & H3 & H4 & H5).
    apply Hfwd in H3 as (u' & Hu' & Hsu). exists j, u'.
    destruct Hs as (_ & _ & -> & -> & -> & ->).
    destruct Hsu as (_ & _ & -> & -> & _). done.
  - intros i v' (v & Hl & Hs)%Hback Hc d p Hm.
    destruct Hs as (Hcol & _ & _ & Hst & _). rewrite Hst in *. rewrite Hcol in Hc.
    destruct (inv_closed0 i v Hl Hc d p Hm) as (j & u & Hu & Hsu).
    apply Hfwd in Hu as (u' & Hu' & Hs'). exists j, u'.
    destruct Hs' as (_ & _ & _ & -> & _). done.
Qed.

Lemma NoGoal_frame g g' :
  NoGoal endState g → Forall2 same_but_edges (vtxList g) (vtxList g') → NoGoal endState g'.
Proof.
  intros HN HF i v' Hl Hc.
  destruct (Forall2_lookup_r _ _ _ _ _ HF Hl) as (v & Hv & Hs).
  destruct Hs as (Hcol & _ & _ & -> & _). rewrite Hcol in Hc. eauto.
Qed.

Lemma extends_refl g : extends g g.
Proof. intros i v Hl. exists v. split; [done|]. apply same_but_edges_refl. Qed.

Lemma extends_trans g1 g2 g3 : extends g1 g2 → extends g2 g3 → extends g1 g3.
Proof.
  intros H12 H23 i v Hl.
  destruct (H12 i v Hl) as (v2 & Hl2 & Hs2).
  destruct (H23 i v2 Hl2) as (v3 & Hl3 & Hs3).
  exists v3. split; [done|].
  destruct Hs2 as (?&?&?&?&?&?), Hs3 as (?&?&?&?&?&?).
  repeat split; congruence.
Qed.

Lemma extends_frame g g' :
  Forall2 same_but_edges (vtxList g) (vtxList g') → extends g g'.
Proof. intros HF i v Hl. by eapply Forall2_lookup_l. Qed.

(** Appending the vertex of a newly met state keeps the invariant. *)
Lemma Inv_push g g' greys cur vc st mv :
  Inv startState np g greys →
  vtxList g !! cur = Some vc →
  (∀ i v, vtxList g !! i = Some v → state v ≠ st) →
  length st = length startState →
  (∀ x, x ∈ st → x ∈ startState ∨ 0 ≤ x < np) →
  apply_move np (state vc) mv = Some st →
  numPegs g' = numPegs g →
  numVertices g' = numVertices g + 1 →
  vtxList g'
  = vtxList g ++ [fresh_vtx (length (vtxList g)) cur (distance vc + 1) st mv] →
  Inv startState np g' (greys ++ [length (vtxList g)]).
Proof.
  intros HI Hcur Hnew Hlen Hent Hmv Hp Hn HL.
  set (len := length (vtxList g)) in *.
  assert (cur < len)%nat as Hclt by by eapply lookup_lt_Some.
  assert (∀ i v, vtxList g !! i = Some v → vtxList g' !! i = Some v) as Hold.
  { intros i v Hl. rewrite HL. by apply lookup_app_l_Some. }
  assert (∀ i v', vtxList g' !! i = Some v' →
            ((i < len)%nat ∧ vtxList g !! i = Some v')
            ∨ (i = len ∧ v' = fresh_vtx len cur (distance vc + 1) st mv)) as Hcase.
  { intros i v'. rewrite HL. intros [H|[H1 H2]]%lookup_snoc_Some; [by left|by right]. }
  destruct HI. split.
  - congruence.
  - rewrite Hn, HL, length_app, inv_num0. simpl. lia.
  - intros i v' [[_ Hl]|[-> ->]]%Hcase; [eauto|done].
  - intros i v' [[_ Hl]|[-> ->]]%Hcase; [eauto|done].
  - intros i j vi vj [[Hi Hli]|[-> ->]]%Hcase [[Hj Hlj]|[-> ->]]%Hcase Heq.
    + eauto.
    + simpl in Heq. by destruct (Hnew i vi Hli).
    + simpl in Heq. by destruct (Hnew j vj Hlj).
    + done.
  - intros i v' x [[_ Hl]|[-> ->]]%Hcase Hx; [eauto|]. simpl in Hx. eauto.
  - intros i v' [[Hi Hl]|[-> ->]]%Hcase.
    + rewrite (inv_color0 i v' Hl).
      destruct (decide (i ∈ greys)) as [Hin|Hin].
      * rewrite decide_True; [done|]. apply elem_of_app. by left.
      * rewrite decide_False; [done|]. rewrite elem_of_app, list_elem_of_singleton.
        intros [?|?]; [done|lia].
    + simpl. rewrite decide_True; [done|]. apply elem_of_app. right.
      by apply list_elem_of_singleton.
  - intros p. rewrite HL, length_app, elem_of_app, list_elem_of_singleton. simpl.
    intros [Hin| ->]; [|fold len; lia]. apply inv_greys0 in Hin. fold len in Hin. lia.
  - apply NoDup_app. split; [done|]. split; [|apply NoDup_singleton].
    intros p Hin ->%list_elem_of_singleton. apply inv_greys0 in Hin. fold len in Hin. lia.
  - destruct inv_start0 as (v0 & Hl & H1 & H2 & H3). exists v0. eauto.
  - intros i v' [[_ Hl]|[-> ->]]%Hcase; [eauto|]. simpl.
    pose proof (inv_dist0 cur vc Hcur). lia.
  - intros i v' [[Hi Hl]|[-> ->]]%Hcase Hne.
    + destruct (inv_pred0 i v' Hl Hne) as (j & u & H1 & H2 & H3 & H4 & H5).
      exists j, u. eauto 10.
    + exists cur, vc. simpl. eauto 10.
  - intros i v' [[Hi Hl]|[-> ->]]%Hcase Hc d p Hm; [|done].
    destruct (inv_closed0 i v' Hl Hc d p Hm) as (j & u & Hu & Hsu).
    exists j, u. eauto.
Qed.

Lemma NoGoal_push g g' v :
  NoGoal endState g → color v ≠ kVertexColor_Black → vtxList g' = vtxList g ++ [v] → NoGoal endState g'.
Proof.
  intros HN Hv HL i v'. rewrite HL.
  intros [[_ Hl]|[_ <-]]%lookup_snoc_Some Hc; [by eapply HN|done].
Qed.

Lemma extends_push g g' v : vtxList g' = vtxList g ++ [v] → extends g g'.
Proof.
  intros HL i u Hl. exists u. split; [|apply same_but_edges_refl].
  rewrite HL. by apply lookup_app_l_Some.
Qed.

(** Colouring the explored vertex black takes it out of the grey ones. *)
Lemma Inv_settle g cur vc q :
  Inv startState np g (cur :: q) →
  vtxList g !! cur = Some vc →
  (∀ d p, (d, p) ∈ generated_moves np (state vc) →
          ∃ j u, vtxList g !! j = Some u ∧ state u = <[d := p]> (state vc)) →
  Inv startState np (upd cur (set_color kVertexColor_Black) g) q.
Proof.
  intros HI Hcur Hcl.
  set (g' := upd cur (set_color kVertexColor_Black) g).
  assert (∀ i v', vtxList g' !! i = Some v' →
            ∃ v, vtxList g !! i = Some v ∧
                 v' = if decide (cur = i) then set_color kVertexColor_Black v else v)
    as Hback.
  { intros i v'. subst g'. rewrite lookup_upd.
    destruct (vtxList g !! i) as [v|]; [|done]. intros [= <-]. eauto. }
  assert (∀ i v, vtxList g !! i = Some v →
            vtxList g' !! i
            = Some (if decide (cur = i) then set_color kVertexColor_Black v else v))
    as Hfwd.
  { intros i v Hl. subst g'. by rewrite lookup_upd, Hl. }
  assert (∀ i (v : Vertex),
            state (if decide (cur = i) then set_color kVertexColor_Black v else v)
            = state v) as Hst by (intros; by case_decide).
  destruct HI. apply NoDup_cons in inv_nodup0 as [Hnotin Hnd]. split.
  - done.
  - subst g'. by rewrite length_upd.
  - intros i v' (v & Hl & ->)%Hback. case_decide; simpl; eauto.
  - intros i v' (v & Hl & ->)%Hback. rewrite Hst. eauto.
  - intros i j vi' vj' (vi & Hi & ->)%Hback (vj & Hj & ->)%Hback.
    rewrite !Hst. eauto.
  - intros i v' x (v & Hl & ->)%Hback. rewrite Hst. eauto.
  - intros i v' (v & Hl & ->)%Hback. pose proof (inv_color0 i v Hl) as Hc.
    destruct (decide (cur = i)) as [<-|Hne]; simpl.
    + by rewrite decide_False.
    + rewrite Hc. destruct (decide (i ∈ q)) as [Hin|Hin].
      * rewrite decide_True; [done|]. by apply list_elem_of_further.
      * rewrite decide_False; [done|]. rewrite elem_of_cons. intros [?|?]; by simplify_eq.
  - intros p Hin. subst g'. rewrite length_upd. apply inv_greys0.
    by apply list_elem_of_further.
  - done.
  - destruct inv_start0 as (v0 & Hl & H1 & H2 & H3).
    eexists. split; [by apply Hfwd|]. by case_decide.
  - intros i v' (v & Hl & ->)%Hback. case_decide; simpl; eauto.
  - intros i v' (v & Hl & ->)%Hback Hne.
    destruct (inv_pred0 i v Hl Hne) as (j & u & H1 & H2 & H3 & H4 & H5).
    exists j, (if decide (cur = j) then set_color kVertexColor_Black u else u).
    split; [by case_decide|]. split; [done|].
    split; [by apply Hfwd|]. rewrite !Hst. split; [by repeat case_decide|].
    by case_decide.
  - intros i v' (v & Hl & ->)%Hback Hc d p Hm. rewrite Hst in *.
    assert (∃ j u, vtxList g !! j = Some u ∧ state u = <[d:=p]> (state v))
      as (j & u & Hu & Hsu).
    { destruct (decide (cur = i)) as [<-|Hne].
      - simplify_eq. by apply Hcl.
      - by eapply inv_closed0. }
    exists j. eexists. split; [by apply Hfwd|]. by rewrite Hst.
Qed.

Lemma NoGoal_settle g cur vc :
  NoGoal endState g →
  vtxList g !! cur = Some vc →
  std_equal (state vc) endState = false →
  NoGoal endState (upd cur (set_color kVertexColor_Black) g).
Proof.
  intros HN Hcur Hne i v'. rewrite lookup_upd.
  destruct (vtxList g !! i) as [v|] eqn:Hl; [|done]. intros [= <-].
  destruct (decide (cur = i)) as [<-|?]; simpl.
  - intros _. by simplify_eq.
  - by apply (HN i).
Qed.

(** The graph the loop starts from. *)
Lemma seed_eq g :
  seed startState g
  = (mkGraph (numDisks g) (numPegs g) 1
             [mkVertex kVertexColor_Grey 0 0 [] startState None (0, 0)],
     [0%nat]).
Proof. done. Qed.

Lemma Inv_seed g :
  numPegs g = np → Inv startState np (seed startState g).1 (seed startState g).2.
Proof.
  intros Hp. rewrite seed_eq. simpl. split; simpl.
  - done.
  - done.
  - intros [|i] v; intros; simplify_eq/=. done.
  - intros [|i] v; intros; simplify_eq/=. done.
  - intros [|i] [|j] vi vj; intros; simplify_eq/=. done.
  - intros [|i] v x; intros; simplify_eq/=. by left.
  - intros [|i] v; intros; simplify_eq/=. done.
  - intros p ->%list_elem_of_singleton. lia.
  - apply NoDup_singleton.
  - eexists. done.
  - intros [|i] v; intros; simplify_eq/=. done.
  - intros [|i] v; intros; simplify_eq/=.
  - intros [|i] v; intros; simplify_eq/=.
Qed.

Lemma NoGoal_seed g : NoGoal endState (seed startState g).1.
Proof. rewrite seed_eq. intros [|i] v; intros; simplify_eq/=. Qed.

Lemma Forall2_pointwise (L L' : list Vertex) (f : nat → Vertex → Vertex) :
  (∀ i, L' !! i = f i <$> L !! i) →
  (∀ i v, same_but_edges v (f i v)) →
  Forall2 same_but_edges L L'.
Proof.
  intros Hl Hf. apply Forall2_lookup. intros i. rewrite Hl.
  destruct (L !! i); constructor. apply Hf.
Qed.

Lemma elem_of_insert_inv (l : list Z) i x y : x ∈ <[i := y]> l → x = y ∨ x ∈ l.
Proof.
  intros (j & Hj)%list_elem_of_lookup.
  apply list_lookup_insert_Some in Hj as [(_ & -> & _)|[_ Hj]]; [by left|].
  right. by eapply list_elem_of_lookup_2.
Qed.

(** One run of the body of the inner loop keeps the invariant, and the
    state it was run for has a vertex afterwards. *)
Lemma visit_Inv g q cur vc d p :
  Inv startState np g (cur :: q) → NoGoal endState g →
  vtxList g !! cur = Some vc →
  (d, p) ∈ generated_moves np (state vc) →
  let s' := visit cur (state vc) d p (g, q) in
  Inv startState np s'.1 (cur :: s'.2) ∧ NoGoal endState s'.1 ∧ extends g s'.1 ∧
  (∃ j u, vtxList s'.1 !! j = Some u ∧ state u = <[d := p]> (state vc)) ∧
  (length (vtxList s'.1) + length q = length (vtxList g) + length s'.2)%nat.
Proof.
  intros HI HN Hcur Hm s'.
  assert (∀ i v, vtxList g !! i = Some v → color v ≠ kVertexColor_White) as Hnw.
  { intros i v Hl. rewrite (inv_color _ _ _ _ HI i v Hl). by case_decide. }
  assert (length (<[d := p]> (state vc)) = length startState) as Hlen.
  { rewrite length_insert. by eapply inv_len. }
  destruct (visit_spec g q cur vc (state vc) d p
              (inv_num _ _ _ _ HI) (inv_index _ _ _ _ HI) Hnw Hcur)
    as [(j & vj & Hj & Heq & Hq & Hn & Hp & Hlook)|(Hno & Hq & Hn & Hp & HL)].
  - fold s' in Hq, Hn, Hp, Hlook.
    assert (Forall2 same_but_edges (vtxList g) (vtxList s'.1)) as HF.
    { apply (Forall2_pointwise _ _ (link cur j)); [done|].
      intros. apply same_but_edges_link. }
    rewrite Hq. split; [by eapply Inv_frame|]. split; [by eapply NoGoal_frame|].
    split; [by apply extends_frame|]. split.
    + apply std_equal_eq in Heq; [|rewrite Hlen; by eapply inv_len].
      exists j, (link cur j j vj). rewrite Hlook, Hj. split; [done|].
      rewrite <- Heq. apply same_but_edges_link.
    + apply Forall2_length in HF. lia.
  - fold s' in Hq, Hn, Hp, HL.
    set (len := length (vtxList g)) in *.
    set (ga := mkGraph (numDisks g) (numPegs g) (numVertices g)
                       (alter (push_edge (Z.of_nat len)) cur (vtxList g))).
    assert (Forall2 same_but_edges (vtxList g) (vtxList ga)) as HF.
    { apply (Forall2_pointwise _ _
               (fun i v => if decide (cur = i) then push_edge (Z.of_nat len) v else v)).
      - intros i. simpl. rewrite list_lookup_alter. case_decide; [by subst|].
        by destruct (vtxList g !! i).
      - intros i v. case_decide; [apply same_but_edges_push|apply same_but_edges_refl]. }
    assert (Inv startState np ga (cur :: q)) as HIa by by eapply Inv_frame.
    assert (length (vtxList ga) = len) as Hla by (simpl; by rewrite length_alter).
    assert (vtxList ga !! cur = Some (push_edge (Z.of_nat len) vc)) as Hca.
    { simpl. by rewrite list_lookup_alter_eq, Hcur. }
    assert (Inv startState np s'.1 ((cur :: q) ++ [length (vtxList ga)])) as HI'.
    { apply (Inv_push ga s'.1 (cur :: q) cur (push_edge (Z.of_nat len) vc)
               (<[d := p]> (state vc)) (state vc !!! d + 1, p + 1)).
      - done.
      - done.
      - intros i v' Hl Hst.
        destruct (Forall2_lookup_r _ _ _ _ _ HF Hl) as (v & Hv & Hs).
        destruct Hs as (_ & _ & _ & Hsv & _).
        pose proof (Hno i v Hv) as Hf. rewrite <- Hsv, Hst, std_equal_refl in Hf. done.
      - done.
      - intros x [->|Hx]%elem_of_insert_inv.
        + right. apply elem_of_generated_moves in Hm. lia.
        + by eapply inv_entries.
      - simpl. by apply apply_move_generated.
      - done.
      - done.
      - rewrite HL, Hla. done. }
    rewrite Hla in HI'. rewrite Hq. split; [done|].
    split. { eapply NoGoal_push; [by eapply NoGoal_frame| |exact HL]. done. }
    split. { eapply extends_trans; [by apply extends_frame|by eapply extends_push]. }
    split.
    + exists len. eexists. split.
      * rewrite HL. rewrite lookup_app_r by (rewrite length_alter; subst len; lia).
        rewrite length_alter. fold len. by rewrite Nat.sub_diag.
      * done.
    + rewrite HL, !length_app, length_alter. simpl. lia.
Qed.

(** The neighbour loops, as a fold of [visit] over the generated moves. *)
Lemma fold_visit_Inv cur curState ms :
  ∀ g q vc,
    (∀ m, m ∈ ms → m ∈ generated_moves np curState) →
    Inv startState np g (cur :: q) → NoGoal endState g →
    vtxList g !! cur = Some vc → state vc = curState →
    let s' := foldl (fun s m => visit cur curState m.1 m.2 s) (g, q) ms in
    Inv startState np s'.1 (cur :: s'.2) ∧ NoGoal endState s'.1 ∧ extends g s'.1 ∧
    (∀ m, m ∈ ms →
          ∃ j u, vtxList s'.1 !! j = Some u ∧ state u = <[m.1 := m.2]> curState) ∧
    (length (vtxList s'.1) + length q = length (vtxList g) + length s'.2)%nat.
Proof.
  induction ms as [|[d p] ms IH]; intros g q vc Hms HI HN Hcur Hst; simpl.
  - split; [done|]. split; [done|]. split; [apply extends_refl|].
    split; [|done]. intros m Hm. by apply elem_of_nil in Hm.
  - subst curState.
    assert ((d, p) ∈ generated_moves np (state vc)) as Hdp.
    { apply Hms. apply list_elem_of_here. }
    destruct (visit_Inv g q cur vc d p HI HN Hcur Hdp) as (HI1 & HN1 & He1 & Hs1 & Hl1).
    destruct (visit cur (state vc) d p (g, q)) as [g1 q1] eqn:Hv. simpl in *.
    destruct (He1 cur vc Hcur) as (vc1 & Hcur1 & Hsame).
    assert (state vc1 = state vc) as Hst1 by apply Hsame.
    destruct (IH g1 q1 vc1) as (HI2 & HN2 & He2 & Hs2 & Hl2); [|done|done|done|done|].
    { intros m Hm. apply Hms. by apply list_elem_of_further. }
    split; [done|]. split; [done|]. split; [by eapply extends_trans|].
    split; [|lia].
    intros m [->|Hm]%elem_of_cons; [|by apply Hs2].
    destruct Hs1 as (j & u & Hu & Hsu).
    destruct (He2 j u Hu) as (u' & Hu' & Hsame'). exists j, u'. split; [done|].
    simpl. rewrite <- Hsu. apply Hsame'.
Qed.

(** One turn of the [while] loop, up to the test of the goal. *)
Lemma explore_Inv g cur rest vc :
  Inv startState np g (cur :: rest) → NoGoal endState g →
  vtxList g !! cur = Some vc →
  let s' := explore cur g rest in
  ∃ vc', vtxList s'.1 !! cur = Some vc' ∧ state vc' = state vc
         ∧ distance vc' = distance vc ∧
    Inv startState np s'.1 s'.2 ∧
    (std_equal (state vc) endState = false → NoGoal endState s'.1) ∧
    (length (vtxList s'.1) + length rest = length (vtxList g) + length s'.2)%nat.
Proof.
  intros HI HN Hcur. unfold explore.
  rewrite (deref_lookup g cur vc Hcur), neighbor_loops_moves, (inv_pegs _ _ _ _ HI).
  destruct (fold_visit_Inv cur (state vc) (generated_moves np (state vc)) g rest vc)
    as (HI1 & HN1 & He1 & Hs1 & Hl1); [done..|].
  destruct (foldl _ _ _) as [g1 q1]. simpl in *.
  destruct (He1 cur vc Hcur) as (vc1 & Hcur1 & Hsame).
  destruct Hsame as (Hcol & Hidx & Hdist & Hst & Hpred & Hmv).
  exists (set_color kVertexColor_Black vc1). split.
  { rewrite list_lookup_alter_eq, Hcur1. done. }
  split; [done|]. split; [done|]. split.
  { apply (Inv_settle g1 cur vc1 q1); [done|done|].
    intros d p Hm. rewrite Hst in *. apply (Hs1 (d, p) Hm). }
  split.
  { intros Hne. apply (NoGoal_settle g1 cur vc1); [done|done|]. by rewrite Hst. }
  rewrite length_alter. done.
Qed.

(** The loop keeps the invariant, and a vertex it returns is the goal. *)
Lemma bfs_loop_Inv fuel :
  ∀ g q, Inv startState np g q → NoGoal endState g →
    match bfs_loop endState fuel g q with
    | Returned d g' =>
        ∃ q' cur v, Inv startState np g' q' ∧ vtxList g' !! cur = Some v
                    ∧ std_equal (state v) endState = true ∧ d = distance v
    | FellThrough g' => Inv startState np g' [] ∧ NoGoal endState g'
    | OutOfFuel g' q' => Inv startState np g' q' ∧ NoGoal endState g'
    end.
Proof.
  induction fuel as [|fuel IH]; intros g [|cur rest] HI HN; simpl; try done.
  assert (is_Some (vtxList g !! cur)) as [vc Hcur].
  { apply lookup_lt_is_Some, (inv_greys _ _ _ _ HI), list_elem_of_here. }
  destruct (explore_Inv g cur rest vc HI HN Hcur) as (vc' & Hc' & Hst & Hd & HI' & HN' & _).
  destruct (explore cur g rest) as [g' q']. simpl in *.
  rewrite (deref_lookup g' cur vc' Hc').
  destruct (std_equal (state vc') endState) eqn:Hgoal.
  - exists q', cur, vc'. done.
  - apply IH; [done|]. apply HN'. by rewrite <- Hst.
Qed.

Lemma BuildAndExplore_Inv fuel g0 :
  numPegs g0 = np →
  match BuildAndExplore fuel startState endState g0 with
  | Returned d g' =>
      ∃ q' cur v, Inv startState np g' q' ∧ vtxList g' !! cur = Some v
                  ∧ std_equal (state v) endState = true ∧ d = distance v
  | FellThrough g' => Inv startState np g' [] ∧ NoGoal endState g'
  | OutOfFuel g' q' => Inv startState np g' q' ∧ NoGoal endState g'
  end.
Proof.
  intros Hp. unfold BuildAndExplore.
  pose proof (Inv_seed g0 Hp) as HI. pose proof (NoGoal_seed g0) as HN.
  destruct (seed startState g0) as [g1 q1]. by apply bfs_loop_Inv.
Qed.

(** ** The predecessor chain *)

Lemma replay_app st ms1 ms2 :
  replay np st (ms1 ++ ms2) = st' ← replay np st ms1; replay np st' ms2.
Proof.
  revert st. induction ms1 as [|m ms1 IH]; intros st; simpl; [done|].
  destruct (apply_move np st m) as [st1|]; simpl; [apply IH|done].
Qed.

Lemma Inv_distance_0 g greys i v :
  Inv startState np g greys → vtxList g !! i = Some v → distance v = 0 → i = 0%nat.
Proof.
  intros HI Hl Hd. destruct (decide (i = 0%nat)) as [|Hne]; [done|].
  destruct (inv_pred _ _ _ _ HI i v Hl Hne) as (j & u & _ & _ & Hu & Hdu & _).
  pose proof (inv_dist _ _ _ _ HI j u Hu). lia.
Qed.

(** Walking [k] predecessor links from a vertex at distance [k] ends at
    the start vertex, and the moves met on the way, replayed from the
    start state, give the state of that vertex. *)
Lemma collect_chain g greys :
  Inv startState np g greys →
  ∀ k i v acc,
    vtxList g !! i = Some v → distance v = Z.of_nat k →
    ∃ chain,
      collect g k (Some i) acc = Some (chain ++ acc, Some 0%nat)
      ∧ length chain = k
      ∧ replay np startState ((fun p => lastMove (deref g p)) <$> chain)
        = Some (state v).
Proof.
  intros HI. induction k as [|k IH]; intros i v acc Hl Hd.
  - assert (i = 0%nat) as -> by by eapply Inv_distance_0.
    exists []. simpl. split; [done|]. split; [done|].
    destruct (inv_start _ _ _ _ HI) as (v0 & Hl0 & Hs0 & _).
    rewrite Hl in Hl0. injection Hl0 as <-. by rewrite Hs0.
  - assert (i ≠ 0%nat) as Hne.
    { intros ->. destruct (inv_start _ _ _ _ HI) as (v0 & Hl0 & _ & Hd0 & _).
      rewrite Hl in Hl0. injection Hl0 as <-. lia. }
    destruct (inv_pred _ _ _ _ HI i v Hl Hne) as (j & u & Hp & _ & Hu & Hdu & Hmv).
    destruct (IH j u (i :: acc) Hu) as (chain & Hc & Hlen & Hr); [lia|].
    exists (chain ++ [i]). simpl. rewrite (deref_lookup g i v Hl), Hp, Hc.
    split; [by rewrite <- app_assoc|]. split; [rewrite length_app; simpl; lia|].
    rewrite fmap_app, replay_app, Hr. simpl.
    rewrite (deref_lookup g i v Hl), Hmv. done.
Qed.

(** After the search has returned, [GetVertex] finds the vertex that was
    returned. *)
Lemma GetVertex_goal g greys cur v :
  length startState = length endState →
  Inv startState np g greys → vtxList g !! cur = Some v → std_equal (state v) endState = true →
  GetVertex endState g = (g, cur) ∧ state v = endState.
Proof.
  intros Hlen HI Hl Heq.
  assert (state v = endState) as Hst.
  { apply std_equal_eq; [|done]. rewrite <- Hlen. by eapply inv_len. }
  split; [|done].
  destruct (GetVertex_cases endState g) as [(p & u & -> & Hu & Hequ)|[_ Hno]].
  - f_equal. apply std_equal_eq in Hequ.
    + eapply inv_uniq; [done..|]. congruence.
    + rewrite <- Hlen. by eapply inv_len.
  - rewrite (Hno cur v Hl) in Heq. done.
Qed.
End search.

(** ** The driver: walking back from the goal *)

Lemma printed_moves_map (g : Graph) (d : Z) (forwardList : list nat) :
  printed_moves
    (LineNumMoves d :: LineCount d ::
     map (fun p => LineMove (lastMove (deref g p)).1 (lastMove (deref g p)).2) forwardList)
  = (fun p => lastMove (deref g p)) <$> forwardList.
Proof.
  unfold printed_moves. simpl.
  induction forwardList as [|p l IH]; simpl; [done|].
  rewrite IH. by destruct (lastMove (deref g p)).
Qed.

(** What the driver does once the search has returned [D]. *)
Lemma walk_back fuel startState endState g0 D g :
  length startState = length endState →
  BuildAndExplore fuel startState endState g0 = Returned D g →
  ∃ goalVtx forwardList,
    GetVertex endState g = (g, goalVtx)
    ∧ state (deref g goalVtx) = endState
    ∧ 0 ≤ D
    ∧ collect g (Z.to_nat D) (Some goalVtx) [] = Some (forwardList, Some 0%nat)
    ∧ length forwardList = Z.to_nat D
    ∧ state (deref g 0%nat) = startState
    ∧ predecessor (deref g 0%nat) = None
    ∧ replay (numPegs g0) startState ((fun p => lastMove (deref g p)) <$> forwardList)
      = Some endState.
Proof.
  intros Hlen Hrun.
  pose proof (BuildAndExplore_Inv startState endState (numPegs g0) fuel g0 eq_refl) as H.
  rewrite Hrun in H. destruct H as (q' & cur & v & HI & Hl & Heq & ->).
  destruct (GetVertex_goal _ _ _ g q' cur v Hlen HI Hl Heq) as [HG Hst].
  pose proof (inv_dist _ _ _ _ HI cur v Hl) as Hd.
  destruct (collect_chain _ _ g q' HI (Z.to_nat (distance v)) cur v [] Hl)
    as (chain & Hc & Hcl & Hr); [lia|].
  rewrite app_nil_r in Hc.
  destruct (inv_start _ _ _ _ HI) as (v0 & Hl0 & Hs0 & _ & Hp0).
  exists cur, chain. rewrite (deref_lookup g cur v Hl), (deref_lookup g 0%nat v0 Hl0).
  rewrite Hr, Hst. done.
Qed.

(** ** The graph of legal moves is connected *)

Lemma PegHasSmallerDisk_app a rest d peg :
  (d ≤ length a)%nat →
  PegHasSmallerDisk (a ++ rest) d peg = PegHasSmallerDisk a d peg.
Proof.
  induction d as [|d IH]; intros Hd; simpl; [done|].
  rewrite lookup_total_app_l by lia. rewrite IH by lia. done.
Qed.

(** Disks of larger index do not constrain the moves of the smaller ones. *)
Lemma neighbor_app np a b rest : neighbor np a b → neighbor np (a ++ rest) (b ++ rest).
Proof.
  intros (d & p & Hm & ->). exists d, p.
  apply elem_of_generated_moves in Hm as (Hd & Hp & Hsm & Hne & Hfree).
  split; [|by rewrite insert_app_l].
  apply elem_of_generated_moves. unfold DiskNotSmallestOnPeg in *.
  rewrite !PegHasSmallerDisk_app by lia. rewrite lookup_total_app_l by lia.
  rewrite length_app. repeat split; try done; lia.
Qed.

Lemma rtc_neighbor_app np a b rest :
  rtc (neighbor np) a b → rtc (neighbor np) (a ++ rest) (b ++ rest).
Proof.
  induction 1 as [|a b c Hab _ IH]; [done|].
  eapply rtc_l; [|exact IH]. by apply neighbor_app.
Qed.

(** The largest disk moves once the smaller ones are stacked elsewhere. *)
Lemma neighbor_largest np k r x p :
  0 ≤ p < np → r ≠ x → r ≠ p → x ≠ p →
  neighbor np (replicate k r ++ [x]) (replicate k r ++ [p]).
Proof.
  intros Hp Hrx Hrp Hxp. exists k, p.
  assert ((replicate k r ++ [x]) !!! k = x) as Hk.
  { rewrite lookup_total_app_r by (rewrite length_replicate; lia).
    by rewrite length_replicate, Nat.sub_diag. }
  assert (∀ i, (i < k)%nat → (replicate k r ++ [x]) !!! i = r) as Hi.
  { intros i Hlt. rewrite lookup_total_app_l by (rewrite length_replicate; lia).
    by apply lookup_total_replicate_2. }
  split.
  - apply elem_of_generated_moves. unfold DiskNotSmallestOnPeg. rewrite Hk.
    rewrite length_app, length_replicate. simpl.
    split; [lia|]. split; [done|].
    split; [|split; [done|]]; apply PegHasSmallerDisk_false; intros i Hlt;
      by rewrite Hi.
  - rewrite insert_app_r_alt by (rewrite length_replicate; lia).
    by rewrite length_replicate, Nat.sub_diag.
Qed.

Lemma third_peg np x p : 3 ≤ np → ∃ r, 0 ≤ r < np ∧ r ≠ x ∧ r ≠ p.
Proof.
  intros Hnp.
  destruct (decide (x = 0 ∨ p = 0)); [|exists 0; lia].
  destruct (decide (x = 1 ∨ p = 1)); [|exists 1; lia].
  exists 2. lia.
Qed.

(** With three pegs or more, every tower can be gathered on any peg. *)
Lemma gather np :
  3 ≤ np →
  ∀ n a p, length a = n → in_range np a → 0 ≤ p < np →
           rtc (neighbor np) a (replicate n p).
Proof.
  intros Hnp. induction n as [|n IH]; intros a p Hlen Ha Hp.
  - apply nil_length_inv in Hlen as ->. done.
  - destruct a as [|y a0 _] using rev_ind; [done|].
    rename a0 into a. rename y into x.
    rewrite length_app in Hlen. simpl in Hlen.
    apply Forall_app in Ha as [Ha Hx]. apply Forall_singleton in Hx.
    rewrite replicate_S_end.
    destruct (decide (x = p)) as [->|Hxp].
    + apply rtc_neighbor_app. apply IH; [lia|done|done].
    + destruct (third_peg np x p Hnp) as (r & Hr & Hrx & Hrp).
      transitivity (replicate n r ++ [x]).
      { apply rtc_neighbor_app. apply IH; [lia|done|done]. }
      apply (rtc_l _ _ (replicate n r ++ [p])).
      { apply neighbor_largest; [done|lia|lia|done]. }
      apply rtc_neighbor_app. apply IH; [by rewrite length_replicate| |done].
      by apply Forall_replicate.
Qed.

(** Every generated move can be taken back. *)
Lemma neighbor_sym np s s' :
  in_range np s → neighbor np s s' → neighbor np s' s ∧ in_range np s'.
Proof.
  intros Hs (d & p & Hm & ->).
  apply elem_of_generated_moves in Hm as (Hd & Hp & Hsm & Hne & Hfree).
  unfold DiskNotSmallestOnPeg in Hsm.
  rewrite PegHasSmallerDisk_false in Hsm, Hfree.
  split; [|by apply Forall_insert].
  exists d, (s !!! d). split.
  - assert (∀ i, (i < d)%nat → <[d := p]> s !!! i = s !!! i) as Hi.
    { intros i Hlt. apply list_lookup_total_insert_ne. lia. }
    apply elem_of_generated_moves. unfold DiskNotSmallestOnPeg.
    rewrite list_lookup_total_insert_eq by done. rewrite length_insert.
    split; [done|]. split.
    { by apply (Forall_lookup_total_1 _ s d Hs). }
    split; [|split; [done|]]; apply PegHasSmallerDisk_false; intros i Hlt;
      rewrite Hi by done; auto.
  - rewrite list_insert_insert_eq. symmetry. apply list_insert_id.
    by apply list_lookup_lookup_total_lt.
Qed.

Lemma rtc_neighbor_sym np s t :
  in_range np s → rtc (neighbor np) s t → rtc (neighbor np) t s ∧ in_range np t.
Proof.
  intros Hs Hst. induction Hst as [s|s s1 t Hstep _ IH]; [done|].
  destruct (neighbor_sym np s s1 Hs Hstep) as [Hback Hs1].
  destruct (IH Hs1) as [Hts1 Ht]. split; [|done]. by eapply rtc_r.
Qed.

Lemma connected np s t :
  3 ≤ np → length s = length t → in_range np s → in_range np t →
  rtc (neighbor np) s t.
Proof.
  intros Hnp Hlen Hs Ht.
  transitivity (replicate (length s) 0).
  - apply gather; [done|done|done|lia].
  - apply (rtc_neighbor_sym np t); [done|]. rewrite Hlen.
    apply gather; [done|done|done|lia].
Qed.

(** ** The search reaches the goal *)

(** Once every vertex is settled, every state reachable from the start
    has a vertex. *)
Lemma closed_reach startState np g t :
  Inv startState np g [] →
  rtc (neighbor np) startState t →
  ∃ j u, vtxList g !! j = Some u ∧ state u = t.
Proof.
  intros HI Hreach. revert t Hreach. apply rtc_ind_r.
  - destruct (inv_start _ _ _ _ HI) as (v0 & Hl0 & Hs0 & _). eauto.
  - intros s t Hst Hstep IH.
    destruct IH as (j & u & Hu & <-). destruct Hstep as (d & p & Hm & ->).
    eapply inv_closed; [done|done| |done].
    rewrite (inv_color _ _ _ _ HI j u Hu). rewrite decide_False; [done|].
    apply not_elem_of_nil.
Qed.

Lemma no_fall_through fuel startState endState g0 g :
  3 ≤ numPegs g0 →
  length startState = length endState →
  in_range (numPegs g0) startState → in_range (numPegs g0) endState →
  BuildAndExplore fuel startState endState g0 ≠ FellThrough g.
Proof.
  intros Hnp Hlen Hs He Hrun.
  pose proof (BuildAndExplore_Inv startState endState (numPegs g0) fuel g0 eq_refl) as H.
  rewrite Hrun in H. destruct H as [HI HN].
  destruct (closed_reach startState (numPegs g0) g endState HI) as (j & u & Hu & Hsu).
  { by apply connected. }
  assert (color u = kVertexColor_Black) as Hc.
  { rewrite (inv_color _ _ _ _ HI j u Hu). rewrite decide_False; [done|].
    apply not_elem_of_nil. }
  pose proof (HN j u Hu Hc) as Hf. rewrite Hsu, std_equal_refl in Hf. done.
Qed.

(** ** The search terminates *)

Lemma elem_of_all_cfgs np s : in_range np s → s ∈ all_cfgs (length s) np.
Proof.
  induction s as [|x s IH]; intros Hs; simpl.
  - apply list_elem_of_here.
  - apply Forall_cons in Hs as [Hx Hs]. apply list_elem_of_bind. exists x. split.
    + apply list_elem_of_fmap. exists s. split; [done|]. by apply IH.
    + apply elem_of_seqZ. lia.
Qed.

Lemma vertices_bound startState np g q :
  in_range np startState → Inv startState np g q →
  (length (vtxList g) ≤ length (all_cfgs (length startState) np))%nat.
Proof.
  intros Hs HI. rewrite <- (length_fmap state (vtxList g)).
  apply submseteq_length, NoDup_submseteq.
  - apply NoDup_alt. intros i j x. rewrite !list_lookup_fmap.
    destruct (vtxList g !! i) as [vi|] eqn:Hi; [|done].
    destruct (vtxList g !! j) as [vj|] eqn:Hj; [|done].
    simpl. intros [= <-] [= Heq]. eapply inv_uniq; [done..|]. done.
  - intros x (v & -> & Hv)%list_elem_of_fmap.
    apply list_elem_of_lookup in Hv as (i & Hi).
    rewrite <- (inv_len _ _ _ _ HI i v Hi). apply elem_of_all_cfgs.
    apply Forall_forall. intros y Hy.
    destruct (inv_entries _ _ _ _ HI i v y Hi Hy) as [Hin|Hr]; [|done].
    by apply (proj1 (Forall_forall _ _) Hs).
Qed.

(** [k] counts the settled vertices: each turn of the loop settles one. *)
Lemma bfs_loop_fuel startState endState np fuel :
  in_range np startState →
  ∀ g q k,
    Inv startState np g q → NoGoal endState g →
    length (vtxList g) = (k + length q)%nat →
    (length (all_cfgs (length startState) np) < fuel + k)%nat →
    ∀ g' q', bfs_loop endState fuel g q ≠ OutOfFuel g' q'.
Proof.
  intros Hs. induction fuel as [|fuel IH]; intros g [|cur rest] k HI HN Hk Hf g' q';
    simpl; try done.
  - pose proof (vertices_bound _ _ _ _ Hs HI). simpl in Hk. lia.
  - assert (is_Some (vtxList g !! cur)) as [vc Hcur].
    { apply lookup_lt_is_Some, (inv_greys _ _ _ _ HI), list_elem_of_here. }
    destruct (explore_Inv startState endState np g cur rest vc HI HN Hcur)
      as (vc' & Hc' & Hst & Hd & HI' & HN' & Hl').
    destruct (explore cur g rest) as [g1 q1]. simpl in *.
    rewrite (deref_lookup g1 cur vc' Hc').
    destruct (std_equal (state vc') endState) eqn:Hgoal; [done|].
    apply (IH g1 q1 (S k)); [done| |lia|lia].
    apply HN'. by rewrite <- Hst.
Qed.

(** ** Edge lists *)

Lemma edge_count_push e v idx :
  edge_count (push_edge e v) idx
  = ((if decide (e = idx) then 1 else 0) + edge_count v idx)%nat.
Proof.
  unfold edge_count. simpl. destruct (Z.eq_dec e idx); by case_decide.
Qed.

Lemma edge_count_link cur j a v b :
  edge_count (link cur j a v) (Z.of_nat b)
  = ((if decide (cur = a ∧ j = b) then 1 else 0)
     + (if decide (j = a ∧ cur = b) then 1 else 0)
     + edge_count v (Z.of_nat b))%nat.
Proof.
  unfold link. repeat case_decide; rewrite ?edge_count_push; repeat case_decide; lia.
Qed.

Lemma edge_count_0 v idx : idx ∉ edgeList v → edge_count v idx = 0%nat.
Proof.
  intros Hn. apply count_occ_not_In. by rewrite <- list_elem_of_In.
Qed.

Lemma elem_of_edges_link cur j a v e :
  e ∈ edgeList (link cur j a v) → e = Z.of_nat cur ∨ e = Z.of_nat j ∨ e ∈ edgeList v.
Proof.
  unfold link. repeat case_decide; simpl; rewrite ?elem_of_cons; tauto.
Qed.

Lemma visit_EdgesOk startState np g q cur vc curState d p :
  Inv startState np g (cur :: q) →
  vtxList g !! cur = Some vc →
  EdgesOk g →
  EdgesOk (visit cur curState d p (g, q)).1.
Proof.
  intros HI Hcur [Hval Hsym].
  assert (∀ i v, vtxList g !! i = Some v → color v ≠ kVertexColor_White) as Hnw.
  { intros i v Hl. rewrite (inv_color _ _ _ _ HI i v Hl). by case_decide. }
  assert (cur < length (vtxList g))%nat as Hclt by by eapply lookup_lt_Some.
  destruct (visit_spec g q cur vc curState d p
              (inv_num _ _ _ _ HI) (inv_index _ _ _ _ HI) Hnw Hcur)
    as [(j & vj & Hj & _ & _ & _ & _ & Hlook)|(_ & _ & _ & _ & HL)].
  - set (g' := (visit cur curState d p (g, q)).1) in *.
    assert (j < length (vtxList g))%nat as Hjlt by by eapply lookup_lt_Some.
    assert (length (vtxList g') = length (vtxList g)) as Hlen.
    { symmetry. apply (Forall2_length same_but_edges).
      apply (Forall2_pointwise _ _ (link cur j)); [done|].
      intros. apply same_but_edges_link. }
    assert (∀ i v', vtxList g' !! i = Some v' →
                    ∃ v, vtxList g !! i = Some v ∧ v' = link cur j i v) as Hback.
    { intros i v'. rewrite Hlook. destruct (vtxList g !! i) as [v|]; [|done].
      intros [= <-]. eauto. }
    split.
    + intros i v' e (v & Hv & ->)%Hback He. rewrite Hlen.
      apply elem_of_edges_link in He as [->|[->|He]]; eauto.
    + intros a b va' vb' (va & Ha & ->)%Hback (vb & Hb & ->)%Hback.
      rewrite !edge_count_link, (Hsym a b va vb Ha Hb).
      repeat case_decide; lia.
  - set (g' := (visit cur curState d p (g, q)).1) in *.
    set (len := length (vtxList g)) in *.
    assert (length (vtxList g') = S len) as Hlen.
    { rewrite HL, length_app, length_alter. simpl. lia. }
    assert (∀ i v', vtxList g' !! i = Some v' →
              (∃ v, (i < len)%nat ∧ vtxList g !! i = Some v ∧
                    v' = if decide (cur = i) then push_edge (Z.of_nat len) v else v)
              ∨ (i = len ∧ edgeList v' = [Z.of_nat cur])) as Hcase.
    { intros i v'. rewrite HL.
      intros [[Hi Hl]|[Hi <-]]%lookup_snoc_Some.
      - left. rewrite length_alter in Hi. rewrite list_lookup_alter in Hl.
        destruct (decide (cur = i)) as [<-|Hne].
        + rewrite Hcur in Hl. simplify_eq/=. by exists vc.
        + by exists v'.
      - right. by rewrite length_alter in Hi. }
    assert (∀ v, vtxList g !! cur = Some v → v = vc) as Hcv by (intros; by simplify_eq).
    assert (∀ i v, vtxList g !! i = Some v → edge_count v (Z.of_nat len) = 0%nat) as Hz.
    { intros i v Hv. apply edge_count_0. intros He.
      destruct (Hval i v _ Hv He) as (j & Hj & Hlt). apply Nat2Z.inj in Hj. lia. }
    split.
    + intros i v' e Hv' He. rewrite Hlen.
      destruct (Hcase i v' Hv') as [(v & Hi & Hv & ->)|[-> Hed]].
      * case_decide; [apply elem_of_cons in He as [->|He]|].
        -- exists len. split; [done|lia].
        -- destruct (Hval i v e Hv He) as (j & ? & ?). exists j. split; [done|lia].
        -- destruct (Hval i v e Hv He) as (j & ? & ?). exists j. split; [done|lia].
      * rewrite Hed in He. apply list_elem_of_singleton in He as ->.
        exists cur. split; [done|lia].
    + intros a b va' vb' Ha' Hb'.
      destruct (Hcase a va' Ha') as [(va & Ha & Hva & ->)|[-> Hea]];
        destruct (Hcase b vb' Hb') as [(vb & Hb & Hvb & ->)|[-> Heb]].
      * repeat case_decide; rewrite ?edge_count_push; repeat case_decide;
          try lia; by apply Hsym.
      * unfold edge_count at 2. rewrite Heb. simpl.
        case_decide as Hca.
        -- subst a. rewrite edge_count_push, decide_True by done.
           rewrite (Hz cur va Hva). by destruct (Z.eq_dec _ _).
        -- rewrite (Hz a va Hva). destruct (Z.eq_dec _ _) as [Heq|]; [|done].
           apply Nat2Z.inj in Heq. done.
      * unfold edge_count at 1. rewrite Hea. simpl.
        case_decide as Hcb.
        -- subst b. rewrite edge_count_push, decide_True by done.
           rewrite (Hz cur vb Hvb). by destruct (Z.eq_dec _ _).
        -- rewrite (Hz b vb Hvb). destruct (Z.eq_dec _ _) as [Heq|]; [|done].
           apply Nat2Z.inj in Heq. done.
      * unfold edge_count. by rewrite Hea, Heb.
Qed.

Lemma settle_EdgesOk g cur c : EdgesOk g → EdgesOk (upd cur (set_color c) g).
Proof.
  intros [Hval Hsym].
  assert (∀ i v', vtxList (upd cur (set_color c) g) !! i = Some v' →
            ∃ v, vtxList g !! i = Some v ∧ edgeList v' = edgeList v) as Hback.
  { intros i v'. rewrite lookup_upd. destruct (vtxList g !! i) as [v|]; [|done].
    intros [= <-]. exists v. split; [done|]. by case_decide. }
  split.
  - intros i v' e (v & Hv & Hed)%Hback. rewrite Hed, length_upd. eauto.
  - intros a b va' vb' (va & Ha & Hea)%Hback (vb & Hb & Heb)%Hback.
    unfold edge_count. rewrite Hea, Heb. by apply Hsym.
Qed.

Lemma seed_EdgesOk startState g : EdgesOk (seed startState g).1.
Proof.
  rewrite seed_eq. split.
  - intros [|i] v e; intros; simplify_eq/=. by apply elem_of_nil in H0.
  - intros [|i] [|j] vi vj; intros; simplify_eq/=. done.
Qed.

Lemma fold_visit_Edges startState endState np cur curState ms :
  ∀ g q vc,
    (∀ m, m ∈ ms → m ∈ generated_moves np curState) →
    Inv startState np g (cur :: q) → NoGoal endState g →
    vtxList g !! cur = Some vc → state vc = curState →
    EdgesOk g →
    EdgesOk (foldl (fun s m => visit cur curState m.1 m.2 s) (g, q) ms).1.
Proof.
  induction ms as [|[d p] ms IH]; intros g q vc Hms HI HN Hcur Hst HE; simpl; [done|].
  subst curState.
  assert ((d, p) ∈ generated_moves np (state vc)) as Hdp.
  { apply Hms. apply list_elem_of_here. }
  pose proof (visit_EdgesOk _ _ g q cur vc (state vc) d p HI Hcur HE) as HE1.
  destruct (visit_Inv _ endState _ g q cur vc d p HI HN Hcur Hdp)
    as (HI1 & HN1 & He1 & _).
  destruct (visit cur (state vc) d p (g, q)) as [g1 q1]. simpl in *.
  destruct (He1 cur vc Hcur) as (vc1 & Hcur1 & Hsame).
  assert (state vc1 = state vc) as Hst1 by apply Hsame.
  apply (IH g1 q1 vc1); [|done..].
  intros m Hm. apply Hms. by apply list_elem_of_further.
Qed.

Lemma explore_Edges startState endState np g cur rest vc :
  Inv startState np g (cur :: rest) → NoGoal endState g →
  vtxList g !! cur = Some vc →
  EdgesOk g →
  EdgesOk (explore cur g rest).1.
Proof.
  intros HI HN Hcur HE. unfold explore.
  rewrite (deref_lookup g cur vc Hcur), neighbor_loops_moves, (inv_pegs _ _ _ _ HI).
  pose proof (fold_visit_Edges startState endState np cur (state vc)
                (generated_moves np (state vc)) g rest vc) as HE1.
  destruct (foldl _ _ _) as [g1 q1]. simpl in *.
  apply settle_EdgesOk. by apply HE1.
Qed.

Lemma bfs_loop_Edges startState endState np fuel :
  ∀ g q, Inv startState np g q → NoGoal endState g → EdgesOk g →
         EdgesOk (outcome_graph (bfs_loop endState fuel g q)).
Proof.
  induction fuel as [|fuel IH]; intros g [|cur rest] HI HN HE; simpl; try done.
  assert (is_Some (vtxList g !! cur)) as [vc Hcur].
  { apply lookup_lt_is_Some, (inv_greys _ _ _ _ HI), list_elem_of_here. }
  pose proof (explore_Edges _ _ _ g cur rest vc HI HN Hcur HE) as HE'.
  destruct (explore_Inv _ endState _ g cur rest vc HI HN Hcur)
    as (vc' & Hc' & Hst & Hd & HI' & HN' & _).
  destruct (explore cur g rest) as [g' q']. simpl in *.
  rewrite (deref_lookup g' cur vc' Hc').
  destruct (std_equal (state vc') endState) eqn:Hgoal; [done|].
  apply IH; [done| |done]. apply HN'. by rewrite <- Hst.
Qed.

Lemma BuildAndExplore_Edges fuel startState endState g0 :
  EdgesOk (outcome_graph (BuildAndExplore fuel startState endState g0)).
Proof.
  unfold BuildAndExplore.
  pose proof (Inv_seed startState (numPegs g0) g0 eq_refl) as HI.
  pose proof (NoGoal_seed startState endState g0) as HN.
  pose proof (seed_EdgesOk startState g0) as HE.
  destruct (seed startState g0) as [g1 q1]. by eapply bfs_loop_Edges.
Qed.

(** ** An edge is recorded at most twice *)

(** The moves generated from one state lead to different states. *)
Lemma generated_moves_NoDup np curState : NoDup (generated_moves np curState).
Proof.
  rewrite generated_moves_eq. apply NoDup_bind.
  - intros d1 d2 [d p] _ _ (p1 & [= -> ->] & _)%list_elem_of_fmap
      (p2 & [= -> _] & _)%list_elem_of_fmap. done.
  - intros d _. apply NoDup_fmap_2; [intros p1 p2; congruence|].
    apply NoDup_filter, NoDup_seqZ.
  - apply NoDup_filter, NoDup_seq.
Qed.

Lemma target_inj np curState m1 m2 :
  m1 ∈ generated_moves np curState → m2 ∈ generated_moves np curState →
  target curState m1 = target curState m2 → m1 = m2.
Proof.
  destruct m1 as [d1 p1], m2 as [d2 p2].
  intros (Hd1 & _ & _ & Hne1 & _)%elem_of_generated_moves
         (Hd2 & _ & _ & Hne2 & _)%elem_of_generated_moves Heq.
  unfold target in Heq. simpl in Heq.
  assert (<[d1 := p1]> curState !!! d1 = <[d2 := p2]> curState !!! d1) as H1
    by by rewrite Heq.
  rewrite list_lookup_total_insert_eq in H1 by done.
  destruct (decide (d1 = d2)) as [->|Hd].
  - rewrite list_lookup_total_insert_eq in H1 by done. by subst.
  - rewrite list_lookup_total_insert_ne in H1 by done. done.
Qed.

Lemma generated_targets_NoDup np curState :
  NoDup (target curState <$> generated_moves np curState).
Proof.
  apply NoDup_fmap_2_strong; [|apply generated_moves_NoDup].
  intros m1 m2. apply target_inj.
Qed.

Lemma EdgeBound_MidBound cur g : EdgeBound g → MidBound cur [] g.
Proof.
  intros HB i j vi vj Hi Hj. pose proof (HB i j vi vj Hi Hj).
  rewrite !decide_False; [lia| |]; intros [_ H']; by apply elem_of_nil in H'.
Qed.

Lemma settled_same v v' : same_but_edges v v' → settled v' = settled v.
Proof. intros (Hc & _). unfold settled. by rewrite Hc. Qed.

Lemma ind_step (X P Q : Prop) `{!Decision X, !Decision P, !Decision Q} :
  (X → ¬ P) → (X → Q) → (P → Q) →
  ((if decide X then 1 else 0) + (if decide P then 1 else 0)
   ≤ (if decide Q then 1 else 0))%nat.
Proof. intros HXP HXQ HPQ. repeat case_decide; try lia; tauto. Qed.

Lemma ind_mono (P Q : Prop) `{!Decision P, !Decision Q} :
  (P → Q) → ((if decide P then 1 else 0) ≤ (if decide Q then 1 else 0))%nat.
Proof. intros HPQ. repeat case_decide; try lia; tauto. Qed.

Lemma visit_MidBound startState np g q cur vc d p tgts :
  Inv startState np g (cur :: q) →
  EdgesOk g →
  vtxList g !! cur = Some vc →
  target (state vc) (d, p) ∉ tgts →
  MidBound cur tgts g →
  MidBound cur (tgts ++ [target (state vc) (d, p)])
           (visit cur (state vc) d p (g, q)).1.
Proof.
  intros HI [Hval _] Hcur Hnew HB. unfold target in *. simpl in *.
  set (t := <[d := p]> (state vc)) in *.
  assert (∀ i v, vtxList g !! i = Some v → color v ≠ kVertexColor_White) as Hnw.
  { intros i v Hl. rewrite (inv_color _ _ _ _ HI i v Hl). by case_decide. }
  assert (length t = length startState) as Hlen.
  { subst t. rewrite length_insert. by eapply inv_len. }
  assert (cur < length (vtxList g))%nat as Hclt by by eapply lookup_lt_Some.
  assert (∀ s : list Z, s ∈ tgts → s ∈ tgts ++ [t]) as Hmono.
  { intros s Hs. apply elem_of_app. by left. }
  assert (t ∈ tgts ++ [t]) as Hin.
  { apply elem_of_app. right. apply list_elem_of_here. }
  destruct (visit_spec g q cur vc (state vc) d p
              (inv_num _ _ _ _ HI) (inv_index _ _ _ _ HI) Hnw Hcur)
    as [(j & vj & Hj & Heq & _ & _ & _ & Hlook)|(_ & _ & _ & _ & HL)].
  - set (g' := (visit cur (state vc) d p (g, q)).1) in *.
    fold t in Heq. apply std_equal_eq in Heq; [|rewrite Hlen; by eapply inv_len].
    assert (∀ i v', vtxList g' !! i = Some v' →
                    ∃ v, vtxList g !! i = Some v ∧ v' = link cur j i v) as Hback.
    { intros i v'. rewrite Hlook. destruct (vtxList g !! i) as [v|]; [|done].
      intros [= <-]. eauto. }
    intros a b va' vb' (va & Ha & ->)%Hback (vb & Hb & ->)%Hback.
    rewrite edge_count_link.
    rewrite !(settled_same _ _ (same_but_edges_link _ _ _ _)).
    assert (state (link cur j b vb) = state vb) as -> by apply same_but_edges_link.
    assert (state (link cur j a va) = state va) as -> by apply same_but_edges_link.
    pose proof (HB a b va vb Ha Hb) as Hold.
    assert (j = b → state vb = t) as Hjb.
    { intros <-. rewrite Hj in Hb. by injection Hb as <-. }
    assert (j = a → state va = t) as Hja.
    { intros <-. rewrite Hj in Ha. by injection Ha as <-. }
    opose proof* (ind_step (cur = a ∧ j = b) (a = cur ∧ state vb ∈ tgts)
                    (a = cur ∧ state vb ∈ tgts ++ [t])) as H1.
    { intros [_ Hb'] [_ Hin']. rewrite (Hjb Hb') in Hin'. done. }
    { intros [Ha' Hb']. split; [done|]. by rewrite (Hjb Hb'). }
    { intros [Ha' Hin']. split; [done|]. by apply Hmono. }
    opose proof* (ind_step (j = a ∧ cur = b) (b = cur ∧ state va ∈ tgts)
                    (b = cur ∧ state va ∈ tgts ++ [t])) as H2.
    { intros [Ha' _] [_ Hin']. rewrite (Hja Ha') in Hin'. done. }
    { intros [Ha' Hb']. split; [done|]. by rewrite (Hja Ha'). }
    { intros [Hb' Hin']. split; [done|]. by apply Hmono. }
    lia.
  - set (g' := (visit cur (state vc) d p (g, q)).1) in *.
    set (len := length (vtxList g)) in *.
    set (fresh := fresh_vtx len cur (distance vc + 1) _ _) in HL.
    assert (state fresh = t) as Hfst by done.
    assert (settled fresh = 0%nat) as Hfse by done.
    assert (edgeList fresh = [Z.of_nat cur]) as Hfed by done.
    clearbody fresh.
    assert (∀ i v', vtxList g' !! i = Some v' →
              (∃ v, (i < len)%nat ∧ vtxList g !! i = Some v ∧
                    v' = if decide (cur = i) then push_edge (Z.of_nat len) v else v)
              ∨ (i = len ∧ v' = fresh)) as Hcase.
    { intros i v'. rewrite HL.
      intros [[Hi Hl]|[Hi <-]]%lookup_snoc_Some.
      - left. rewrite length_alter in Hi. rewrite list_lookup_alter in Hl.
        destruct (decide (cur = i)) as [<-|Hne].
        + rewrite Hcur in Hl. simplify_eq/=. by exists vc.
        + by exists v'.
      - right. by rewrite length_alter in Hi. }
    assert (∀ i v, vtxList g !! i = Some v → edge_count v (Z.of_nat len) = 0%nat) as Hz.
    { intros i v Hv. apply edge_count_0. intros He.
      destruct (Hval i v _ Hv He) as (j & Hj & Hlt). apply Nat2Z.inj in Hj. lia. }
    assert (∀ (x : nat) (v : Vertex),
              settled (if decide (cur = x) then push_edge (Z.of_nat len) v else v)
              = settled v) as Hse by (intros; by case_decide).
    assert (∀ (x : nat) (v : Vertex),
              state (if decide (cur = x) then push_edge (Z.of_nat len) v else v)
              = state v) as Hst by (intros; by case_decide).
    intros a b va' vb' Ha' Hb'.
    destruct (Hcase a va' Ha') as [(va & Ha & Hva & ->)|[-> ->]];
      destruct (Hcase b vb' Hb') as [(vb & Hb & Hvb & ->)|[-> ->]];
      rewrite ?Hse, ?Hst, ?Hfst, ?Hfse.
    + pose proof (HB a b va vb Hva Hvb) as Hold.
      assert (edge_count (if decide (cur = a) then push_edge (Z.of_nat len) va else va)
                         (Z.of_nat b) = edge_count va (Z.of_nat b)) as ->.
      { destruct (decide (cur = a)); [|done]. rewrite edge_count_push.
        rewrite decide_False; [done|]. intros Heq%Nat2Z.inj. lia. }
      opose proof* (ind_mono (a = cur ∧ state vb ∈ tgts)
                      (a = cur ∧ state vb ∈ tgts ++ [t])) as H1.
      { intros [? ?]. split; [done|]. by apply Hmono. }
      opose proof* (ind_mono (b = cur ∧ state va ∈ tgts)
                      (b = cur ∧ state va ∈ tgts ++ [t])) as H2.
      { intros [? ?]. split; [done|]. by apply Hmono. }
      lia.
    + assert (edge_count (if decide (cur = a) then push_edge (Z.of_nat len) va else va)
                         (Z.of_nat len)
              = if decide (cur = a) then 1%nat else 0%nat) as ->.
      { destruct (decide (cur = a)).
        - rewrite edge_count_push, decide_True by done. rewrite (Hz a va Hva). lia.
        - by apply (Hz a). }
      opose proof* (ind_mono (cur = a) (a = cur ∧ t ∈ tgts ++ [t])) as H1; [done|].
      lia.
    + unfold edge_count at 1. rewrite Hfed. simpl.
      opose proof* (ind_mono (cur = b) (b = cur ∧ t ∈ tgts ++ [t])) as H1; [done|].
      destruct (Z.eq_dec (Z.of_nat cur) (Z.of_nat b)) as [Heq%Nat2Z.inj|Hne]; [|lia].
      rewrite decide_True in H1 by done. lia.
    + unfold edge_count. rewrite Hfed. simpl.
      destruct (Z.eq_dec (Z.of_nat cur) (Z.of_nat len)) as [Heq%Nat2Z.inj|Hne]; lia.
Qed.

Lemma fold_visit_MidBound startState endState np cur curState todo :
  ∀ g q vc tgts,
    (∀ m, m ∈ todo → m ∈ generated_moves np curState) →
    NoDup (tgts ++ (target curState <$> todo)) →
    Inv startState np g (cur :: q) → NoGoal endState g → EdgesOk g →
    vtxList g !! cur = Some vc → state vc = curState →
    MidBound cur tgts g →
    MidBound cur (tgts ++ (target curState <$> todo))
             (foldl (fun s m => visit cur curState m.1 m.2 s) (g, q) todo).1.
Proof.
  induction todo as [|[d p] todo IH]; intros g q vc tgts Hms Hnd HI HN HE Hcur Hst HB.
  { rewrite fmap_nil, app_nil_r. done. }
  subst curState. rewrite fmap_cons in Hnd |- *. cbn [foldl fst snd].
  assert (tgts ++ target (state vc) (d, p) :: (target (state vc) <$> todo)
          = (tgts ++ [target (state vc) (d, p)]) ++ (target (state vc) <$> todo)) as Happ
    by by rewrite <- app_assoc.
  rewrite Happ in Hnd |- *.
  assert ((d, p) ∈ generated_moves np (state vc)) as Hdp.
  { apply Hms. apply list_elem_of_here. }
  assert (target (state vc) (d, p) ∉ tgts) as Hnew.
  { apply NoDup_app in Hnd as (Hnd' & _ & _).
    apply NoDup_app in Hnd' as (_ & Hdisj & _). intros Hin.
    apply (Hdisj _ Hin). apply list_elem_of_here. }
  pose proof (visit_MidBound _ _ g q cur vc d p tgts HI HE Hcur Hnew HB) as HB1.
  pose proof (visit_EdgesOk _ _ g q cur vc (state vc) d p HI Hcur HE) as HE1.
  destruct (visit_Inv _ endState _ g q cur vc d p HI HN Hcur Hdp)
    as (HI1 & HN1 & He1 & _).
  destruct (visit cur (state vc) d p (g, q)) as [g1 q1]. cbn [fst snd] in *.
  destruct (He1 cur vc Hcur) as (vc1 & Hcur1 & Hsame).
  assert (state vc1 = state vc) as Hst1 by apply Hsame.
  apply (IH g1 q1 vc1 (tgts ++ [target (state vc) (d, p)])); [|done..].
  intros m Hm. apply Hms. by apply list_elem_of_further.
Qed.

Lemma settle_EdgeBound cur tgts g vc :
  vtxList g !! cur = Some vc → settled vc = 0%nat →
  MidBound cur tgts g →
  EdgeBound (upd cur (set_color kVertexColor_Black) g).
Proof.
  intros Hcur Hgrey HB a b va' vb'. rewrite !lookup_upd.
  destruct (vtxList g !! a) as [va|] eqn:Ha; [|done].
  destruct (vtxList g !! b) as [vb|] eqn:Hb; [|done].
  simpl. intros [= <-] [= <-].
  pose proof (HB a b va vb Ha Hb) as Hold.
  assert (∀ x v, edge_count (if decide (cur = x)
                             then set_color kVertexColor_Black v else v) (Z.of_nat b)
                 = edge_count v (Z.of_nat b)) as Hec.
  { intros x v. by destruct (decide (cur = x)). }
  rewrite Hec.
  assert (∀ x v, vtxList g !! x = Some v →
                 (settled v + (if decide (x = cur) then 1 else 0)
                  ≤ settled (if decide (cur = x)
                             then set_color kVertexColor_Black v else v))%nat) as Hs.
  { intros x v Hx. destruct (decide (cur = x)) as [<-|Hne].
    - rewrite Hcur in Hx. injection Hx as <-. rewrite Hgrey, decide_True by done. done.
    - rewrite decide_False by done. lia. }
  pose proof (Hs a va Ha). pose proof (Hs b vb Hb).
  repeat case_decide; try lia; exfalso; tauto.
Qed.

Lemma explore_EdgeBound startState endState np g cur rest vc :
  Inv startState np g (cur :: rest) → NoGoal endState g → EdgesOk g →
  vtxList g !! cur = Some vc →
  EdgeBound g →
  EdgeBound (explore cur g rest).1.
Proof.
  intros HI HN HE Hcur HB. unfold explore.
  rewrite (deref_lookup g cur vc Hcur), neighbor_loops_moves, (inv_pegs _ _ _ _ HI).
  pose proof (fold_visit_MidBound startState endState np cur (state vc)
                (generated_moves np (state vc)) g rest vc []) as HB1.
  destruct (fold_visit_Inv startState endState np cur (state vc)
              (generated_moves np (state vc)) g rest vc)
    as (HI1 & _ & He1 & _); [done..|].
  destruct (foldl _ _ _) as [g1 q1]. simpl in *.
  destruct (He1 cur vc Hcur) as (vc1 & Hcur1 & Hsame).
  eapply (settle_EdgeBound cur _ g1 vc1); [done| |].
  - unfold settled. rewrite (inv_color _ _ _ _ HI1 cur vc1 Hcur1).
    destruct (decide (cur ∈ cur :: q1)) as [_|Hn]; [done|].
    destruct Hn. apply list_elem_of_here.
  - apply HB1; try done.
    + apply generated_targets_NoDup.
    + by apply EdgeBound_MidBound.
Qed.

Lemma bfs_loop_EdgeBound startState endState np fuel :
  ∀ g q, Inv startState np g q → NoGoal endState g → EdgesOk g → EdgeBound g →
         EdgeBound (outcome_graph (bfs_loop endState fuel g q)).
Proof.
  induction fuel as [|fuel IH]; intros g [|cur rest] HI HN HE HB; simpl; try done.
  assert (is_Some (vtxList g !! cur)) as [vc Hcur].
  { apply lookup_lt_is_Some, (inv_greys _ _ _ _ HI), list_elem_of_here. }
  pose proof (explore_Edges _ _ _ g cur rest vc HI HN Hcur HE) as HE'.
  pose proof (explore_EdgeBound _ _ _ g cur rest vc HI HN HE Hcur HB) as HB'.
  destruct (explore_Inv _ endState _ g cur rest vc HI HN Hcur)
    as (vc' & Hc' & Hst & Hd & HI' & HN' & _).
  destruct (explore cur g rest) as [g' q']. simpl in *.
  rewrite (deref_lookup g' cur vc' Hc').
  destruct (std_equal (state vc') endState) eqn:Hgoal; [done|].
  apply IH; [done| |done|done]. apply HN'. by rewrite <- Hst.
Qed.

Lemma BuildAndExplore_EdgeBound fuel startState endState g0 :
  EdgeBound (outcome_graph (BuildAndExplore fuel startState endState g0)).
Proof.
  unfold BuildAndExplore.
  pose proof (Inv_seed startState (numPegs g0) g0 eq_refl) as HI.
  pose proof (NoGoal_seed startState endState g0) as HN.
  pose proof (seed_EdgesOk startState g0) as HE.
  assert (EdgeBound (seed startState g0).1) as HB.
  { rewrite seed_eq. intros [|i] [|j] vi vj; intros; simplify_eq/=.
    unfold edge_count, settled. simpl. lia. }
  destruct (seed startState g0) as [g1 q1]. by eapply bfs_loop_EdgeBound.
Qed.

Lemma settled_le_1 v : (settled v ≤ 1)%nat.
Proof. unfold settled. case_decide; lia. Qed.

(** ** The steps of a search *)

(** The steps of a run. *)
Lemma fold_visit_steps cur curState ms :
  ∀ g q, rtc step g (foldl (fun s m => visit cur curState m.1 m.2 s) (g, q) ms).1.
Proof.
  induction ms as [|[d p] ms IH]; intros g q; simpl; [done|].
  eapply rtc_l; [apply (step_visit cur curState d p q g)|].
  destruct (visit cur curState d p (g, q)) as [g1 q1]. apply IH.
Qed.

Lemma explore_steps cur g rest : rtc step g (explore cur g rest).1.
Proof.
  unfold explore. rewrite neighbor_loops_moves.
  pose proof (fold_visit_steps cur (state (deref g cur))
                (generated_moves (numPegs g) (state (deref g cur))) g rest) as H.
  destruct (foldl _ _ _) as [g1 q1]. simpl in *.
  eapply rtc_r; [exact H|apply step_settle].
Qed.

Lemma bfs_loop_steps endState fuel :
  ∀ g q, rtc step g (outcome_graph (bfs_loop endState fuel g q)).
Proof.
  induction fuel as [|fuel IH]; intros g [|cur rest]; simpl; try done.
  pose proof (explore_steps cur g rest) as H.
  destruct (explore cur g rest) as [g' q']. simpl in *.
  case_match; [done|]. etrans; [exact H|apply IH].
Qed.

Lemma BuildAndExplore_steps fuel startState endState g0 :
  rtc step (Cleanup g0) (outcome_graph (BuildAndExplore fuel startState endState g0)).
Proof.
  unfold BuildAndExplore. pose proof (step_seed startState g0) as H.
  destruct (seed startState g0) as [g1 q1]. simpl in H.
  eapply rtc_l; [exact H|apply bfs_loop_steps].
Qed.

(** ** The order in which neighbours are generated *)

Lemma StronglySorted_filter {A} (R : relation A) (P : A → Prop)
    `{!∀ x, Decision (P x)} (l : list A) :
  StronglySorted R l → StronglySorted R (filter P l).
Proof.
  induction 1 as [|x l Hl IH Hx]; [constructor|].
  rewrite filter_cons. case_decide; [|done]. constructor; [done|].
  apply Forall_forall. intros y [_ Hy]%list_elem_of_filter.
  by apply (proj1 (Forall_forall _ _) Hx).
Qed.

Lemma seq_sorted j n : StronglySorted lt (seq j n).
Proof.
  revert j. induction n as [|n IH]; intros j; simpl; constructor; [apply IH|].
  apply Forall_forall. intros k Hk%elem_of_seq. lia.
Qed.

Lemma seqZ_sorted m n : StronglySorted Z.lt (seqZ m n).
Proof.
  unfold seqZ. apply (StronglySorted_fmap _ lt Z.lt); [|apply seq_sorted].
  intros i j Hij. lia.
Qed.

Lemma generated_moves_sorted np curState :
  StronglySorted move_lt (generated_moves np curState).
Proof.
  rewrite generated_moves_eq.
  assert (StronglySorted lt (movable_disks curState)) as Hs.
  { apply StronglySorted_filter, seq_sorted. }
  induction Hs as [|d l Hl IH Hd]; [constructor|].
  change (StronglySorted move_lt
            ((pair d <$> free_pegs np curState d)
             ++ (d' ← l; pair d' <$> free_pegs np curState d'))).
  apply StronglySorted_app_2; [| |exact IH].
  - intros m1 m2 (p1 & -> & _)%list_elem_of_fmap
      (d2 & (p2 & -> & _)%list_elem_of_fmap & Hd2)%list_elem_of_bind.
    left. simpl. by apply (proj1 (Forall_forall _ _) Hd).
  - apply (StronglySorted_fmap _ Z.lt move_lt).
    + intros p1 p2 Hp. right. done.
    + apply StronglySorted_filter, seqZ_sorted.
Qed.

(** ** Fuel

    Fuel only bounds how many turns of the loop may run: once a run ends
    with some fuel, it ends the same way with more. *)
Lemma bfs_loop_more_fuel endState fuel k :
  ∀ g q,
    (∀ g' q', bfs_loop endState fuel g q ≠ OutOfFuel g' q') →
    bfs_loop endState (fuel + k) g q = bfs_loop endState fuel g q.
Proof.
  induction fuel as [|fuel IH]; intros g [|cur rest] Hno; simpl in *.
  - by destruct k.
  - by destruct (Hno g (cur :: rest)).
  - done.
  - destruct (explore cur g rest) as [g' q']. case_match; [done|]. by apply IH.
Qed.

Lemma BuildAndExplore_fuel fuel1 fuel2 startState endState g0 :
  (∀ g q, BuildAndExplore fuel1 startState endState g0 ≠ OutOfFuel g q) →
  (∀ g q, BuildAndExplore fuel2 startState endState g0 ≠ OutOfFuel g q) →
  BuildAndExplore fuel1 startState endState g0
  = BuildAndExplore fuel2 startState endState g0.
Proof.
  unfold BuildAndExplore. destruct (seed startState g0) as [g1 q1]. intros H1 H2.
  destruct (decide (fuel1 ≤ fuel2)%nat).
  - replace fuel2 with (fuel1 + (fuel2 - fuel1))%nat by lia.
    symmetry. by apply bfs_loop_more_fuel.
  - replace fuel1 with (fuel2 + (fuel1 - fuel2))%nat by lia.
    by apply bfs_loop_more_fuel.
Qed.

(** ** The driver *)

Lemma solve_Returned fuel nd np startState endState D g :
  length startState = length endState →
  BuildAndExplore fuel startState endState (Graph_new nd np) = Returned D g →
  ∃ forwardList,
    solve fuel nd np startState endState
    = Exit (LineNumMoves D :: LineCount D ::
            map (fun p => LineMove (lastMove (deref g p)).1 (lastMove (deref g p)).2)
                forwardList)
    ∧ length forwardList = Z.to_nat D
    ∧ 0 ≤ D
    ∧ replay np startState ((fun p => lastMove (deref g p)) <$> forwardList)
      = Some endState.
Proof.
  intros Hlen Hrun.
  destruct (walk_back fuel startState endState _ D g Hlen Hrun)
    as (goalVtx & fwd & HG & _ & HD & Hc & Hfl & _ & _ & Hr).
  exists fwd. unfold solve. rewrite Hrun, HG, Hc. done.
Qed.

Lemma BuildAndExplore_same fuel A g0 :
  ∃ g, BuildAndExplore (S fuel) A A g0 = Returned 0 g.
Proof.
  unfold BuildAndExplore.
  pose proof (Inv_seed A (numPegs g0) g0 eq_refl) as HI.
  pose proof (NoGoal_seed A A g0) as HN.
  rewrite seed_eq in *. simpl in HI, HN. simpl.
  set (g1 := mkGraph _ _ _ _) in *.
  destruct (explore_Inv A A (numPegs g0) g1 0%nat []
              (mkVertex kVertexColor_Grey 0 0 [] A None (0, 0)) HI HN eq_refl)
    as (vc' & Hc' & Hst & Hd & _).
  destruct (explore 0 g1 []) as [g' q']. simpl in *.
  rewrite (deref_lookup g' 0%nat vc' Hc'), Hst, std_equal_refl, Hd. eauto.
Qed.

Lemma read_state_length count :
  ∀ stdin st rest, read_state count stdin = Some (st, rest) → length st = count.
Proof.
  induction count as [|count IH]; intros stdin st rest H; simpl in H.
  - by simplify_eq.
  - destruct (GetNextInt stdin) as [[v r1]|]; simpl in H; [|done].
    case_bool_decide; [done|].
    destruct (read_state count r1) as [[st' r2]|] eqn:Hr; simpl in H; [|done].
    simplify_eq. simpl. f_equal. by eapply IH.
Qed.

Lemma read_input_lengths stdin nd np st en :
  read_input stdin = Some (nd, np, st, en) →
  length st = Z.to_nat nd ∧ length en = Z.to_nat nd.
Proof.
  unfold read_input. intros H.
  destruct (GetNextInt stdin) as [[nd' in1]|]; simpl in H; [|done].
  destruct (GetNextInt in1) as [[np' in2]|]; simpl in H; [|done].
  destruct (read_state (Z.to_nat nd') in2) as [[st' in3]|] eqn:H1; simpl in H; [|done].
  destruct (read_state (Z.to_nat nd') in3) as [[en' in4]|] eqn:H2; simpl in H; [|done].
  simplify_eq. split; by eapply read_state_length.
Qed.

(** With three pegs or more and configurations in range, some fuel is
    enough for the search to return. *)
Lemma BuildAndExplore_returns startState endState g0 :
  3 ≤ numPegs g0 →
  length startState = length endState →
  in_range (numPegs g0) startState → in_range (numPegs g0) endState →
  ∃ fuel d g, BuildAndExplore fuel startState endState g0 = Returned d g ∧ 0 ≤ d.
Proof.
  intros Hnp Hlen Hs He.
  set (np := numPegs g0) in *.
  set (fuel := S (length (all_cfgs (length startState) np))).
  pose proof (BuildAndExplore_Inv startState endState np fuel g0 eq_refl) as HI.
  destruct (BuildAndExplore fuel startState endState g0) as [d g|g|g q] eqn:Hrun.
  - destruct HI as (q' & cur & v & HI & Hl & _ & ->).
    exists fuel, (distance v), g. split; [done|]. by eapply inv_dist.
  - by destruct (no_fall_through fuel startState endState g0 g).
  - exfalso. revert Hrun. unfold BuildAndExplore.
    pose proof (Inv_seed startState np g0 eq_refl) as HI0.
    pose proof (NoGoal_seed startState endState g0) as HN0.
    rewrite seed_eq in *. simpl in HI0, HN0.
    apply (bfs_loop_fuel startState endState np fuel Hs _ _ 0%nat HI0 HN0); simpl;
      [done|subst fuel; lia].
Qed.

Lemma solve_returns nd np startState endState :
  3 ≤ np →
  length startState = length endState →
  in_range np startState → in_range np endState →
  ∃ fuel out, solve fuel nd np startState endState = Exit out.
Proof.
  intros Hnp Hlen Hs He.
  destruct (BuildAndExplore_returns startState endState (Graph_new nd np))
    as (fuel & D & g & Hrun & _); [done..|].
  destruct (solve_Returned fuel nd np startState endState D g Hlen Hrun)
    as (fwd & Hsol & _).
  eauto.
Qed.

(** * Further properties of the search *)

(** ** Replayed moves are generated moves *)

Lemma top_disk_Some st peg k r :
  top_disk st peg k = Some r →
  ∃ d, r = (k + d)%nat ∧ (d < length st)%nat ∧ st !!! d = peg
       ∧ ∀ i, (i < d)%nat → st !!! i ≠ peg.
Proof.
  revert k. induction st as [|x st IH]; intros k H; simpl in H; [done|].
  case_decide as Hx.
  - injection H as <-. exists 0%nat. simpl. split; [lia|]. split; [lia|].
    split; [done|]. intros i Hi. lia.
  - apply IH in H as (d & -> & Hd & Hp & Hlt). exists (S d). simpl.
    split; [lia|]. split; [lia|]. split; [done|].
    intros [|i] Hi; simpl; [done|]. apply Hlt. lia.
Qed.

Lemma apply_move_neighbor np st mv st' :
  apply_move np st mv = Some st' → neighbor np st st'.
Proof.
  unfold apply_move. intros H.
  destruct (top_disk st (mv.1 - 1) 0) as [r|] eqn:Ht; simpl in H; [|done].
  apply top_disk_Some in Ht as (d & -> & Hd & Hp & Hlt). simpl in H.
  destruct (bool_decide _) eqn:Hb; simpl in H; [|done].
  destruct (PegHasSmallerDisk st d (mv.2 - 1)) eqn:Hs; simpl in H; [done|].
  injection H as <-. apply bool_decide_eq_true in Hb as [Hr Hne].
  exists d, (mv.2 - 1). split; [|done].
  apply elem_of_generated_moves. unfold DiskNotSmallestOnPeg. rewrite Hp.
  split; [done|]. split; [done|]. split; [by apply PegHasSmallerDisk_false|].
  split; [done|done].
Qed.

Lemma replay_nsteps np ms :
  ∀ st st', replay np st ms = Some st' → nsteps (neighbor np) (length ms) st st'.
Proof.
  induction ms as [|m ms IH]; intros st st' H; simpl in H.
  - injection H as <-. constructor.
  - destruct (apply_move np st m) as [st1|] eqn:Hm; simpl in H; [|done].
    simpl. eapply nsteps_l; [by eapply apply_move_neighbor|]. by apply IH.
Qed.

(** ** The order of discovery *)

Lemma Layered_frame np g g' greys :
  Layered np g greys →
  Forall2 same_but_edges (vtxList g) (vtxList g') →
  Layered np g' greys.
Proof.
  intros [H1 H2 H3 H4 H5] HF.
  assert (∀ i v', vtxList g' !! i = Some v' →
            ∃ v, vtxList g !! i = Some v ∧ color v' = color v
                 ∧ distance v' = distance v ∧ state v' = state v) as Hback.
  { intros i v' Hl. destruct (Forall2_lookup_r _ _ _ _ _ HF Hl) as (v & Hv & Hs).
    exists v. destruct Hs as (? & _ & ? & ? & _). done. }
  split.
  - intros a b i j vi' vj' Hab Ha Hb (vi & Hi & _ & -> & _)%Hback
      (vj & Hj & _ & -> & _)%Hback. eauto.
  - intros h vh' i v' Hh (vh & Hvh & _ & -> & _)%Hback (v & Hv & _ & -> & _)%Hback.
    eauto.
  - intros i j vi' vj' (vi & Hi & -> & -> & _)%Hback (vj & Hj & -> & -> & _)%Hback.
    eauto.
  - intros i j vi' vj' d p (vi & Hi & -> & -> & ->)%Hback
      (vj & Hj & _ & -> & ->)%Hback. eauto.
  - intros i j vi' vj' Hij (vi & Hi & _ & -> & _)%Hback (vj & Hj & _ & -> & _)%Hback.
    eauto.
Qed.

Lemma Inv_grey_elem startState np g greys i v :
  Inv startState np g greys → vtxList g !! i = Some v →
  color v = kVertexColor_Grey → i ∈ greys.
Proof.
  intros HI Hl Hc. rewrite (inv_color _ _ _ _ HI i v Hl) in Hc. by case_decide.
Qed.

Lemma Inv_elem_grey startState np g greys i v :
  Inv startState np g greys → vtxList g !! i = Some v →
  i ∈ greys → color v = kVertexColor_Grey.
Proof.
  intros HI Hl Hc. rewrite (inv_color _ _ _ _ HI i v Hl). by rewrite decide_True.
Qed.

Lemma Layered_push startState np g g' cur q vc st mv :
  Inv startState np g (cur :: q) →
  Layered np g (cur :: q) →
  vtxList g !! cur = Some vc →
  (∀ i v, vtxList g !! i = Some v → state v ≠ st) →
  vtxList g'
  = vtxList g ++ [fresh_vtx (length (vtxList g)) cur (distance vc + 1) st mv] →
  Layered np g' ((cur :: q) ++ [length (vtxList g)]).
Proof.
  intros HI [H1 H2 H3 H4 H5] Hcur Hnew HL.
  set (len := length (vtxList g)) in *.
  set (fresh := fresh_vtx len cur (distance vc + 1) st mv) in *.
  assert (∀ i v', vtxList g' !! i = Some v' →
            ((i < len)%nat ∧ vtxList g !! i = Some v') ∨ (i = len ∧ v' = fresh))
    as Hcase.
  { intros i v'. rewrite HL. intros [H|[Ha Hb]]%lookup_snoc_Some; [by left|by right]. }
  assert (∀ a i, ((cur :: q) ++ [len]) !! a = Some i →
            ((cur :: q) !! a = Some i ∧ (i < len)%nat)
            ∨ (a = length (cur :: q) ∧ i = len)) as Hq.
  { intros a i [[Ha Hqa]|[Ha Hb]]%lookup_snoc_Some; [left|by right].
    split; [done|]. apply (inv_greys _ _ _ _ HI). by eapply list_elem_of_lookup_2. }
  assert (∀ i v, vtxList g !! i = Some v → distance v ≤ distance vc + 1) as Hle.
  { intros i v Hv. by apply (H2 cur vc i v). }
  assert (color vc = kVertexColor_Grey) as Hgc.
  { eapply Inv_elem_grey; [done..|apply list_elem_of_here]. }
  split.
  - intros a b i j vi vj Hab Hqa Hqb Hvi Hvj.
    apply Hq in Hqa as [[Ha Hi]|[-> ->]]; apply Hq in Hqb as [[Hb Hj]|[-> ->]];
      apply Hcase in Hvi as [[Hx Hvi]|[Hx ->]];
      apply Hcase in Hvj as [[Hy Hvj]|[Hy ->]]; try lia.
    + eauto.
    + simpl. eauto.
    + apply lookup_lt_Some in Hb. lia.
  - intros h vh i v Hh [[_ Hvh]|[Hx ->]]%Hcase Hv; simpl in Hh.
    + injection Hh as <-. rewrite Hcur in Hvh. injection Hvh as <-.
      apply Hcase in Hv as [[_ Hv]|[_ ->]]; [eauto|done].
    + injection Hh as <-. apply lookup_lt_Some in Hcur. lia.
  - intros i j vi vj [[_ Hvi]|[_ ->]]%Hcase [[_ Hvj]|[_ ->]]%Hcase Hbi Hgj; try done.
    + eauto.
    + simpl. pose proof (H3 i cur vi vc Hvi Hcur Hbi Hgc). lia.
  - intros i j vi vj d p [[_ Hvi]|[_ ->]]%Hcase [[_ Hvj]|[_ ->]]%Hcase Hbi Hm Hst;
      try done.
    + eauto.
    + simpl in Hst.
      destruct (inv_closed _ _ _ _ HI i vi Hvi Hbi d p Hm) as (k & u & Hu & Hsu).
      destruct (Hnew k u Hu). congruence.
  - intros i j vi vj Hij [[Hx Hvi]|[Hx ->]]%Hcase [[Hy Hvj]|[Hy ->]]%Hcase; try lia.
    + eauto.
    + simpl. eauto.
Qed.

Lemma Layered_settle startState np g cur q vc :
  Inv startState np g (cur :: q) →
  Layered np g (cur :: q) →
  vtxList g !! cur = Some vc →
  Layered np (upd cur (set_color kVertexColor_Black) g) q.
Proof.
  intros HI [H1 H2 H3 H4 H5] Hcur.
  set (g' := upd cur (set_color kVertexColor_Black) g).
  assert (∀ i v', vtxList g' !! i = Some v' →
            ∃ v, vtxList g !! i = Some v ∧ distance v' = distance v
                 ∧ state v' = state v
                 ∧ (color v' = kVertexColor_Grey → color v = kVertexColor_Grey)
                 ∧ (color v' = kVertexColor_Black →
                    i = cur ∨ color v = kVertexColor_Black)) as Hback.
  { intros i v'. subst g'. rewrite lookup_upd.
    destruct (vtxList g !! i) as [v|]; [|done]. intros [= <-]. exists v.
    destruct (decide (cur = i)) as [->|]; simpl.
    - split; [done|]. split; [done|]. split; [done|]. split; [done|]. by left.
    - split; [done|]. split; [done|]. split; [done|]. split; [done|]. by right. }
  split.
  - intros a b i j vi' vj' Hab Ha Hb (vi & Hi & -> & _)%Hback (vj & Hj & -> & _)%Hback.
    apply (H1 (S a) (S b) i j vi vj); [lia|done..].
  - intros h vh' i v' Hh (vh & Hvh & -> & _)%Hback (v & Hv & -> & _)%Hback.
    pose proof (H2 cur vc i v eq_refl Hcur Hv) as Hup.
    assert (distance vc ≤ distance vh)
      by (apply (H1 0%nat 1%nat cur h vc vh); [lia|done..]).
    lia.
  - intros i j vi' vj' (vi & Hi & -> & _ & _ & Hbi)%Hback
      (vj & Hj & -> & _ & Hgj & _)%Hback Hb Hg.
    specialize (Hgj Hg). destruct (Hbi Hb) as [->|Hbi']; [|eauto].
    rewrite Hcur in Hi. injection Hi as <-.
    pose proof (Inv_grey_elem _ _ _ _ j vj HI Hj Hgj) as Hin.
    apply list_elem_of_lookup in Hin as (b & Hb').
    apply (H1 0%nat b cur j vc vj); [lia|done..].
  - intros i j vi' vj' d p (vi & Hi & -> & Hsi & _ & Hbi)%Hback
      (vj & Hj & -> & Hsj & _)%Hback Hb Hm Hst.
    rewrite Hsi in Hm, Hst. rewrite Hsj in Hst.
    destruct (Hbi Hb) as [->|Hbi']; [|eauto].
    rewrite Hcur in Hi. injection Hi as <-.
    by apply (H2 cur vc j vj).
  - intros i j vi' vj' Hij (vi & Hi & -> & _)%Hback (vj & Hj & -> & _)%Hback. eauto.
Qed.

Lemma Layered_seed np startState g : Layered np (seed startState g).1 (seed startState g).2.
Proof.
  rewrite seed_eq. simpl. split.
  - intros a b [|i] [|j] vi vj _ Ha Hb; intros; simplify_eq/=; lia.
  - intros [|h] vh [|i] v; intros; simplify_eq/=; lia.
  - intros [|i] [|j] vi vj; intros; simplify_eq/=.
  - intros [|i] [|j] vi vj d p; intros; simplify_eq/=.
  - intros [|i] [|j] vi vj; intros; simplify_eq/=; lia.
Qed.

Section shortest.
Context (startState endState : list Z) (np : Z).

Lemma visit_Layered g q cur vc d p :
  Inv startState np g (cur :: q) → Layered np g (cur :: q) →
  vtxList g !! cur = Some vc →
  (d, p) ∈ generated_moves np (state vc) →
  let s' := visit cur (state vc) d p (g, q) in
  Layered np s'.1 (cur :: s'.2).
Proof.
  intros HI HLy Hcur Hm s'.
  assert (∀ i v, vtxList g !! i = Some v → color v ≠ kVertexColor_White) as Hnw.
  { intros i v Hl. rewrite (inv_color _ _ _ _ HI i v Hl). by case_decide. }
  destruct (visit_spec g q cur vc (state vc) d p
              (inv_num _ _ _ _ HI) (inv_index _ _ _ _ HI) Hnw Hcur)
    as [(j & vj & Hj & Heq & Hq & Hn & Hp & Hlook)|(Hno & Hq & Hn & Hp & HL)].
  - fold s' in Hq, Hn, Hp, Hlook.
    assert (Forall2 same_but_edges (vtxList g) (vtxList s'.1)) as HF.
    { apply (Forall2_pointwise _ _ (link cur j)); [done|].
      intros. apply same_but_edges_link. }
    rewrite Hq. by eapply Layered_frame.
  - fold s' in Hq, Hn, Hp, HL.
    set (len := length (vtxList g)) in *.
    set (ga := mkGraph (numDisks g) (numPegs g) (numVertices g)
                       (alter (push_edge (Z.of_nat len)) cur (vtxList g))).
    assert (Forall2 same_but_edges (vtxList g) (vtxList ga)) as HF.
    { apply (Forall2_pointwise _ _
               (fun i v => if decide (cur = i) then push_edge (Z.of_nat len) v else v)).
      - intros i. simpl. rewrite list_lookup_alter. case_decide; [by subst|].
        by destruct (vtxList g !! i).
      - intros i v. case_decide; [apply same_but_edges_push|apply same_but_edges_refl]. }
    assert (Inv startState np ga (cur :: q)) as HIa by by eapply Inv_frame.
    assert (Layered np ga (cur :: q)) as HLa by by eapply Layered_frame.
    assert (length (vtxList ga) = len) as Hla by (simpl; by rewrite length_alter).
    assert (vtxList ga !! cur = Some (push_edge (Z.of_nat len) vc)) as Hca.
    { simpl. by rewrite list_lookup_alter_eq, Hcur. }
    rewrite Hq, <- Hla. rewrite app_comm_cons.
    apply (Layered_push startState np ga s'.1 cur q (push_edge (Z.of_nat len) vc)
             (<[d := p]> (state vc)) (state vc !!! d + 1, p + 1)); [done|done|done| |].
    + intros i v' Hl Hst.
      destruct (Forall2_lookup_r _ _ _ _ _ HF Hl) as (v & Hv & Hs).
      destruct Hs as (_ & _ & _ & Hsv & _).
      pose proof (Hno i v Hv) as Hf. rewrite <- Hsv, Hst, std_equal_refl in Hf. done.
    + rewrite HL, Hla. done.
Qed.

Lemma fold_visit_Layered cur curState ms :
  ∀ g q vc,
    (∀ m, m ∈ ms → m ∈ generated_moves np curState) →
    Inv startState np g (cur :: q) → NoGoal endState g → Layered np g (cur :: q) →
    vtxList g !! cur = Some vc → state vc = curState →
    let s' := foldl (fun s m => visit cur curState m.1 m.2 s) (g, q) ms in
    Layered np s'.1 (cur :: s'.2).
Proof.
  induction ms as [|[d p] ms IH]; intros g q vc Hms HI HN HLy Hcur Hst; simpl.
  - done.
  - subst curState.
    assert ((d, p) ∈ generated_moves np (state vc)) as Hdp.
    { apply Hms. apply list_elem_of_here. }
    destruct (visit_Inv startState endState np g q cur vc d p HI HN Hcur Hdp)
      as (HI1 & HN1 & He1 & Hs1 & Hl1).
    pose proof (visit_Layered g q cur vc d p HI HLy Hcur Hdp) as HL1.
    destruct (visit cur (state vc) d p (g, q)) as [g1 q1] eqn:Hv. simpl in *.
    destruct (He1 cur vc Hcur) as (vc1 & Hcur1 & Hsame).
    assert (state vc1 = state vc) as Hst1 by apply Hsame.
    apply (IH g1 q1 vc1); try done.
    intros m Hm. apply Hms. by apply list_elem_of_further.
Qed.

Lemma explore_Layered g cur rest vc :
  Inv startState np g (cur :: rest) → NoGoal endState g →
  Layered np g (cur :: rest) →
  vtxList g !! cur = Some vc →
  let s' := explore cur g rest in
  Layered np s'.1 s'.2
  ∧ ∃ vc', vtxList s'.1 !! cur = Some vc' ∧ color vc' = kVertexColor_Black.
Proof.
  intros HI HN HLy Hcur. unfold explore.
  rewrite (deref_lookup g cur vc Hcur), neighbor_loops_moves, (inv_pegs _ _ _ _ HI).
  destruct (fold_visit_Inv startState endState np cur (state vc)
              (generated_moves np (state vc)) g rest vc)
    as (HI1 & HN1 & He1 & Hs1 & Hl1); [done..|].
  pose proof (fold_visit_Layered cur (state vc) (generated_moves np (state vc))
                g rest vc) as HL1.
  destruct (foldl _ _ _) as [g1 q1]. simpl in *.
  destruct (He1 cur vc Hcur) as (vc1 & Hcur1 & Hsame).
  split.
  - apply (Layered_settle startState np g1 cur q1 vc1); [done| |done].
    by apply HL1.
  - exists (set_color kVertexColor_Black vc1).
    rewrite list_lookup_alter_eq, Hcur1. done.
Qed.

Lemma bfs_loop_Layered fuel :
  ∀ g q d g', Inv startState np g q → NoGoal endState g → Layered np g q →
    bfs_loop endState fuel g q = Returned d g' →
    ∃ q' cur v, Inv startState np g' q' ∧ Layered np g' q'
                ∧ vtxList g' !! cur = Some v ∧ color v = kVertexColor_Black
                ∧ std_equal (state v) endState = true ∧ d = distance v.
Proof.
  induction fuel as [|fuel IH]; intros g [|cur rest] d g' HI HN HLy H;
    simpl in H; try done.
  assert (is_Some (vtxList g !! cur)) as [vc Hcur].
  { apply lookup_lt_is_Some, (inv_greys _ _ _ _ HI), list_elem_of_here. }
  destruct (explore_Inv startState endState np g cur rest vc HI HN Hcur)
    as (vc' & Hc' & Hst & Hd & HI' & HN' & _).
  destruct (explore_Layered g cur rest vc HI HN HLy Hcur) as (HL' & vb & Hvb & Hcb).
  destruct (explore cur g rest) as [g1 q1]. simpl in *.
  rewrite (deref_lookup g1 cur vc' Hc') in H.
  rewrite Hvb in Hc'. injection Hc' as ->.
  destruct (std_equal (state vc') endState) eqn:He.
  - injection H as <- <-. exists q1, cur, vc'. done.
  - apply (IH g1 q1); try done. apply HN'. by rewrite <- Hst.
Qed.

Lemma BuildAndExplore_Layered fuel g0 d g' :
  numPegs g0 = np →
  BuildAndExplore fuel startState endState g0 = Returned d g' →
  ∃ q' cur v, Inv startState np g' q' ∧ Layered np g' q'
              ∧ vtxList g' !! cur = Some v ∧ color v = kVertexColor_Black
              ∧ std_equal (state v) endState = true ∧ d = distance v.
Proof.
  intros Hnp H. unfold BuildAndExplore in H.
  pose proof (Inv_seed startState np g0 Hnp) as HI.
  pose proof (NoGoal_seed startState endState g0) as HN.
  pose proof (Layered_seed np startState g0) as HL.
  destruct (seed startState g0) as [g1 q1]. simpl in *.
  by apply (bfs_loop_Layered fuel g1 q1).
Qed.

(** A vertex at distance at most [c], then [k] generated moves: the state
    reached has a vertex at distance at most [c + k], unless the settled
    vertex [t] is already that near. *)
Lemma lower_bound g q t vt :
  Inv startState np g q → Layered np g q →
  vtxList g !! t = Some vt → color vt = kVertexColor_Black →
  ∀ k s s', nsteps (neighbor np) k s s' →
    ∀ i vi c, vtxList g !! i = Some vi → state vi = s → distance vi ≤ c →
      (∃ j vj, vtxList g !! j = Some vj ∧ state vj = s'
               ∧ distance vj ≤ c + Z.of_nat k)
      ∨ distance vt ≤ c + Z.of_nat k.
Proof.
  intros HI HLy Ht Hbt k s s' Hsteps.
  induction Hsteps as [s|k s s1 s' (d & p & Hm & ->) Hsteps IH]; intros i vi c Hi Hs Hc.
  - left. exists i, vi. split; [done|]. split; [done|]. lia.
  - subst s. destruct (color vi) eqn:Hcol.
    + rewrite (inv_color _ _ _ _ HI i vi Hi) in Hcol. by case_decide.
    + right. pose proof (lay_black _ _ _ HLy t i vt vi Ht Hi Hbt Hcol). lia.
    + destruct (inv_closed _ _ _ _ HI i vi Hi Hcol d p Hm) as (j & u & Hu & Hsu).
      pose proof (lay_step _ _ _ HLy i j vi u d p Hi Hu Hcol Hm Hsu) as Hle.
      destruct (IH j u (c + 1) Hu Hsu) as [(j' & vj & Hj & Hsj & Hdj)|Hr]; [lia| |].
      * left. exists j', vj. split; [done|]. split; [done|]. lia.
      * right. lia.
Qed.

End shortest.


(** ** Shortest sequences of moves *)

Lemma BuildAndExplore_shortest fuel startState endState g0 d g :
  length startState = length endState →
  BuildAndExplore fuel startState endState g0 = Returned d g →
  0 ≤ d
  ∧ nsteps (neighbor (numPegs g0)) (Z.to_nat d) startState endState
  ∧ ∀ k, nsteps (neighbor (numPegs g0)) k startState endState → d ≤ Z.of_nat k.
Proof.
  intros Hlen Hrun.
  destruct (walk_back fuel startState endState g0 d g Hlen Hrun)
    as (goalVtx & fwd & _ & _ & Hd & _ & Hfl & _ & _ & Hrep).
  split; [done|]. split.
  - apply replay_nsteps in Hrep. by rewrite length_fmap, Hfl in Hrep.
  - intros k Hk.
    destruct (BuildAndExplore_Layered startState endState (numPegs g0) fuel g0 d g
                eq_refl Hrun) as (q' & t & vt & HI & HLy & Ht & Hbt & Heq & ->).
    apply std_equal_eq in Heq; [|rewrite <- Hlen; by eapply inv_len].
    destruct (inv_start _ _ _ _ HI) as (v0 & H0 & Hs0 & Hd0 & _).
    destruct (lower_bound startState (numPegs g0) g q' t vt HI HLy Ht Hbt
                k startState endState Hk 0%nat v0 0 H0 Hs0)
      as [(j & vj & Hj & Hsj & Hdj)|Hr]; [lia| |lia].
    rewrite <- Heq in Hsj.
    rewrite (inv_uniq _ _ _ _ HI j t vj vt Hj Ht Hsj) in Hj.
    rewrite Ht in Hj. injection Hj as <-. lia.
Qed.

Lemma nsteps_neighbor_sym np k s t :
  in_range np s → nsteps (neighbor np) k s t →
  nsteps (neighbor np) k t s ∧ in_range np t.
Proof.
  intros Hs Hst. induction Hst as [s|k s s1 t Hn Hst IH].
  - split; [constructor|done].
  - destruct (neighbor_sym np s s1 Hs Hn) as [Hback Hs1].
    destruct (IH Hs1) as [Hts Ht]. split; [|done]. by eapply nsteps_r.
Qed.

(** ** A bound on the turns of the loop, for every input *)

Lemma elem_of_lists_over xs s : Forall (.∈ xs) s → s ∈ lists_over xs (length s).
Proof.
  induction s as [|x s IH]; intros Hs; simpl.
  - apply list_elem_of_here.
  - apply Forall_cons in Hs as [Hx Hs]. apply list_elem_of_bind. exists x. split.
    + apply list_elem_of_fmap. exists s. split; [done|]. by apply IH.
    + done.
Qed.

Lemma vertices_bound_over startState np g q :
  Inv startState np g q →
  (length (vtxList g)
   ≤ length (lists_over (startState ++ seqZ 0 np) (length startState)))%nat.
Proof.
  intros HI. rewrite <- (length_fmap state (vtxList g)).
  apply submseteq_length, NoDup_submseteq.
  - apply NoDup_alt. intros i j x. rewrite !list_lookup_fmap.
    destruct (vtxList g !! i) as [vi|] eqn:Hi; [|done].
    destruct (vtxList g !! j) as [vj|] eqn:Hj; [|done].
    simpl. intros [= <-] [= Heq]. eapply inv_uniq; [done..|]. done.
  - intros x (v & -> & Hv)%list_elem_of_fmap.
    apply list_elem_of_lookup in Hv as (i & Hi).
    rewrite <- (inv_len _ _ _ _ HI i v Hi). apply elem_of_lists_over.
    apply Forall_forall. intros y Hy. apply elem_of_app.
    destruct (inv_entries _ _ _ _ HI i v y Hi Hy) as [Hin|Hr]; [by left|right].
    apply elem_of_seqZ. lia.
Qed.

Lemma bfs_loop_enough_fuel startState endState np fuel :
  ∀ g q k,
    Inv startState np g q → NoGoal endState g →
    length (vtxList g) = (k + length q)%nat →
    (length (lists_over (startState ++ seqZ 0 np) (length startState)) < fuel + k)%nat →
    ∀ g' q', bfs_loop endState fuel g q ≠ OutOfFuel g' q'.
Proof.
  induction fuel as [|fuel IH]; intros g [|cur rest] k HI HN Hk Hf g' q';
    simpl; try done.
  - pose proof (vertices_bound_over _ _ _ _ HI). simpl in Hk. lia.
  - assert (is_Some (vtxList g !! cur)) as [vc Hcur].
    { apply lookup_lt_is_Some, (inv_greys _ _ _ _ HI), list_elem_of_here. }
    destruct (explore_Inv startState endState np g cur rest vc HI HN Hcur)
      as (vc' & Hc' & Hst & Hd & HI' & HN' & Hl').
    destruct (explore cur g rest) as [g1 q1]. simpl in *.
    rewrite (deref_lookup g1 cur vc' Hc').
    destruct (std_equal (state vc') endState) eqn:Hgoal; [done|].
    apply (IH g1 q1 (S k)); [done| |lia|lia].
    apply HN'. by rewrite <- Hst.
Qed.

Lemma BuildAndExplore_enough_fuel startState endState g0 fuel :
  (length (lists_over (startState ++ seqZ 0 (numPegs g0)) (length startState))
   < fuel)%nat →
  ∀ g q, BuildAndExplore fuel startState endState g0 ≠ OutOfFuel g q.
Proof.
  intros Hf g q. unfold BuildAndExplore.
  pose proof (Inv_seed startState (numPegs g0) g0 eq_refl) as HI0.
  pose proof (NoGoal_seed startState endState g0) as HN0.
  rewrite seed_eq in *. simpl in HI0, HN0.
  apply (bfs_loop_enough_fuel startState endState (numPegs g0) fuel _ _ 0%nat HI0 HN0);
    simpl; [done|lia].
Qed.

Lemma FellThrough_unreachable fuel startState endState g0 g :
  BuildAndExplore fuel startState endState g0 = FellThrough g →
  ¬ rtc (neighbor (numPegs g0)) startState endState.
Proof.
  intros Hrun Hreach.
  pose proof (BuildAndExplore_Inv startState endState (numPegs g0) fuel g0 eq_refl) as H.
  rewrite Hrun in H. destruct H as [HI HN].
  destruct (closed_reach startState (numPegs g0) g endState HI Hreach)
    as (j & u & Hu & Hsu).
  assert (color u = kVertexColor_Black) as Hc.
  { rewrite (inv_color _ _ _ _ HI j u Hu). rewrite decide_False; [done|].
    apply not_elem_of_nil. }
  pose proof (HN j u Hu Hc) as Hf. rewrite Hsu, std_equal_refl in Hf. done.
Qed.

(** ** The vertices of the graph *)

Lemma outcome_Inv fuel startState endState g0 :
  ∃ q, Inv startState (numPegs g0)
           (outcome_graph (BuildAndExplore fuel startState endState g0)) q.
Proof.
  pose proof (BuildAndExplore_Inv startState endState (numPegs g0) fuel g0 eq_refl) as H.
  destruct (BuildAndExplore fuel startState endState g0) as [d g|g|g q]; simpl.
  - destruct H as (q' & cur & u & HI & _). eauto.
  - destruct H as [HI _]. eauto.
  - destruct H as [HI _]. eauto.
Qed.

Lemma length_bind_cons (xs : list Z) (L : list (list Z)) :
  length (x ← xs; (cons x) <$> L) = (length xs * length L)%nat.
Proof.
  induction xs as [|x xs IH]; [done|].
  rewrite bind_cons, length_app, length_fmap, IH. simpl. lia.
Qed.

Lemma length_all_cfgs n np :
  0 ≤ np → Z.of_nat (length (all_cfgs n np)) = np ^ Z.of_nat n.
Proof.
  intros Hnp. induction n as [|n IH]; [done|].
  simpl all_cfgs. rewrite length_bind_cons, length_seqZ, Nat2Z.inj_mul, IH.
  rewrite Nat2Z.inj_succ, Z.pow_succ_r by lia. lia.
Qed.

(** ** [GetVertex] on a state it has just been asked for *)

Lemma find_vertex_app_new l st n :
  ∀ k, (∀ i v, l !! i = Some v → std_equal (state v) st = false) →
       find_vertex (l ++ [newVtx st n]) st k = Some (k + length l)%nat.
Proof.
  induction l as [|v l IH]; intros k Hno; simpl.
  - rewrite std_equal_refl. f_equal. lia.
  - rewrite (Hno 0%nat v eq_refl). rewrite IH.
    + f_equal. lia.
    + intros i u Hu. by apply (Hno (S i) u).
Qed.

(** ** A graph used again *)

Lemma GetVertex_params st g :
  numPegs (GetVertex st g).1 = numPegs g ∧ numDisks (GetVertex st g).1 = numDisks g.
Proof. unfold GetVertex. by destruct (find_vertex _ _ _). Qed.

Lemma step_params g g' :
  step g g' → numPegs g' = numPegs g ∧ numDisks g' = numDisks g.
Proof.
  intros [startState g0|cur curState d p q g0|cur g0]; [done| |done].
  unfold visit. pose proof (GetVertex_params (<[d := p]> curState) g0) as H.
  destruct (GetVertex _ g0) as [g1 new]. simpl in H. by case_decide.
Qed.

Lemma rtc_step_params g g' :
  rtc step g g' → numPegs g' = numPegs g ∧ numDisks g' = numDisks g.
Proof.
  induction 1 as [|g1 g2 g3 Hs _ [IH1 IH2]]; [done|].
  apply step_params in Hs as [H1 H2]. split; congruence.
Qed.

(** ** Reading the input *)

Lemma read_token_Some room :
  ∀ stdin tok rest,
    read_token room stdin = Some (tok, rest) ↔
    ∃ c, stdin = tok ++ c :: rest ∧ is_delimiter c = true
         ∧ Forall (fun x => is_delimiter x = false) tok ∧ (length tok < room)%nat.
Proof.
  induction room as [|room IH]; intros stdin tok rest; simpl.
  { split; [done|]. intros (c & _ & _ & _ & ?). lia. }
  destruct stdin as [|c stdin].
  { split; [done|]. intros (c & H & _). by destruct tok. }
  destruct (is_delimiter c) eqn:Hc.
  - split.
    + intros [= <- <-]. exists c. split; [done|]. split; [done|].
      split; [constructor|simpl; lia].
    + intros (c' & H & Hd & Hf & _). destruct tok as [|x tok]; simpl in H.
      * by injection H as -> ->.
      * injection H as -> _. apply Forall_cons in Hf as [Hx _]. congruence.
  - split.
    + destruct (read_token room stdin) as [[tok' rest']|] eqn:Hr; simpl; [|done].
      intros [= <- <-]. apply IH in Hr as (c' & -> & Hd & Hf & Hl).
      exists c'. split; [done|]. split; [done|]. split; [by constructor|simpl; lia].
    + intros (c' & H & Hd & Hf & Hl). destruct tok as [|x tok]; simpl in H.
      * injection H as -> _. congruence.
      * injection H as -> ->. apply Forall_cons in Hf as [_ Hf].
        assert (read_token room (tok ++ c' :: rest) = Some (tok, rest)) as ->; [|done].
        apply IH. exists c'. simpl in Hl. split; [done|]. split; [done|].
        split; [done|lia].
Qed.

Lemma read_token_app room stdin extra tok rest :
  read_token room stdin = Some (tok, rest) →
  read_token room (stdin ++ extra) = Some (tok, rest ++ extra).
Proof.
  intros (c & -> & Hd & Hf & Hl)%read_token_Some. apply read_token_Some.
  exists c. rewrite <- app_assoc. done.
Qed.

Lemma GetNextInt_app stdin extra v rest :
  GetNextInt stdin = Some (v, rest) →
  GetNextInt (stdin ++ extra) = Some (v, rest ++ extra).
Proof.
  intros H. unfold GetNextInt in *.
  destruct (read_token MAX_NUMBER_BUF stdin) as [[tok rest']|] eqn:Hr; [|done].
  rewrite (read_token_app _ _ extra _ _ Hr). simpl in *.
  destruct (atoi tok); simpl in *; [|done]. by injection H as <- <-.
Qed.

Lemma read_state_app count extra :
  ∀ stdin st rest,
    read_state count stdin = Some (st, rest) →
    read_state count (stdin ++ extra) = Some (st, rest ++ extra).
Proof.
  induction count as [|count IH]; intros stdin st rest; simpl.
  { by intros [= <- <-]. }
  destruct (GetNextInt stdin) as [[v in1]|] eqn:Hg; simpl; [|done].
  rewrite (GetNextInt_app _ extra _ _ Hg). simpl.
  case_bool_decide; [done|].
  destruct (read_state count in1) as [[st' rest']|] eqn:Hr; simpl; [|done].
  rewrite (IH _ _ _ Hr). simpl. by intros [= <- <-].
Qed.

Lemma read_input_app stdin extra r :
  read_input stdin = Some r → read_input (stdin ++ extra) = Some r.
Proof.
  unfold read_input. intros H.
  destruct (GetNextInt stdin) as [[nd in1]|] eqn:H1; simpl in H; [|done].
  rewrite (GetNextInt_app _ extra _ _ H1). simpl.
  destruct (GetNextInt in1) as [[np in2]|] eqn:H2; simpl in H; [|done].
  rewrite (GetNextInt_app _ extra _ _ H2). simpl.
  destruct (read_state (Z.to_nat nd) in2) as [[st in3]|] eqn:H3; simpl in H; [|done].
  rewrite (read_state_app _ extra _ _ _ H3). simpl.
  destruct (read_state (Z.to_nat nd) in3) as [[en in4]|] eqn:H4; simpl in H; [|done].
  rewrite (read_state_app _ extra _ _ _ H4). simpl. done.
Qed.

(** ** The distance of every vertex *)

Lemma bfs_loop_Layered_all startState endState np fuel :
  ∀ g q, Inv startState np g q → NoGoal endState g → Layered np g q →
    ∃ q', Inv startState np (outcome_graph (bfs_loop endState fuel g q)) q'
          ∧ Layered np (outcome_graph (bfs_loop endState fuel g q)) q'.
Proof.
  induction fuel as [|fuel IH]; intros g [|cur rest] HI HN HLy; simpl; eauto.
  assert (is_Some (vtxList g !! cur)) as [vc Hcur].
  { apply lookup_lt_is_Some, (inv_greys _ _ _ _ HI), list_elem_of_here. }
  destruct (explore_Inv startState endState np g cur rest vc HI HN Hcur)
    as (vc' & Hc' & Hst & Hd & HI' & HN' & _).
  destruct (explore_Layered startState endState np g cur rest vc HI HN HLy Hcur)
    as (HL' & _).
  destruct (explore cur g rest) as [g1 q1]. simpl in *.
  rewrite (deref_lookup g1 cur vc' Hc').
  destruct (std_equal (state vc') endState) eqn:He; simpl; [eauto|].
  apply IH; try done. apply HN'. by rewrite <- Hst.
Qed.

Lemma outcome_Layered fuel startState endState g0 :
  ∃ q, Inv startState (numPegs g0)
           (outcome_graph (BuildAndExplore fuel startState endState g0)) q
       ∧ Layered (numPegs g0)
           (outcome_graph (BuildAndExplore fuel startState endState g0)) q.
Proof.
  unfold BuildAndExplore.
  pose proof (Inv_seed startState (numPegs g0) g0 eq_refl) as HI.
  pose proof (NoGoal_seed startState endState g0) as HN.
  pose proof (Layered_seed (numPegs g0) startState g0) as HL.
  destruct (seed startState g0) as [g1 q1]. simpl in *.
  by apply (bfs_loop_Layered_all startState endState).
Qed.

(** A vertex at distance at most [c], then [k] generated moves: the state
    reached has a vertex at distance at most [c + k], unless no vertex at
    all is farther than that. *)
Lemma lower_bound_all startState np g q :
  Inv startState np g q → Layered np g q →
  ∀ k s s', nsteps (neighbor np) k s s' →
    ∀ i vi c, vtxList g !! i = Some vi → state vi = s → distance vi ≤ c →
      (∃ j vj, vtxList g !! j = Some vj ∧ state vj = s'
               ∧ distance vj ≤ c + Z.of_nat k)
      ∨ (∀ j vj, vtxList g !! j = Some vj → distance vj ≤ c + Z.of_nat k).
Proof.
  intros HI HLy k s s' Hsteps.
  induction Hsteps as [s|k s s1 s' (d & p & Hm & ->) Hsteps IH]; intros i vi c Hi Hs Hc.
  - left. exists i, vi. split; [done|]. split; [done|]. lia.
  - subst s. destruct (color vi) eqn:Hcol.
    + rewrite (inv_color _ _ _ _ HI i vi Hi) in Hcol. by case_decide.
    + right. intros j vj Hj.
      pose proof (Inv_grey_elem _ _ _ _ i vi HI Hi Hcol) as Hin.
      apply list_elem_of_lookup in Hin as (b & Hb).
      destruct q as [|h q']; [done|].
      assert (is_Some (vtxList g !! h)) as [vh Hh].
      { apply lookup_lt_is_Some, (inv_greys _ _ _ _ HI), list_elem_of_here. }
      pose proof (lay_head _ _ _ HLy h vh j vj eq_refl Hh Hj) as H2.
      assert (distance vh ≤ distance vi)
        by (apply (lay_sorted _ _ _ HLy 0%nat b h i vh vi); [lia|done..]).
      lia.
    + destruct (inv_closed _ _ _ _ HI i vi Hi Hcol d p Hm) as (j & u & Hu & Hsu).
      pose proof (lay_step _ _ _ HLy i j vi u d p Hi Hu Hcol Hm Hsu) as Hle.
      destruct (IH j u (c + 1) Hu Hsu) as [(j' & vj & Hj & Hsj & Hdj)|Hr]; [lia| |].
      * left. exists j', vj. split; [done|]. split; [done|]. lia.
      * right. intros j' vj Hj. pose proof (Hr j' vj Hj). lia.
Qed.

(** ** What the edges join *)

Lemma neighbor_ne np s s' : neighbor np s s' → s ≠ s'.
Proof.
  intros (d & p & Hm & ->) Heq.
  apply elem_of_generated_moves in Hm as (Hd & _ & _ & Hne & _).
  apply Hne. rewrite Heq at 1. by rewrite list_lookup_total_insert_eq.
Qed.

Lemma visit_EdgesJoin startState np g q cur vc d p :
  Inv startState np g (cur :: q) →
  vtxList g !! cur = Some vc →
  (d, p) ∈ generated_moves np (state vc) →
  EdgesJoin np g →
  EdgesJoin np (visit cur (state vc) d p (g, q)).1.
Proof.
  intros HI Hcur Hm HE.
  assert (∀ i v, vtxList g !! i = Some v → color v ≠ kVertexColor_White) as Hnw.
  { intros i v Hl. rewrite (inv_color _ _ _ _ HI i v Hl). by case_decide. }
  assert (neighbor np (state vc) (<[d := p]> (state vc))) as Hnb by by exists d, p.
  destruct (visit_spec g q cur vc (state vc) d p
              (inv_num _ _ _ _ HI) (inv_index _ _ _ _ HI) Hnw Hcur)
    as [(j & vj & Hj & Heq & _ & _ & _ & Hlook)|(_ & _ & _ & _ & HL)].
  - set (g' := (visit cur (state vc) d p (g, q)).1) in *.
    apply std_equal_eq in Heq;
      [|rewrite length_insert, (inv_len _ _ _ _ HI j vj Hj); symmetry; by eapply inv_len].
    assert (∀ a v, state (link cur j a v) = state v) as Hst.
    { intros a v. apply same_but_edges_link. }
    assert (∀ a u, vtxList g !! a = Some u →
              vtxList g' !! a = Some (link cur j a u)) as Hfwd.
    { intros a u Hu. by rewrite Hlook, Hu. }
    intros i v' e. rewrite Hlook. destruct (vtxList g !! i) as [v|] eqn:Hv; [|done].
    intros [= <-] He. rewrite Hst.
    assert (e ∈ edgeList v →
            ∃ j0 u, e = Z.of_nat j0 ∧ vtxList g' !! j0 = Some u
                    ∧ (neighbor np (state v) (state u)
                       ∨ neighbor np (state u) (state v))) as Hold.
    { intros Hin. destruct (HE i v e Hv Hin) as (j0 & u & -> & Hu & Hn).
      exists j0, (link cur j j0 u). rewrite Hst. split; [done|]. split; [|done].
      by apply Hfwd. }
    assert (cur = i → ∃ j0 u, Z.of_nat j = Z.of_nat j0 ∧ vtxList g' !! j0 = Some u
                    ∧ (neighbor np (state v) (state u)
                       ∨ neighbor np (state u) (state v))) as Hnew1.
    { intros <-. rewrite Hcur in Hv. injection Hv as <-.
      exists j, (link cur j j vj). rewrite Hst, Heq. split; [done|].
      split; [by apply Hfwd|by left]. }
    assert (j = i → ∃ j0 u, Z.of_nat cur = Z.of_nat j0 ∧ vtxList g' !! j0 = Some u
                    ∧ (neighbor np (state v) (state u)
                       ∨ neighbor np (state u) (state v))) as Hnew2.
    { intros <-. rewrite Hj in Hv. injection Hv as <-.
      exists cur, (link cur j cur vc). rewrite Hst, Heq. split; [done|].
      split; [by apply Hfwd|by right]. }
    unfold link in He.
    destruct (decide (cur = i)) as [Hc|Hc]; destruct (decide (j = i)) as [Hji|Hji];
      simpl in He; rewrite ?elem_of_cons in He;
      repeat match type of He with _ ∨ _ => destruct He as [->|He]; [by auto|] end;
      by auto.
  - set (g' := (visit cur (state vc) d p (g, q)).1) in *.
    set (len := length (vtxList g)) in *.
    set (fresh := fresh_vtx len cur (distance vc + 1) (<[d := p]> (state vc))
                    (state vc !!! d + 1, p + 1)) in *.
    assert (cur < len)%nat as Hclt by by eapply lookup_lt_Some.
    assert (∀ a u, vtxList g !! a = Some u →
              ∃ u', vtxList g' !! a = Some u' ∧ state u' = state u) as Hfwd.
    { intros a u Hu. rewrite HL.
      exists (if decide (cur = a) then push_edge (Z.of_nat len) u else u).
      split; [|by case_decide].
      apply lookup_app_l_Some. rewrite list_lookup_alter.
      destruct (decide (cur = a)) as [->|Hne]; by rewrite Hu. }
    assert (vtxList g' !! len = Some fresh) as Hfresh.
    { rewrite HL, lookup_app_r; rewrite length_alter; [|done].
      by rewrite Nat.sub_diag. }
    assert (∀ a v e, vtxList g !! a = Some v → e ∈ edgeList v →
              ∃ j0 u, e = Z.of_nat j0 ∧ vtxList g' !! j0 = Some u
                      ∧ (neighbor np (state v) (state u)
                         ∨ neighbor np (state u) (state v))) as Hold.
    { intros a v e Hv Hin. destruct (HE a v e Hv Hin) as (j0 & u & -> & Hu & Hn).
      destruct (Hfwd j0 u Hu) as (u' & Hu' & Hsu).
      exists j0, u'. rewrite Hsu. done. }
    intros i v' e Hv' He. rewrite HL in Hv'.
    apply lookup_snoc_Some in Hv' as [[Hi Hl]|[Hi <-]].
    + rewrite list_lookup_alter in Hl.
      destruct (decide (cur = i)) as [<-|Hne]; [|by eapply Hold].
      rewrite Hcur in Hl. simpl in Hl. injection Hl as <-. simpl in He |- *.
      apply elem_of_cons in He as [->|He]; [|by eapply Hold].
      exists len, fresh. split; [done|]. split; [done|]. by left.
    + simpl in He. apply list_elem_of_singleton in He as ->.
      destruct (Hfwd cur vc Hcur) as (u' & Hu' & Hsu).
      exists cur, u'. rewrite Hsu. split; [done|]. split; [done|]. by right.
Qed.

Lemma settle_EdgesJoin np g cur c : EdgesJoin np g → EdgesJoin np (upd cur (set_color c) g).
Proof.
  intros HE.
  assert (∀ i v', vtxList (upd cur (set_color c) g) !! i = Some v' →
            ∃ v, vtxList g !! i = Some v ∧ edgeList v' = edgeList v
                 ∧ state v' = state v) as Hback.
  { intros i v'. rewrite lookup_upd. destruct (vtxList g !! i) as [v|]; [|done].
    intros [= <-]. exists v. split; [done|]. by case_decide. }
  intros i v' e (v & Hv & Hed & Hst)%Hback He. rewrite Hed in He. rewrite Hst.
  destruct (HE i v e Hv He) as (j & u & -> & Hu & Hn).
  exists j, (if decide (cur = j) then set_color c u else u).
  split; [done|]. split.
  - rewrite lookup_upd, Hu. done.
  - by case_decide.
Qed.

Lemma seed_EdgesJoin np startState g : EdgesJoin np (seed startState g).1.
Proof.
  rewrite seed_eq. intros [|i] v e; intros; simplify_eq/=.
  by apply elem_of_nil in H0.
Qed.

Lemma fold_visit_EdgesJoin startState endState np cur curState ms :
  ∀ g q vc,
    (∀ m, m ∈ ms → m ∈ generated_moves np curState) →
    Inv startState np g (cur :: q) → NoGoal endState g →
    vtxList g !! cur = Some vc → state vc = curState →
    EdgesJoin np g →
    EdgesJoin np (foldl (fun s m => visit cur curState m.1 m.2 s) (g, q) ms).1.
Proof.
  induction ms as [|[d p] ms IH]; intros g q vc Hms HI HN Hcur Hst HE; simpl; [done|].
  subst curState.
  assert ((d, p) ∈ generated_moves np (state vc)) as Hdp.
  { apply Hms. apply list_elem_of_here. }
  pose proof (visit_EdgesJoin _ _ g q cur vc d p HI Hcur Hdp HE) as HE1.
  destruct (visit_Inv _ endState _ g q cur vc d p HI HN Hcur Hdp)
    as (HI1 & HN1 & He1 & _).
  destruct (visit cur (state vc) d p (g, q)) as [g1 q1]. simpl in *.
  destruct (He1 cur vc Hcur) as (vc1 & Hcur1 & Hsame).
  assert (state vc1 = state vc) as Hst1 by apply Hsame.
  apply (IH g1 q1 vc1); [|done..].
  intros m Hm. apply Hms. by apply list_elem_of_further.
Qed.

Lemma explore_EdgesJoin startState endState np g cur rest vc :
  Inv startState np g (cur :: rest) → NoGoal endState g →
  vtxList g !! cur = Some vc →
  EdgesJoin np g →
  EdgesJoin np (explore cur g rest).1.
Proof.
  intros HI HN Hcur HE. unfold explore.
  rewrite (deref_lookup g cur vc Hcur), neighbor_loops_moves, (inv_pegs _ _ _ _ HI).
  pose proof (fold_visit_EdgesJoin startState endState np cur (state vc)
                (generated_moves np (state vc)) g rest vc) as HE1.
  destruct (foldl _ _ _) as [g1 q1]. simpl in *.
  apply settle_EdgesJoin. by apply HE1.
Qed.

Lemma bfs_loop_EdgesJoin startState endState np fuel :
  ∀ g q, Inv startState np g q → NoGoal endState g → EdgesJoin np g →
         EdgesJoin np (outcome_graph (bfs_loop endState fuel g q)).
Proof.
  induction fuel as [|fuel IH]; intros g [|cur rest] HI HN HE; simpl; try done.
  assert (is_Some (vtxList g !! cur)) as [vc Hcur].
  { apply lookup_lt_is_Some, (inv_greys _ _ _ _ HI), list_elem_of_here. }
  pose proof (explore_EdgesJoin _ _ _ g cur rest vc HI HN Hcur HE) as HE'.
  destruct (explore_Inv _ endState _ g cur rest vc HI HN Hcur)
    as (vc' & Hc' & Hst & Hd & HI' & HN' & _).
  destruct (explore cur g rest) as [g' q']. simpl in *.
  rewrite (deref_lookup g' cur vc' Hc').
  destruct (std_equal (state vc') endState) eqn:Hgoal; [done|].
  apply IH; [done| |done]. apply HN'. by rewrite <- Hst.
Qed.

Lemma BuildAndExplore_EdgesJoin fuel startState endState g0 :
  EdgesJoin (numPegs g0) (outcome_graph (BuildAndExplore fuel startState endState g0)).
Proof.
  unfold BuildAndExplore.
  pose proof (Inv_seed startState (numPegs g0) g0 eq_refl) as HI.
  pose proof (NoGoal_seed startState endState g0) as HN.
  pose proof (seed_EdgesJoin (numPegs g0) startState g0) as HE.
  destruct (seed startState g0) as [g1 q1]. by eapply bfs_loop_EdgesJoin.
Qed.

Lemma Inv_in_range startState np g q i v :
  in_range np startState → Inv startState np g q →
  vtxList g !! i = Some v → in_range np (state v).
Proof.
  intros Hs HI Hv. apply Forall_forall. intros x Hx.
  destruct (inv_entries _ _ _ _ HI i v x Hv Hx) as [Hin|Hr]; [|done].
  by apply (proj1 (Forall_forall _ _) Hs).
Qed.

(** ** The search back from the goal *)

Lemma reverse_search_returns fuel1 fuel2 s t g0 d g1 :
  length s = length t → in_range (numPegs g0) s →
  BuildAndExplore fuel1 s t g0 = Returned d g1 →
  (length (lists_over (t ++ seqZ 0 (numPegs g0)) (length t)) < fuel2)%nat →
  ∃ g2, BuildAndExplore fuel2 t s g0 = Returned d g2.
Proof.
  intros Hlen Hs H1 Hf.
  destruct (BuildAndExplore_shortest fuel1 s t g0 d g1 Hlen H1) as (Hd1 & Hp1 & Hm1).
  destruct (nsteps_neighbor_sym _ _ _ _ Hs Hp1) as [Hb1 Ht].
  destruct (BuildAndExplore fuel2 t s g0) as [d2 g2|g2|g2 q2] eqn:H2.
  - destruct (BuildAndExplore_shortest fuel2 t s g0 d2 g2 (eq_sym Hlen) H2)
      as (Hd2 & Hp2 & Hm2).
    destruct (nsteps_neighbor_sym _ _ _ _ Ht Hp2) as [Hb2 _].
    apply Hm2 in Hb1. apply Hm1 in Hb2.
    exists g2. f_equal. lia.
  - destruct (FellThrough_unreachable fuel2 t s g0 g2 H2). by eapply rtc_nsteps_2.
  - by destruct (BuildAndExplore_enough_fuel t s g0 fuel2 Hf g2 q2).
Qed.

(** ** Every traversal records the edge *)

Lemma traversed_grey np u v : color u ≠ kVertexColor_Black → traversed np u v = 0%nat.
Proof. intros H. unfold traversed. rewrite decide_False; [done|]. by intros [? _]. Qed.

Lemma traversed_same np u u' v v' :
  color u' = color u → state u' = state u → state v' = state v →
  traversed np u' v' = traversed np u v.
Proof. intros Hc Hs Hs'. unfold traversed. by rewrite Hc, Hs, Hs'. Qed.

Lemma traversed_neighbor np u v :
  traversed np u v = 1%nat
  ↔ color u = kVertexColor_Black ∧ neighbor np (state u) (state v).
Proof.
  unfold traversed, neighbor, target. case_decide as H.
  - split; [|done]. intros _. destruct H as [Hc Hin]. split; [done|].
    apply list_elem_of_fmap in Hin as ([d p] & Heq & Hm). by exists d, p.
  - split; [done|]. intros [Hc (d & p & Hm & Heq)]. destruct H. split; [done|].
    apply list_elem_of_fmap. by exists (d, p).
Qed.

Lemma ind_step_eq (X P Q : Prop) `{!Decision X, !Decision P, !Decision Q} :
  (X → ¬ P) → (X → Q) → (P → Q) → (Q → X ∨ P) →
  ((if decide X then 1 else 0) + (if decide P then 1 else 0)
   = (if decide Q then 1 else 0))%nat.
Proof. intros HXP HXQ HPQ HQ. repeat case_decide; try lia; tauto. Qed.

Lemma ind_eq (P Q : Prop) `{!Decision P, !Decision Q} :
  (P ↔ Q) → ((if decide P then 1 else 0) = (if decide Q then 1 else 0))%nat.
Proof. intros HPQ. repeat case_decide; try lia; tauto. Qed.

Lemma EdgeExact_MidExact np cur g : EdgeExact np g → MidExact np cur [] g.
Proof.
  intros HB i j vi vj Hi Hj. rewrite (HB i j vi vj Hi Hj).
  rewrite !decide_False; [lia| |]; intros [_ H']; by apply elem_of_nil in H'.
Qed.

Lemma visit_MidExact startState np g q cur vc d p tgts :
  Inv startState np g (cur :: q) →
  EdgesOk g →
  vtxList g !! cur = Some vc →
  target (state vc) (d, p) ∉ tgts →
  MidExact np cur tgts g →
  MidExact np cur (tgts ++ [target (state vc) (d, p)])
           (visit cur (state vc) d p (g, q)).1.
Proof.
  intros HI [Hval _] Hcur Hnew HB. unfold target in Hnew |- *. simpl in Hnew |- *.
  set (t := <[d := p]> (state vc)) in *.
  assert (∀ i v, vtxList g !! i = Some v → color v ≠ kVertexColor_White) as Hnw.
  { intros i v Hl. rewrite (inv_color _ _ _ _ HI i v Hl). by case_decide. }
  assert (length t = length startState) as Hlen.
  { subst t. rewrite length_insert. by eapply inv_len. }
  assert (cur < length (vtxList g))%nat as Hclt by by eapply lookup_lt_Some.
  assert (∀ s : list Z, s ∈ tgts ++ [t] ↔ s ∈ tgts ∨ s = t) as Happ.
  { intros s. rewrite elem_of_app, list_elem_of_singleton. done. }
  destruct (visit_spec g q cur vc (state vc) d p
              (inv_num _ _ _ _ HI) (inv_index _ _ _ _ HI) Hnw Hcur)
    as [(j & vj & Hj & Heq & _ & _ & _ & Hlook)|(Hno & _ & _ & _ & HL)].
  - set (g' := (visit cur (state vc) d p (g, q)).1) in *.
    fold t in Heq. apply std_equal_eq in Heq; [|rewrite Hlen; by eapply inv_len].
    assert (∀ i v', vtxList g' !! i = Some v' →
                    ∃ v, vtxList g !! i = Some v ∧ v' = link cur j i v) as Hback.
    { intros i v'. rewrite Hlook. destruct (vtxList g !! i) as [v|]; [|done].
      intros [= <-]. eauto. }
    intros a b va' vb' (va & Ha & ->)%Hback (vb & Hb & ->)%Hback.
    rewrite edge_count_link.
    rewrite (traversed_same np va (link cur j a va) vb (link cur j b vb));
      try apply same_but_edges_link.
    rewrite (traversed_same np vb (link cur j b vb) va (link cur j a va));
      try apply same_but_edges_link.
    assert (state (link cur j b vb) = state vb) as -> by apply same_but_edges_link.
    assert (state (link cur j a va) = state va) as -> by apply same_but_edges_link.
    pose proof (HB a b va vb Ha Hb) as Hold.
    assert (∀ x vx, vtxList g !! x = Some vx → j = x ↔ state vx = t) as Hjx.
    { intros x vx Hx. split.
      - intros <-. rewrite Hj in Hx. by injection Hx as <-.
      - intros Hs. apply (inv_uniq _ _ _ _ HI j x vj vx Hj Hx). congruence. }
    opose proof* (ind_step_eq (cur = a ∧ j = b) (a = cur ∧ state vb ∈ tgts)
                    (a = cur ∧ state vb ∈ tgts ++ [t])) as H1.
    { intros [_ Hb'] [_ Hin']. apply (Hjx b vb Hb) in Hb'. congruence. }
    { intros [Ha' Hb']. split; [done|]. apply Happ. right. by apply (Hjx b vb Hb). }
    { intros [Ha' Hin']. split; [done|]. apply Happ. by left. }
    { intros [Ha' [Hin'|Hin']%Happ]; [by right|left].
      split; [done|]. by apply (Hjx b vb Hb). }
    opose proof* (ind_step_eq (j = a ∧ cur = b) (b = cur ∧ state va ∈ tgts)
                    (b = cur ∧ state va ∈ tgts ++ [t])) as H2.
    { intros [Ha' _] [_ Hin']. apply (Hjx a va Ha) in Ha'. congruence. }
    { intros [Ha' Hb']. split; [done|]. apply Happ. right. by apply (Hjx a va Ha). }
    { intros [Hb' Hin']. split; [done|]. apply Happ. by left. }
    { intros [Hb' [Hin'|Hin']%Happ]; [by right|left].
      split; [|done]. by apply (Hjx a va Ha). }
    lia.
  - set (g' := (visit cur (state vc) d p (g, q)).1) in *.
    set (len := length (vtxList g)) in *.
    set (fresh := fresh_vtx len cur (distance vc + 1) _ _) in HL.
    assert (state fresh = t) as Hfst by done.
    assert (color fresh = kVertexColor_Grey) as Hfco by done.
    assert (edgeList fresh = [Z.of_nat cur]) as Hfed by done.
    clearbody fresh.
    assert (∀ i v, vtxList g !! i = Some v → state v ≠ t) as Hnot.
    { intros i v Hv Hs. pose proof (Hno i v Hv) as Hf. fold t in Hf.
      rewrite Hs, std_equal_refl in Hf. done. }
    assert (∀ i v', vtxList g' !! i = Some v' →
              (∃ v, (i < len)%nat ∧ vtxList g !! i = Some v ∧
                    v' = if decide (cur = i) then push_edge (Z.of_nat len) v else v)
              ∨ (i = len ∧ v' = fresh)) as Hcase.
    { intros i v'. rewrite HL.
      intros [[Hi Hl]|[Hi <-]]%lookup_snoc_Some.
      - left. rewrite length_alter in Hi. rewrite list_lookup_alter in Hl.
        destruct (decide (cur = i)) as [<-|Hne].
        + rewrite Hcur in Hl. simplify_eq/=. by exists vc.
        + by exists v'.
      - right. by rewrite length_alter in Hi. }
    assert (∀ i v, vtxList g !! i = Some v → edge_count v (Z.of_nat len) = 0%nat) as Hz.
    { intros i v Hv. apply edge_count_0. intros He.
      destruct (Hval i v _ Hv He) as (j & Hj & Hlt). apply Nat2Z.inj in Hj. lia. }
    assert (∀ (x : nat) (v : Vertex),
              color (if decide (cur = x) then push_edge (Z.of_nat len) v else v)
              = color v) as Hco by (intros; by case_decide).
    assert (∀ (x : nat) (v : Vertex),
              state (if decide (cur = x) then push_edge (Z.of_nat len) v else v)
              = state v) as Hst by (intros; by case_decide).
    assert (∀ i v w, vtxList g !! i = Some v → state w = t →
                     traversed np v w = 0%nat) as Hclosed.
    { intros i v w Hv Hw. unfold traversed. rewrite decide_False; [done|].
      intros [Hb Hin]. apply list_elem_of_fmap in Hin as ([d' p'] & Heq & Hm).
      destruct (inv_closed _ _ _ _ HI i v Hv Hb d' p' Hm) as (k & u & Hu & Hsu).
      apply (Hnot k u Hu). unfold target in Heq. simpl in Heq. congruence. }
    assert (∀ w, traversed np fresh w = 0%nat) as Hfresh0.
    { intros w. apply traversed_grey. by rewrite Hfco. }
    intros a b va' vb' Ha' Hb'.
    destruct (Hcase a va' Ha') as [(va & Ha & Hva & ->)|[-> ->]];
      destruct (Hcase b vb' Hb') as [(vb & Hb & Hvb & ->)|[-> ->]].
    + pose proof (HB a b va vb Hva Hvb) as Hold.
      rewrite (traversed_same np va _ vb _ (Hco a va) (Hst a va) (Hst b vb)).
      rewrite (traversed_same np vb _ va _ (Hco b vb) (Hst b vb) (Hst a va)).
      rewrite !Hst.
      assert (edge_count (if decide (cur = a) then push_edge (Z.of_nat len) va else va)
                         (Z.of_nat b) = edge_count va (Z.of_nat b)) as ->.
      { destruct (decide (cur = a)); [|done]. rewrite edge_count_push.
        rewrite decide_False; [done|]. intros Heq%Nat2Z.inj. lia. }
      rewrite Hold.
      opose proof* (ind_eq (a = cur ∧ state vb ∈ tgts)
                      (a = cur ∧ state vb ∈ tgts ++ [t])) as H1.
      { rewrite Happ. pose proof (Hnot b vb Hvb). tauto. }
      opose proof* (ind_eq (b = cur ∧ state va ∈ tgts)
                      (b = cur ∧ state va ∈ tgts ++ [t])) as H2.
      { rewrite Happ. pose proof (Hnot a va Hva). tauto. }
      lia.
    + assert (edge_count (if decide (cur = a) then push_edge (Z.of_nat len) va else va)
                         (Z.of_nat len)
              = if decide (cur = a) then 1%nat else 0%nat) as ->.
      { destruct (decide (cur = a)).
        - rewrite edge_count_push, decide_True by done. rewrite (Hz a va Hva). lia.
        - by apply (Hz a). }
      rewrite Hfresh0, Hst, Hfst.
      rewrite (traversed_same np va _ fresh fresh (Hco a va) (Hst a va) eq_refl).
      rewrite (Hclosed a va fresh Hva Hfst).
      opose proof* (ind_eq (cur = a) (a = cur ∧ t ∈ tgts ++ [t])) as H1.
      { rewrite Happ. split; [intros <-; by split; [|right]|by intros [-> _]]. }
      rewrite (decide_False (P := len = cur ∧ _)) by (intros [? _]; lia).
      lia.
    + unfold edge_count at 1. rewrite Hfed. simpl.
      rewrite Hfresh0, Hst, Hfst.
      rewrite (traversed_same np vb _ fresh fresh (Hco b vb) (Hst b vb) eq_refl).
      rewrite (Hclosed b vb fresh Hvb Hfst).
      opose proof* (ind_eq (cur = b) (b = cur ∧ t ∈ tgts ++ [t])) as H1.
      { rewrite Happ. split; [intros <-; by split; [|right]|by intros [-> _]]. }
      rewrite (decide_False (P := len = cur ∧ _)) by (intros [? _]; lia).
      destruct (Z.eq_dec (Z.of_nat cur) (Z.of_nat b)) as [Heq%Nat2Z.inj|Hne].
      * rewrite decide_True in H1 by done. lia.
      * rewrite decide_False in H1 by (intros ->; done). lia.
    + unfold edge_count. rewrite Hfed. simpl. rewrite !Hfresh0.
      rewrite !(decide_False (P := len = cur ∧ _)) by (intros [? _]; lia).
      destruct (Z.eq_dec (Z.of_nat cur) (Z.of_nat len)) as [Heq%Nat2Z.inj|Hne]; lia.
Qed.

Lemma fold_visit_MidExact startState endState np cur curState todo :
  ∀ g q vc tgts,
    (∀ m, m ∈ todo → m ∈ generated_moves np curState) →
    NoDup (tgts ++ (target curState <$> todo)) →
    Inv startState np g (cur :: q) → NoGoal endState g → EdgesOk g →
    vtxList g !! cur = Some vc → state vc = curState →
    MidExact np cur tgts g →
    MidExact np cur (tgts ++ (target curState <$> todo))
             (foldl (fun s m => visit cur curState m.1 m.2 s) (g, q) todo).1.
Proof.
  induction todo as [|[d p] todo IH]; intros g q vc tgts Hms Hnd HI HN HE Hcur Hst HB.
  { rewrite fmap_nil, app_nil_r. done. }
  subst curState. rewrite fmap_cons in Hnd |- *. cbn [foldl fst snd].
  assert (tgts ++ target (state vc) (d, p) :: (target (state vc) <$> todo)
          = (tgts ++ [target (state vc) (d, p)]) ++ (target (state vc) <$> todo)) as Happ
    by by rewrite <- app_assoc.
  rewrite Happ in Hnd |- *.
  assert ((d, p) ∈ generated_moves np (state vc)) as Hdp.
  { apply Hms. apply list_elem_of_here. }
  assert (target (state vc) (d, p) ∉ tgts) as Hnew.
  { apply NoDup_app in Hnd as (Hnd' & _ & _).
    apply NoDup_app in Hnd' as (_ & Hdisj & _). intros Hin.
    apply (Hdisj _ Hin). apply list_elem_of_here. }
  pose proof (visit_MidExact _ _ g q cur vc d p tgts HI HE Hcur Hnew HB) as HB1.
  pose proof (visit_EdgesOk _ _ g q cur vc (state vc) d p HI Hcur HE) as HE1.
  destruct (visit_Inv _ endState _ g q cur vc d p HI HN Hcur Hdp)
    as (HI1 & HN1 & He1 & _).
  destruct (visit cur (state vc) d p (g, q)) as [g1 q1]. cbn [fst snd] in *.
  destruct (He1 cur vc Hcur) as (vc1 & Hcur1 & Hsame).
  assert (state vc1 = state vc) as Hst1 by apply Hsame.
  apply (IH g1 q1 vc1 (tgts ++ [target (state vc) (d, p)])); [|done..].
  intros m Hm. apply Hms. by apply list_elem_of_further.
Qed.

Lemma settle_EdgeExact np cur g vc :
  vtxList g !! cur = Some vc → color vc = kVertexColor_Grey →
  MidExact np cur (target (state vc) <$> generated_moves np (state vc)) g →
  EdgeExact np (upd cur (set_color kVertexColor_Black) g).
Proof.
  intros Hcur Hgrey HB a b va' vb'. rewrite !lookup_upd.
  destruct (vtxList g !! a) as [va|] eqn:Ha; [|done].
  destruct (vtxList g !! b) as [vb|] eqn:Hb; [|done].
  simpl. intros [= <-] [= <-].
  pose proof (HB a b va vb Ha Hb) as Hold.
  assert (∀ x v, edge_count (if decide (cur = x)
                             then set_color kVertexColor_Black v else v) (Z.of_nat b)
                 = edge_count v (Z.of_nat b)) as Hec.
  { intros x v. by destruct (decide (cur = x)). }
  rewrite Hec, Hold.
  assert (∀ x y vx vy, vtxList g !! x = Some vx → vtxList g !! y = Some vy →
            traversed np (if decide (cur = x) then set_color kVertexColor_Black vx else vx)
                         (if decide (cur = y) then set_color kVertexColor_Black vy else vy)
            = (traversed np vx vy
               + (if decide (x = cur
                             ∧ state vy ∈ (target (state vc)
                                           <$> generated_moves np (state vc)))
                  then 1 else 0))%nat) as Htr.
  { intros x y vx vy Hx Hy.
    assert (state (if decide (cur = y) then set_color kVertexColor_Black vy else vy)
            = state vy) as Hsy by by destruct (decide (cur = y)).
    destruct (decide (cur = x)) as [<-|Hne].
    - rewrite Hcur in Hx. injection Hx as <-.
      rewrite (traversed_grey np vc vy) by by rewrite Hgrey.
      unfold traversed. rewrite Hsy. simpl.
      apply ind_eq. tauto.
    - unfold traversed. rewrite Hsy.
      rewrite (decide_False (P := x = cur ∧ _)) by (intros [? _]; done). lia. }
  rewrite (Htr a b va vb Ha Hb), (Htr b a vb va Hb Ha). lia.
Qed.

Lemma explore_EdgeExact startState endState np g cur rest vc :
  Inv startState np g (cur :: rest) → NoGoal endState g → EdgesOk g →
  vtxList g !! cur = Some vc →
  EdgeExact np g →
  EdgeExact np (explore cur g rest).1.
Proof.
  intros HI HN HE Hcur HB. unfold explore.
  rewrite (deref_lookup g cur vc Hcur), neighbor_loops_moves, (inv_pegs _ _ _ _ HI).
  pose proof (fold_visit_MidExact startState endState np cur (state vc)
                (generated_moves np (state vc)) g rest vc []) as HB1.
  destruct (fold_visit_Inv startState endState np cur (state vc)
              (generated_moves np (state vc)) g rest vc)
    as (HI1 & _ & He1 & _); [done..|].
  destruct (foldl _ _ _) as [g1 q1]. simpl in *.
  destruct (He1 cur vc Hcur) as (vc1 & Hcur1 & Hsame).
  assert (state vc1 = state vc) as Hst1 by apply Hsame.
  apply (settle_EdgeExact np cur g1 vc1); [done| |].
  - rewrite (inv_color _ _ _ _ HI1 cur vc1 Hcur1).
    destruct (decide (cur ∈ cur :: q1)) as [_|Hn]; [done|].
    destruct Hn. apply list_elem_of_here.
  - rewrite Hst1. apply HB1; try done.
    + apply generated_targets_NoDup.
    + by apply EdgeExact_MidExact.
Qed.

Lemma bfs_loop_EdgeExact startState endState np fuel :
  ∀ g q, Inv startState np g q → NoGoal endState g → EdgesOk g → EdgeExact np g →
         EdgeExact np (outcome_graph (bfs_loop endState fuel g q)).
Proof.
  induction fuel as [|fuel IH]; intros g [|cur rest] HI HN HE HB; simpl; try done.
  assert (is_Some (vtxList g !! cur)) as [vc Hcur].
  { apply lookup_lt_is_Some, (inv_greys _ _ _ _ HI), list_elem_of_here. }
  pose proof (explore_Edges _ _ _ g cur rest vc HI HN Hcur HE) as HE'.
  pose proof (explore_EdgeExact _ _ _ g cur rest vc HI HN HE Hcur HB) as HB'.
  destruct (explore_Inv _ endState _ g cur rest vc HI HN Hcur)
    as (vc' & Hc' & Hst & Hd & HI' & HN' & _).
  destruct (explore cur g rest) as [g' q']. simpl in *.
  rewrite (deref_lookup g' cur vc' Hc').
  destruct (std_equal (state vc') endState) eqn:Hgoal; [done|].
  apply IH; [done| |done|done]. apply HN'. by rewrite <- Hst.
Qed.

Lemma BuildAndExplore_EdgeExact fuel startState endState g0 :
  EdgeExact (numPegs g0) (outcome_graph (BuildAndExplore fuel startState endState g0)).
Proof.
  unfold BuildAndExplore.
  pose proof (Inv_seed startState (numPegs g0) g0 eq_refl) as HI.
  pose proof (NoGoal_seed startState endState g0) as HN.
  pose proof (seed_EdgesOk startState g0) as HE.
  assert (EdgeExact (numPegs g0) (seed startState g0).1) as HB.
  { rewrite seed_eq. intros [|i] [|j] vi vj; intros; simplify_eq/=. done. }
  destruct (seed startState g0) as [g1 q1]. by eapply bfs_loop_EdgeExact.
Qed.

Lemma BuildAndExplore_more_fuel fuel k startState endState g0 :
  (∀ g q, BuildAndExplore fuel startState endState g0 ≠ OutOfFuel g q) →
  BuildAndExplore (fuel + k) startState endState g0
  = BuildAndExplore fuel startState endState g0.
Proof.
  unfold BuildAndExplore. destruct (seed startState g0) as [g1 q1].
  apply bfs_loop_more_fuel.
Qed.

(** ** The assignments of the search *)

Lemma writes_to_app i l1 l2 : writes_to i (l1 ++ l2) = writes_to i l1 ++ writes_to i l2.
Proof. apply filter_app. Qed.

Lemma writes_to_nil i l : (∀ w, w ∈ l → written w ≠ i) → writes_to i l = [].
Proof.
  induction l as [|w l IH]; intros H; [done|]. unfold writes_to in *.
  rewrite filter_cons, decide_False.
  - apply IH. intros w' Hw'. apply H. by apply list_elem_of_further.
  - apply H. apply list_elem_of_here.
Qed.

Lemma writes_to_all i l : (∀ w, w ∈ l → written w = i) → writes_to i l = l.
Proof.
  induction l as [|w l IH]; intros H; [done|]. unfold writes_to in *.
  rewrite filter_cons, decide_True.
  - f_equal. apply IH. intros w' Hw'. apply H. by apply list_elem_of_further.
  - apply H. apply list_elem_of_here.
Qed.

Lemma first_writes_written i v block w :
  first_writes i v block → w ∈ block → written w = i.
Proof.
  unfold first_writes. case_decide.
  - intros (-> & _) ->%list_elem_of_singleton. done.
  - intros (c & _ & ->) Hw.
    repeat (apply elem_of_cons in Hw as [->|Hw]; [done|]). by apply elem_of_nil in Hw.
Qed.

Lemma writes_to_singleton i w :
  writes_to i [w] = if decide (written w = i) then [w] else [].
Proof. unfold writes_to. rewrite filter_cons. by case_decide. Qed.

Lemma visit_log_writes cur curState d p g q log :
  (visit_log cur curState d p (g, q, log)).1 = visit cur curState d p (g, q)
  ∧ (((visit cur curState d p (g, q)).2 = q
      ∧ (visit_log cur curState d p (g, q, log)).2 = log)
     ∨ ∃ new,
         (visit cur curState d p (g, q)).2 = q ++ [new]
         ∧ ∀ v, vtxList (visit cur curState d p (g, q)).1 !! new = Some v →
                predecessor v = Some cur ∧ color v = kVertexColor_Grey
                ∧ (visit_log cur curState d p (g, q, log)).2
                  = log ++ [SetPredecessor new cur; SetDistance new (distance v);
                            SetColor new kVertexColor_Grey;
                            SetLastMove new (lastMove v)]).
Proof.
  unfold visit_log, visit. destruct (GetVertex _ g) as [g1 new].
  set (g3 := upd new _ (upd cur _ g1)).
  destruct (decide (color (deref g3 new) = kVertexColor_White)) as [Hw|Hw].
  - split; [done|]. right. exists new. split; [done|]. intros v Hv.
    cbn [fst snd] in Hv |- *. rewrite lookup_upd in Hv.
    destruct (vtxList g3 !! new) as [v3|]; [|done]. simpl in Hv.
    rewrite decide_True in Hv by done. injection Hv as <-. done.
  - split; [done|]. by left.
Qed.

Lemma Logged_frame g g' log :
  Logged g log → Forall2 same_but_edges (vtxList g) (vtxList g') → Logged g' log.
Proof.
  intros [Hb Hv] HF. split.
  - intros w Hw. rewrite <- (Forall2_length _ _ _ HF). by apply Hb.
  - intros i v' Hl. destruct (Forall2_lookup_r _ _ _ _ _ HF Hl) as (v & Hv0 & Hs).
    destruct Hs as (Hc & _ & Hd & _ & Hp & Hm).
    destruct (Hv i v Hv0) as (b & bl & a & -> & Hb1 & Hfw & Ha).
    exists b, bl, a. split; [done|]. split; [done|]. split.
    + unfold first_writes in *. rewrite Hd, Hp, Hm. done.
    + by rewrite Hc.
Qed.

Lemma Logged_push g g' log v block :
  Logged g log →
  vtxList g' = vtxList g ++ [v] →
  first_writes (length (vtxList g)) v block →
  (∀ w, w ∈ block → written w = length (vtxList g)) →
  color v ≠ kVertexColor_Black →
  Logged g' (log ++ block).
Proof.
  intros [Hb Hv] HL Hfw Hbl Hc. set (len := length (vtxList g)) in *.
  split.
  - intros w [Hw|Hw]%elem_of_app; rewrite HL, length_app; simpl.
    + apply Hb in Hw. lia.
    + rewrite (Hbl w Hw). lia.
  - intros i v' Hl. rewrite HL in Hl.
    apply lookup_snoc_Some in Hl as [[Hi Hl]|[Hi <-]].
    + destruct (Hv i v' Hl) as (b & bl & a & -> & Hb1 & Hfw' & Ha).
      exists b, bl, (a ++ block). split; [by rewrite <- !app_assoc|].
      split; [done|]. split; [done|].
      rewrite writes_to_app, Ha, (writes_to_nil i block), app_nil_r; [done|].
      intros w Hw. rewrite (Hbl w Hw). lia.
    + subst i. exists log, block, []. split; [by rewrite app_nil_r|]. split.
      { apply writes_to_nil. intros w Hw. apply Hb in Hw. lia. }
      split; [done|]. by rewrite decide_False.
Qed.

Lemma Logged_settle g log cur vc :
  Logged g log → vtxList g !! cur = Some vc → color vc ≠ kVertexColor_Black →
  Logged (upd cur (set_color kVertexColor_Black) g)
         (log ++ [SetColor cur kVertexColor_Black]).
Proof.
  intros [Hb Hv] Hcur Hc. split.
  - intros w [Hw|Hw]%elem_of_app; rewrite length_upd; [by apply Hb|].
    apply list_elem_of_singleton in Hw as ->. simpl. by eapply lookup_lt_Some.
  - intros i v'. rewrite lookup_upd. destruct (vtxList g !! i) as [v|] eqn:Hi; [|done].
    simpl. intros [= <-]. destruct (Hv i v Hi) as (b & bl & a & -> & Hb1 & Hfw & Ha).
    exists b, bl, (a ++ [SetColor cur kVertexColor_Black]).
    split; [by rewrite <- !app_assoc|]. split; [done|].
    rewrite writes_to_app, Ha, writes_to_singleton. simpl.
    destruct (decide (cur = i)) as [<-|Hne].
    + rewrite Hcur in Hi. injection Hi as <-. split; [done|].
      rewrite (decide_False (P := color vc = _)) by done. done.
    + split; [done|]. by rewrite app_nil_r.
Qed.

Lemma seed_log_eq startState g :
  seed_log startState g = (seed startState g, [SetColor 0%nat kVertexColor_Grey]).
Proof. done. Qed.

Lemma Logged_seed startState g :
  Logged (seed startState g).1 [SetColor 0%nat kVertexColor_Grey].
Proof.
  rewrite seed_eq. split.
  - intros w ->%list_elem_of_singleton. simpl. lia.
  - intros [|i] v Hl; simplify_eq/=.
    exists [], [SetColor 0%nat kVertexColor_Grey], []. done.
Qed.

Lemma visit_Logged startState np g q log cur vc d p :
  Inv startState np g (cur :: q) → vtxList g !! cur = Some vc →
  Logged g log →
  (visit_log cur (state vc) d p (g, q, log)).1 = visit cur (state vc) d p (g, q)
  ∧ Logged (visit cur (state vc) d p (g, q)).1
           (visit_log cur (state vc) d p (g, q, log)).2.
Proof.
  intros HI Hcur HL.
  destruct (visit_log_writes cur (state vc) d p g q log) as [Her Hw]. split; [done|].
  assert (∀ i v, vtxList g !! i = Some v → color v ≠ kVertexColor_White) as Hnw.
  { intros i v Hl. rewrite (inv_color _ _ _ _ HI i v Hl). by case_decide. }
  assert (∀ new, q ≠ q ++ [new]) as Hqne.
  { intros new Heq. apply (f_equal length) in Heq. rewrite length_app in Heq.
    simpl in Heq. lia. }
  destruct (visit_spec g q cur vc (state vc) d p
              (inv_num _ _ _ _ HI) (inv_index _ _ _ _ HI) Hnw Hcur)
    as [(j & vj & Hj & Heq & Hq & Hn & Hp & Hlook)|(Hno & Hq & Hn & Hp & HLs)].
  - destruct Hw as [[_ ->]|(new & Hq' & _)].
    + eapply Logged_frame; [done|].
      apply (Forall2_pointwise _ _ (link cur j)); [done|].
      intros. apply same_but_edges_link.
    + rewrite Hq in Hq'. by destruct (Hqne new).
  - destruct Hw as [[Hq' _]|(new & Hq' & Hv)].
    + rewrite Hq in Hq'. symmetry in Hq'. by destruct (Hqne _ Hq').
    + rewrite Hq in Hq'. apply app_inj_tail in Hq' as [_ <-].
      set (len := length (vtxList g)) in *.
      set (fresh := fresh_vtx len cur (distance vc + 1) (<[d := p]> (state vc))
                      (state vc !!! d + 1, p + 1)) in *.
      assert (cur < len)%nat as Hclt by by eapply lookup_lt_Some.
      set (ga := mkGraph (numDisks g) (numPegs g) (numVertices g)
                         (alter (push_edge (Z.of_nat len)) cur (vtxList g))).
      assert (Forall2 same_but_edges (vtxList g) (vtxList ga)) as HF.
      { apply (Forall2_pointwise _ _
                 (fun i v => if decide (cur = i) then push_edge (Z.of_nat len) v else v)).
        - intros i. simpl. rewrite list_lookup_alter. case_decide; [by subst|].
          by destruct (vtxList g !! i).
        - intros i v. case_decide; [apply same_but_edges_push|apply same_but_edges_refl]. }
      assert (length (vtxList ga) = len) as Hla by (simpl; by rewrite length_alter).
      destruct (Hv fresh) as (_ & _ & ->).
      { rewrite HLs, lookup_app_r; rewrite length_alter; [|done].
        by rewrite Nat.sub_diag. }
      apply (Logged_push ga _ log fresh).
      * by eapply Logged_frame.
      * done.
      * rewrite Hla. unfold first_writes. rewrite decide_False by lia.
        by exists cur.
      * rewrite Hla. intros w Hw. repeat (apply elem_of_cons in Hw as [->|Hw]; [done|]).
        by apply elem_of_nil in Hw.
      * done.
Qed.

Lemma fold_visit_Logged startState endState np cur curState ms :
  ∀ g q log vc,
    (∀ m, m ∈ ms → m ∈ generated_moves np curState) →
    Inv startState np g (cur :: q) → NoGoal endState g →
    vtxList g !! cur = Some vc → state vc = curState →
    Logged g log →
    (foldl (fun s m => visit_log cur curState m.1 m.2 s) (g, q, log) ms).1
    = foldl (fun s m => visit cur curState m.1 m.2 s) (g, q) ms
    ∧ Logged (foldl (fun s m => visit cur curState m.1 m.2 s) (g, q) ms).1
             (foldl (fun s m => visit_log cur curState m.1 m.2 s) (g, q, log) ms).2.
Proof.
  induction ms as [|[d p] ms IH]; intros g q log vc Hms HI HN Hcur Hst HL;
    cbn [foldl fst snd]; [done|].
  subst curState.
  assert ((d, p) ∈ generated_moves np (state vc)) as Hdp.
  { apply Hms. apply list_elem_of_here. }
  destruct (visit_Logged _ _ g q log cur vc d p HI Hcur HL) as [Her HL1].
  destruct (visit_Inv _ endState _ g q cur vc d p HI HN Hcur Hdp)
    as (HI1 & HN1 & He1 & _).
  destruct (visit_log cur (state vc) d p (g, q, log)) as [[g1' q1'] log1].
  destruct (visit cur (state vc) d p (g, q)) as [g1 q1]. cbn [fst snd] in *.
  injection Her as -> ->.
  destruct (He1 cur vc Hcur) as (vc1 & Hcur1 & Hsame).
  assert (state vc1 = state vc) as Hst1 by apply Hsame.
  apply (IH g1 q1 log1 vc1); [|done..].
  intros m Hm. apply Hms. by apply list_elem_of_further.
Qed.

Lemma explore_Logged startState endState np g cur rest log vc :
  Inv startState np g (cur :: rest) → NoGoal endState g →
  vtxList g !! cur = Some vc →
  Logged g log →
  (explore_log cur g rest log).1 = explore cur g rest
  ∧ Logged (explore cur g rest).1 (explore_log cur g rest log).2.
Proof.
  intros HI HN Hcur HL. unfold explore_log, explore.
  rewrite (deref_lookup g cur vc Hcur), !neighbor_loops_moves, (inv_pegs _ _ _ _ HI).
  destruct (fold_visit_Logged startState endState np cur (state vc)
              (generated_moves np (state vc)) g rest log vc) as [Her HL1]; [done..|].
  destruct (fold_visit_Inv startState endState np cur (state vc)
              (generated_moves np (state vc)) g rest vc)
    as (HI1 & _ & He1 & _); [done..|].
  destruct (foldl (fun s m => visit_log _ _ _ _ s) _ _) as [[g1' q1'] log1].
  destruct (foldl (fun s m => visit _ _ _ _ s) _ _) as [g1 q1]. cbn [fst snd] in *.
  injection Her as -> ->. split; [done|].
  destruct (He1 cur vc Hcur) as (vc1 & Hcur1 & Hsame).
  apply (Logged_settle g1 log1 cur vc1); [done|done|].
  rewrite (inv_color _ _ _ _ HI1 cur vc1 Hcur1).
  destruct (decide (cur ∈ cur :: q1)) as [_|Hn]; [done|].
  destruct Hn. apply list_elem_of_here.
Qed.

Lemma bfs_loop_Logged startState endState np fuel :
  ∀ g q log, Inv startState np g q → NoGoal endState g → Logged g log →
    (bfs_loop_log endState fuel g q log).1 = bfs_loop endState fuel g q
    ∧ Logged (outcome_graph (bfs_loop endState fuel g q))
             (bfs_loop_log endState fuel g q log).2.
Proof.
  induction fuel as [|fuel IH]; intros g [|cur rest] log HI HN HL; simpl; try done.
  assert (is_Some (vtxList g !! cur)) as [vc Hcur].
  { apply lookup_lt_is_Some, (inv_greys _ _ _ _ HI), list_elem_of_here. }
  destruct (explore_Logged _ _ _ g cur rest log vc HI HN Hcur HL) as [Her HL'].
  destruct (explore_Inv _ endState _ g cur rest vc HI HN Hcur)
    as (vc' & Hc' & Hst & Hd & HI' & HN' & _).
  destruct (explore_log cur g rest log) as [[g1' q1'] log1].
  destruct (explore cur g rest) as [g' q']. cbn [fst snd] in *.
  injection Her as -> ->.
  rewrite (deref_lookup g' cur vc' Hc').
  destruct (std_equal (state vc') endState) eqn:Hgoal; [done|].
  apply IH; [done| |done]. apply HN'. by rewrite <- Hst.
Qed.

Lemma BuildAndExplore_Logged fuel startState endState g0 :
  (BuildAndExplore_log fuel startState endState g0).1
  = BuildAndExplore fuel startState endState g0
  ∧ Logged (outcome_graph (BuildAndExplore fuel startState endState g0))
           (BuildAndExplore_log fuel startState endState g0).2.
Proof.
  unfold BuildAndExplore_log, BuildAndExplore. rewrite seed_log_eq.
  pose proof (Inv_seed startState (numPegs g0) g0 eq_refl) as HI.
  pose proof (NoGoal_seed startState endState g0) as HN.
  pose proof (Logged_seed startState g0) as HL.
  destruct (seed startState g0) as [g1 q1]. by eapply bfs_loop_Logged.
Qed.

(** * Main results *)

(** ** The classic puzzle *)

(** C1: for the classic three-peg puzzle with [N] disks, all on peg 0 at the
    start and all on peg 2 at the goal, [BuildAndExplore] returns
    [2^N - 1], for [N] from 1 to 4. *)
Theorem classic_distance :
  Forall (fun N => classic N (3 ^ N) = Some (2 ^ Z.of_nat N - 1)) [1; 2; 3; 4]%nat.
Proof. repeat constructor; vm_compute; reflexivity. Qed.

(** ** Neighbour generation *)

(** C2: for a disk [d] of the explored configuration and a peg [p] of the
    puzzle, the loops generate the move of [d] to [p] exactly when no disk
    of smaller index is on the peg of [d], [p] is not the peg of [d], and no
    disk of smaller index is on [p]. *)
Theorem neighbor_generated_iff np curState d p :
  (d < length curState)%nat → 0 ≤ p < np →
  (d, p) ∈ generated_moves np curState ↔
    (∀ i, (i < d)%nat → curState !!! i ≠ curState !!! d)
    ∧ p ≠ curState !!! d
    ∧ (∀ i, (i < d)%nat → curState !!! i ≠ p).
Proof.
  intros Hd Hp. rewrite elem_of_generated_moves. unfold DiskNotSmallestOnPeg.
  rewrite !PegHasSmallerDisk_false. tauto.
Qed.

Lemma neighbor_generated_iff_witness :
  (1 < length [0; 0; 1])%nat ∧ 0 ≤ 2 < 3 ∧
  ((1%nat, 2) ∈ generated_moves 3 [0; 0; 1] ↔
     (∀ i, (i < 1)%nat → [0; 0; 1] !!! i ≠ [0; 0; 1] !!! 1%nat)
     ∧ 2 ≠ [0; 0; 1] !!! 1%nat
     ∧ (∀ i, (i < 1)%nat → [0; 0; 1] !!! i ≠ 2)).
Proof.
  split; [simpl; lia|]. split; [lia|].
  apply (neighbor_generated_iff 3 [0; 0; 1] 1 2); [simpl; lia|lia].
Defined.

(** ** Termination *)

(** C3: when the number of disks is positive, there are at least three
    pegs, and the start and goal configurations have one entry per disk,
    each the number of a peg, [BuildAndExplore] returns a distance that is
    not negative (some amount of fuel is enough for the loop to return),
    and it never falls out of the loop. *)
Theorem search_returns nd np startState endState :
  0 < nd → 3 ≤ np →
  length startState = Z.to_nat nd → length endState = Z.to_nat nd →
  in_range np startState → in_range np endState →
  (∃ fuel d g,
     BuildAndExplore fuel startState endState (Graph_new nd np) = Returned d g ∧ 0 ≤ d)
  ∧ (∀ fuel g,
       BuildAndExplore fuel startState endState (Graph_new nd np) ≠ FellThrough g).
Proof.
  intros _ Hnp Hls Hle Hs He. split.
  - apply BuildAndExplore_returns; simpl; [done|congruence|done|done].
  - intros fuel g. apply no_fall_through; simpl; [done|congruence|done|done].
Qed.

Lemma search_returns_witness :
  (∃ fuel d g,
     BuildAndExplore fuel [0; 0] [2; 2] (Graph_new 2 3) = Returned d g ∧ 0 ≤ d)
  ∧ (∀ fuel g, BuildAndExplore fuel [0; 0] [2; 2] (Graph_new 2 3) ≠ FellThrough g).
Proof.
  apply (search_returns 2 3 [0; 0] [2; 2]); [lia|lia|reflexivity|reflexivity| |];
    unfold in_range; repeat (constructor; [lia|]); constructor.
Defined.

(** ** The predecessor chain *)

(** C4: for a start and a goal of the same length, whenever
    [BuildAndExplore] has returned [D], [GetVertex] finds the goal vertex
    without creating it, following [D] predecessor links from it ends at the
    start vertex, whose own predecessor is null, and [D] vertices are
    collected on the way; and with three pegs or more and configurations in
    range the search does return. *)
Theorem predecessor_chain startState endState g0 :
  length startState = length endState →
  (∀ fuel D g,
     BuildAndExplore fuel startState endState g0 = Returned D g →
     ∃ goalVtx forwardList,
       GetVertex endState g = (g, goalVtx)
       ∧ state (deref g goalVtx) = endState
       ∧ collect g (Z.to_nat D) (Some goalVtx) [] = Some (forwardList, Some 0%nat)
       ∧ state (deref g 0%nat) = startState
       ∧ predecessor (deref g 0%nat) = None
       ∧ Z.of_nat (length forwardList) = D)
  ∧ (3 ≤ numPegs g0 →
     in_range (numPegs g0) startState → in_range (numPegs g0) endState →
     ∃ fuel D g, BuildAndExplore fuel startState endState g0 = Returned D g).
Proof.
  intros Hlen. split.
  - intros fuel D g Hrun.
    destruct (walk_back fuel startState endState g0 D g Hlen Hrun)
      as (goalVtx & fwd & HG & Hst & HD & Hc & Hfl & Hs0 & Hp0 & _).
    exists goalVtx, fwd. repeat split; try done. lia.
  - intros Hnp Hs He.
    destruct (BuildAndExplore_returns startState endState g0 Hnp Hlen Hs He)
      as (fuel & D & g & Hrun & _).
    eauto.
Qed.

Lemma predecessor_chain_witness :
  let g := outcome_graph (BuildAndExplore 9 [0; 0] [2; 2] (Graph_new 2 3)) in
  (∃ goalVtx forwardList,
     GetVertex [2; 2] g = (g, goalVtx)
     ∧ state (deref g goalVtx) = [2; 2]
     ∧ collect g (Z.to_nat 3) (Some goalVtx) [] = Some (forwardList, Some 0%nat)
     ∧ state (deref g 0%nat) = [0; 0]
     ∧ predecessor (deref g 0%nat) = None
     ∧ Z.of_nat (length forwardList) = 3)
  ∧ ∃ fuel D g', BuildAndExplore fuel [0; 0] [2; 2] (Graph_new 2 3) = Returned D g'.
Proof.
  intros g.
  pose proof (predecessor_chain [0; 0] [2; 2] (Graph_new 2 3) eq_refl) as [Hchain Hret].
  split.
  - apply (Hchain 9%nat 3 g). vm_compute. reflexivity.
  - apply Hret; [simpl; lia| |]; unfold in_range; repeat (constructor; [simpl; lia|]);
      constructor.
Defined.

(** C5: for a start and a goal of the same length, whenever the driver
    prints a move list, replaying the list from the start configuration
    succeeds, which means that each move takes the topmost disk of its
    source peg to another peg of the puzzle that holds no smaller disk, and
    ends in the goal configuration; and with three pegs or more and
    configurations in range the driver does print one. *)
Theorem reconstructed_path_replays nd np startState endState :
  length startState = length endState →
  (∀ fuel out,
     solve fuel nd np startState endState = Exit out →
     replay np startState (printed_moves out) = Some endState)
  ∧ (3 ≤ np → in_range np startState → in_range np endState →
     ∃ fuel out, solve fuel nd np startState endState = Exit out).
Proof.
  intros Hlen. split.
  - intros fuel out Hout. unfold solve in Hout.
    destruct (BuildAndExplore fuel startState endState (Graph_new nd np))
      as [D g| |] eqn:Hrun; [|done..].
    destruct (solve_Returned fuel nd np startState endState D g Hlen Hrun)
      as (fwd & Hsol & _ & _ & Hr).
    unfold solve in Hsol. rewrite Hrun in Hsol. rewrite Hsol in Hout.
    injection Hout as <-. by rewrite printed_moves_map.
  - intros Hnp Hs He. by apply solve_returns.
Qed.

Lemma reconstructed_path_replays_witness :
  replay 3 [0; 0; 0]
    (printed_moves
       [LineNumMoves 7; LineCount 7; LineMove 1 3; LineMove 1 2; LineMove 3 2;
        LineMove 1 3; LineMove 2 1; LineMove 2 3; LineMove 1 3])
  = Some [2; 2; 2]
  ∧ ∃ fuel out, solve fuel 3 3 [0; 0; 0] [2; 2; 2] = Exit out.
Proof.
  pose proof (reconstructed_path_replays 3 3 [0; 0; 0] [2; 2; 2] eq_refl)
    as [Hreplay Hprints].
  split.
  - apply (Hreplay 27%nat). vm_compute. reflexivity.
  - apply Hprints; [lia| |]; unfold in_range; repeat (constructor; [lia|]); constructor.
Defined.

(** ** Edges *)

Lemma BuildAndExplore_index fuel startState endState g0 i v :
  vtxList (outcome_graph (BuildAndExplore fuel startState endState g0)) !! i = Some v →
  index v = Z.of_nat i.
Proof.
  pose proof (BuildAndExplore_Inv startState endState (numPegs g0) fuel g0 eq_refl) as H.
  destruct (BuildAndExplore fuel startState endState g0) as [d g|g|g q]; simpl.
  - destruct H as (q' & cur & u & HI & _). by eapply inv_index.
  - destruct H as [HI _]. by eapply inv_index.
  - destruct H as [HI _]. by eapply inv_index.
Qed.

(** C6, as the code has it: an edge is recorded each time it is traversed,
    that is once when each of its two ends is explored, so up to twice over
    the whole search and not only the first time; and it is always recorded
    on both ends.  After any number of turns of the loop, and when the
    search has returned, the edge list of a vertex [u] holds exactly one
    entry for a vertex [v] for each traversal there has been of the edge
    between them: one when [u] is settled and the loops generate the state
    of [v] as a neighbour of the state of [u], and one when [v] is settled
    and the loops generate the state of [u] from the state of [v].  So the
    list of [u] holds as many entries for [v] as the list of [v] holds for
    [u], at most two, and [u] lists [v] exactly when [v] lists [u]. *)
Theorem edges_symmetric fuel startState endState g0 u v :
  let g := outcome_graph (BuildAndExplore fuel startState endState g0) in
  u ∈ vtxList g → v ∈ vtxList g →
  edge_count u (index v)
  = (traversed (numPegs g0) u v + traversed (numPegs g0) v u)%nat
  ∧ (traversed (numPegs g0) u v = 1%nat
     ↔ color u = kVertexColor_Black ∧ neighbor (numPegs g0) (state u) (state v))
  ∧ (traversed (numPegs g0) v u = 1%nat
     ↔ color v = kVertexColor_Black ∧ neighbor (numPegs g0) (state v) (state u))
  ∧ edge_count u (index v) = edge_count v (index u)
  ∧ (edge_count u (index v) ≤ 2)%nat
  ∧ (index v ∈ edgeList u ↔ index u ∈ edgeList v).
Proof.
  intros g (i & Hu)%list_elem_of_lookup (j & Hv)%list_elem_of_lookup.
  pose proof (BuildAndExplore_Edges fuel startState endState g0) as [_ Hsym].
  pose proof (BuildAndExplore_EdgeBound fuel startState endState g0 i j u v Hu Hv) as Hle.
  pose proof (BuildAndExplore_EdgeExact fuel startState endState g0 i j u v Hu Hv) as Hex.
  rewrite (BuildAndExplore_index _ _ _ _ i u Hu), (BuildAndExplore_index _ _ _ _ j v Hv).
  pose proof (Hsym i j u v Hu Hv) as Hc. split; [done|].
  split; [apply traversed_neighbor|]. split; [apply traversed_neighbor|].
  split; [done|]. split.
  { pose proof (settled_le_1 u). pose proof (settled_le_1 v). lia. }
  unfold edge_count in Hc. rewrite !list_elem_of_In.
  rewrite !(count_occ_In Z.eq_dec). lia.
Qed.

Lemma edges_symmetric_witness :
  let g := outcome_graph (BuildAndExplore 3 [0] [2] (Graph_new 1 3)) in
  let u := deref g 0%nat in
  let v := deref g 1%nat in
  edge_count u (index v) = (traversed 3 u v + traversed 3 v u)%nat
  ∧ (traversed 3 u v = 1%nat
     ↔ color u = kVertexColor_Black ∧ neighbor 3 (state u) (state v))
  ∧ (traversed 3 v u = 1%nat
     ↔ color v = kVertexColor_Black ∧ neighbor 3 (state v) (state u))
  ∧ edge_count u (index v) = edge_count v (index u)
  ∧ (edge_count u (index v) ≤ 2)%nat
  ∧ (index v ∈ edgeList u ↔ index u ∈ edgeList v).
Proof.
  intros g u v.
  apply (edges_symmetric 3 [0] [2] (Graph_new 1 3) u v).
  - vm_compute. apply list_elem_of_here.
  - vm_compute. apply list_elem_of_further, list_elem_of_here.
Defined.

(** C6 as stated fails: with one disk and three pegs, the search from peg 0
    to peg 2 records the edge between the first two vertices twice in each
    of their edge lists. *)
Lemma edge_recorded_twice :
  let g := outcome_graph (BuildAndExplore 3 [0] [2] (Graph_new 1 3)) in
  edgeList (deref g 0%nat) = [2; 1; 2; 1]
  ∧ edge_count (deref g 0%nat) (index (deref g 1%nat)) = 2%nat
  ∧ edge_count (deref g 1%nat) (index (deref g 0%nat)) = 2%nat.
Proof. vm_compute. done. Qed.

(** ** Colours, distances and predecessors *)

(** C7 as stated fails for the start vertex: line 178 turns it from white
    to grey and assigns nothing else.  In the search with one disk and
    three pegs from peg 0 to peg 2, the only assignments to the start
    vertex are its colour set to grey and then to black; its distance and
    its predecessor are never assigned. *)
Lemma start_vertex_never_assigned :
  let r := BuildAndExplore_log 3 [0] [2] (Graph_new 1 3) in
  let v0 := deref (outcome_graph r.1) 0%nat in
  r.1 = BuildAndExplore 3 [0] [2] (Graph_new 1 3)
  ∧ state v0 = [0] ∧ color v0 = kVertexColor_Black
  ∧ writes_to 0 r.2 = [SetColor 0 kVertexColor_Grey; SetColor 0 kVertexColor_Black]
  ∧ (∀ d, SetDistance 0 d ∉ r.2) ∧ (∀ c, SetPredecessor 0 c ∉ r.2).
Proof.
  intros r v0.
  assert (writes_to 0 r.2
          = [SetColor 0 kVertexColor_Grey; SetColor 0 kVertexColor_Black]) as Hw
    by by vm_compute.
  split; [by vm_compute|]. split; [by vm_compute|]. split; [by vm_compute|].
  split; [done|].
  split; intros x Hin.
  - assert (SetDistance 0 x ∈ writes_to 0 r.2) as H by by apply list_elem_of_filter.
    rewrite Hw in H. repeat (apply elem_of_cons in H as [?|H]; [done|]).
    by apply elem_of_nil in H.
  - assert (SetPredecessor 0 x ∈ writes_to 0 r.2) as H by by apply list_elem_of_filter.
    rewrite Hw in H. repeat (apply elem_of_cons in H as [?|H]; [done|]).
    by apply elem_of_nil in H.
Qed.

(** C7, as the code has it.  [BuildAndExplore_log] is the search together
    with the list of its assignments, and at every turn of the loop and at
    return the assignments to a vertex [v] at position [i] are these, in
    this order.  No assignment before [block].  Then [block]: for the start
    vertex, which is the vertex at position 0, the colour set to grey and
    nothing else, so that the vertex keeps the zero distance, the null
    predecessor and the zero last move it was created with; for any other
    vertex the predecessor, the distance, the colour set to grey and the
    last move, assigned together in the visit that finds the vertex white
    as created, with the values the vertex holds.  After [block], nothing
    but the colour set to black, once, when the vertex is settled; [block]
    and this last assignment are all the assignments to the vertex.  So the
    predecessor and the distance of a vertex other than the start are
    assigned exactly once, when it turns from white to grey, and a colour
    never goes back. *)
Theorem fields_set_once fuel startState endState g0 i v :
  let r := BuildAndExplore_log fuel startState endState g0 in
  let g := outcome_graph (BuildAndExplore fuel startState endState g0) in
  vtxList g !! i = Some v →
  r.1 = BuildAndExplore fuel startState endState g0
  ∧ (i = 0%nat ↔ state v = startState)
  ∧ color v ≠ kVertexColor_White
  ∧ ∃ before block after,
      r.2 = before ++ block ++ after
      ∧ writes_to i before = []
      ∧ first_writes i v block
      ∧ writes_to i after
        = (if decide (color v = kVertexColor_Black)
           then [SetColor i kVertexColor_Black] else [])
      ∧ writes_to i r.2
        = block ++ (if decide (color v = kVertexColor_Black)
                    then [SetColor i kVertexColor_Black] else []).
Proof.
  intros r g Hv.
  destruct (BuildAndExplore_Logged fuel startState endState g0) as [Her [_ HL]].
  destruct (outcome_Inv fuel startState endState g0) as [q HI]. fold g in HI, HL.
  split; [done|]. split; [|split].
  - destruct (inv_start _ _ _ _ HI) as (v0 & H0 & Hs0 & _). split.
    + intros ->. rewrite H0 in Hv. by injection Hv as <-.
    + intros Hs. apply (inv_uniq _ _ _ _ HI i 0%nat v v0 Hv H0). congruence.
  - rewrite (inv_color _ _ _ _ HI i v Hv). by case_decide.
  - destruct (HL i v Hv) as (b & bl & a & Hlog & Hb & Hfw & Ha).
    exists b, bl, a. split; [done|]. split; [done|]. split; [done|]. split; [done|].
    subst r. rewrite Hlog, !writes_to_app, Hb, Ha. simpl. f_equal.
    apply writes_to_all. intros w. by apply (first_writes_written i v bl w).
Qed.

Lemma fields_set_once_witness :
  let r := BuildAndExplore_log 3 [0] [2] (Graph_new 1 3) in
  let g := outcome_graph (BuildAndExplore 3 [0] [2] (Graph_new 1 3)) in
  let v := deref g 1%nat in
  r.1 = BuildAndExplore 3 [0] [2] (Graph_new 1 3)
  ∧ (1%nat = 0%nat ↔ state v = [0])
  ∧ color v ≠ kVertexColor_White
  ∧ ∃ before block after,
      r.2 = before ++ block ++ after
      ∧ writes_to 1 before = []
      ∧ first_writes 1 v block
      ∧ writes_to 1 after
        = (if decide (color v = kVertexColor_Black)
           then [SetColor 1 kVertexColor_Black] else [])
      ∧ writes_to 1 r.2
        = block ++ (if decide (color v = kVertexColor_Black)
                    then [SetColor 1 kVertexColor_Black] else []).
Proof.
  intros r g v. apply (fields_set_once 3 [0] [2] (Graph_new 1 3) 1%nat v).
  vm_compute. reflexivity.
Defined.

(** ** Start equal to goal *)

(** C8: when the start configuration is also the goal, the search returns
    0 in the first turn of the loop, and the driver prints the count 0 and
    no move. *)
Theorem zero_distance fuel nd np A :
  returned_distance (BuildAndExplore (S fuel) A A (Graph_new nd np)) = Some 0
  ∧ solve (S fuel) nd np A A = Exit [LineNumMoves 0; LineCount 0]
  ∧ printed_moves [LineNumMoves 0; LineCount 0] = [].
Proof.
  destruct (BuildAndExplore_same fuel A (Graph_new nd np)) as [g Hrun].
  split; [by rewrite Hrun|]. split; [|done].
  destruct (solve_Returned (S fuel) nd np A A 0 g eq_refl Hrun)
    as (fwd & -> & Hlen & _).
  apply nil_length_inv in Hlen as ->. done.
Qed.

(** ** Input *)




(** ** Determinism *)

(** C10 fails on an input whose goal cannot be reached: with two disks and
    two pegs, from both disks on peg 1 to both disks on peg 2, the list of
    grey vertices runs empty after two turns of the loop and
    [BuildAndExplore] reaches the end of its body, where there is no
    [return] statement.  The value [main] then prints as the number of
    moves is not given by the program, and no amount of fuel makes the run
    print a result of the search. *)
Theorem unreachable_goal_no_return :
  let stdin := list_ascii_of_string "2 2 1 1 2 2 " in
  read_input stdin = Some (2, 2, [0; 0], [1; 1])
  ∧ (∀ fuel, (2 ≤ fuel)%nat →
       ∃ g, BuildAndExplore fuel [0; 0] [1; 1] (Graph_new 2 2) = FellThrough g)
  ∧ (∀ fuel, (2 ≤ fuel)%nat → main fuel stdin = Undefined)
  ∧ (∀ fuel out, main fuel stdin ≠ Exit out).
Proof.
  intros stdin.
  assert (read_input stdin = Some (2, 2, [0; 0], [1; 1])) as Hin by by vm_compute.
  assert (∀ fuel, (2 ≤ fuel)%nat →
            ∃ g, BuildAndExplore fuel [0; 0] [1; 1] (Graph_new 2 2) = FellThrough g)
    as Hfall.
  { intros fuel Hf. replace fuel with (2 + (fuel - 2))%nat by lia.
    rewrite BuildAndExplore_more_fuel; [|intros g q; by vm_compute].
    eexists. vm_compute. reflexivity. }
  assert (∀ fuel, (2 ≤ fuel)%nat → main fuel stdin = Undefined) as Hund.
  { intros fuel Hf. destruct (Hfall fuel Hf) as [g Hg].
    unfold main. rewrite Hin. unfold solve. by rewrite Hg. }
  split; [done|]. split; [done|]. split; [done|].
  intros fuel out. destruct (decide (2 ≤ fuel)%nat) as [Hf|Hf].
  - by rewrite (Hund fuel Hf).
  - destruct fuel as [|[|fuel]]; [by vm_compute|by vm_compute|lia].
Qed.

(** * Further results *)

(** ** The distance returned is the least number of moves *)

(** When [BuildAndExplore] returns [d] for a start and a goal of the same
    length, the goal is reached from the start by [d] moves that the
    neighbour loops generate, and by no sequence of fewer such moves: the
    search is breadth first. *)
Theorem returned_distance_shortest fuel startState endState g0 d g :
  length startState = length endState →
  BuildAndExplore fuel startState endState g0 = Returned d g →
  0 ≤ d
  ∧ nsteps (neighbor (numPegs g0)) (Z.to_nat d) startState endState
  ∧ ∀ k, nsteps (neighbor (numPegs g0)) k startState endState → d ≤ Z.of_nat k.
Proof. apply BuildAndExplore_shortest. Qed.

Lemma returned_distance_shortest_witness :
  0 ≤ 3
  ∧ nsteps (neighbor 3) (Z.to_nat 3) [0; 0] [2; 2]
  ∧ ∀ k, nsteps (neighbor 3) k [0; 0] [2; 2] → 3 ≤ Z.of_nat k.
Proof.
  apply (returned_distance_shortest 9 [0; 0] [2; 2] (Graph_new 2 3) 3
           (outcome_graph (BuildAndExplore 9 [0; 0] [2; 2] (Graph_new 2 3)))).
  - reflexivity.
  - vm_compute. reflexivity.
Defined.

(** When every entry of the start configuration is the number of a peg and
    the search from the start to the goal returns a distance, the search
    from the goal back to the start returns too, with the same distance,
    whatever fuel beyond a bound it is given.  When the entries of both
    configurations are numbers of pegs, the two searches end the same way:
    both return the same distance, or both leave the loop without a
    [return]. *)
Theorem returned_distance_symmetric s t g0 :
  length s = length t → in_range (numPegs g0) s →
  (∀ fuel1 d g1,
     BuildAndExplore fuel1 s t g0 = Returned d g1 →
     ∃ fuel0, ∀ fuel2, (fuel0 ≤ fuel2)%nat →
       ∃ g2, BuildAndExplore fuel2 t s g0 = Returned d g2)
  ∧ (in_range (numPegs g0) t →
     ∃ fuel0, ∀ fuel1 fuel2, (fuel0 ≤ fuel1)%nat → (fuel0 ≤ fuel2)%nat →
       (∃ d g1 g2, BuildAndExplore fuel1 s t g0 = Returned d g1
                   ∧ BuildAndExplore fuel2 t s g0 = Returned d g2)
       ∨ (∃ g1 g2, BuildAndExplore fuel1 s t g0 = FellThrough g1
                   ∧ BuildAndExplore fuel2 t s g0 = FellThrough g2)).
Proof.
  intros Hlen Hs.
  set (bs := length (lists_over (s ++ seqZ 0 (numPegs g0)) (length s))).
  set (bt := length (lists_over (t ++ seqZ 0 (numPegs g0)) (length t))).
  split.
  - intros fuel1 d g1 H1. exists (S bt). intros fuel2 Hf.
    apply (reverse_search_returns fuel1 fuel2 s t g0 d g1); [done..|]. fold bt. lia.
  - intros Ht. exists (S (bs `max` bt)). intros fuel1 fuel2 Hf1 Hf2.
    destruct (BuildAndExplore fuel1 s t g0) as [d g1|g1|g1 q1] eqn:H1.
    + left. destruct (reverse_search_returns fuel1 fuel2 s t g0 d g1) as [g2 H2];
        [done..|fold bt; lia|].
      by exists d, g1, g2.
    + right. destruct (BuildAndExplore fuel2 t s g0) as [d g2|g2|g2 q2] eqn:H2.
      * destruct (reverse_search_returns fuel2 fuel1 t s g0 d g2) as [g1' H1'];
          [done..|fold bs; lia|].
        congruence.
      * by exists g1, g2.
      * destruct (BuildAndExplore_enough_fuel t s g0 fuel2) with g2 q2;
          [fold bt; lia|done].
    + destruct (BuildAndExplore_enough_fuel s t g0 fuel1) with g1 q1;
        [fold bs; lia|done].
Qed.

Lemma returned_distance_symmetric_witness :
  (∀ fuel1 d g1,
     BuildAndExplore fuel1 [0; 0] [2; 2] (Graph_new 2 3) = Returned d g1 →
     ∃ fuel0, ∀ fuel2, (fuel0 ≤ fuel2)%nat →
       ∃ g2, BuildAndExplore fuel2 [2; 2] [0; 0] (Graph_new 2 3) = Returned d g2)
  ∧ (in_range 3 [2; 2] →
     ∃ fuel0, ∀ fuel1 fuel2, (fuel0 ≤ fuel1)%nat → (fuel0 ≤ fuel2)%nat →
       (∃ d g1 g2,
          BuildAndExplore fuel1 [0; 0] [2; 2] (Graph_new 2 3) = Returned d g1
          ∧ BuildAndExplore fuel2 [2; 2] [0; 0] (Graph_new 2 3) = Returned d g2)
       ∨ (∃ g1 g2,
            BuildAndExplore fuel1 [0; 0] [2; 2] (Graph_new 2 3) = FellThrough g1
            ∧ BuildAndExplore fuel2 [2; 2] [0; 0] (Graph_new 2 3) = FellThrough g2)).
Proof.
  apply (returned_distance_symmetric [0; 0] [2; 2] (Graph_new 2 3)).
  - reflexivity.
  - unfold in_range. repeat (constructor; [simpl; lia|]). constructor.
Defined.

(** ** The loop ends on every input *)

(** For a start and a goal of the same length, whatever the number of pegs
    and the entries are, the loop stops after a bounded number of turns:
    either a vertex equal to the goal was settled and its distance is
    returned, which happens when the goal is reached from the start by
    generated moves, or the list of grey vertices ran empty and control
    leaves the loop without a [return], which happens when it is not. *)
Theorem search_halts startState endState g0 :
  length startState = length endState →
  ∃ fuel0, ∀ fuel, (fuel0 ≤ fuel)%nat →
    (∃ d g, BuildAndExplore fuel startState endState g0 = Returned d g
            ∧ rtc (neighbor (numPegs g0)) startState endState)
    ∨ (∃ g, BuildAndExplore fuel startState endState g0 = FellThrough g
            ∧ ¬ rtc (neighbor (numPegs g0)) startState endState).
Proof.
  intros Hlen.
  exists (S (length (lists_over (startState ++ seqZ 0 (numPegs g0)) (length startState)))).
  intros fuel Hf.
  destruct (BuildAndExplore fuel startState endState g0) as [d g|g|g q] eqn:Hrun.
  - left. exists d, g. split; [done|].
    destruct (BuildAndExplore_shortest fuel startState endState g0 d g Hlen Hrun)
      as (_ & Hp & _).
    by eapply rtc_nsteps_2.
  - right. exists g. split; [done|]. by eapply FellThrough_unreachable.
  - destruct (BuildAndExplore_enough_fuel startState endState g0 fuel) with g q;
      [lia|done].
Qed.

Lemma search_halts_witness :
  ∃ fuel0, ∀ fuel, (fuel0 ≤ fuel)%nat →
    (∃ d g, BuildAndExplore fuel [0; 0] [1; 1] (Graph_new 2 2) = Returned d g
            ∧ rtc (neighbor 2) [0; 0] [1; 1])
    ∨ (∃ g, BuildAndExplore fuel [0; 0] [1; 1] (Graph_new 2 2) = FellThrough g
            ∧ ¬ rtc (neighbor 2) [0; 0] [1; 1]).
Proof. apply (search_halts [0; 0] [1; 1] (Graph_new 2 2)). reflexivity. Defined.

(** ** The vertices of the graph *)

(** At every turn of the loop and at return, [numVertices] is the number
    of vertices in [vtxList], no two vertices hold the same state, and
    every state has as many entries as the start configuration; when every
    entry of the start configuration is the number of a peg, so is every
    entry of every state, and there are at most [numPegs ^ n] vertices for
    [n] disks. *)
Theorem vertices_distinct fuel startState endState g0 :
  let g := outcome_graph (BuildAndExplore fuel startState endState g0) in
  numVertices g = Z.of_nat (length (vtxList g))
  ∧ (∀ i j vi vj, vtxList g !! i = Some vi → vtxList g !! j = Some vj →
       state vi = state vj → i = j)
  ∧ (∀ i v, vtxList g !! i = Some v → length (state v) = length startState)
  ∧ (in_range (numPegs g0) startState →
     (∀ i v, vtxList g !! i = Some v → in_range (numPegs g0) (state v))
     ∧ numVertices g ≤ numPegs g0 ^ Z.of_nat (length startState)).
Proof.
  intros g. destruct (outcome_Inv fuel startState endState g0) as [q HI]. fold g in HI.
  split; [by eapply inv_num|]. split; [by eapply inv_uniq|].
  split; [by eapply inv_len|]. intros Hs. split.
  - intros i v Hv. apply Forall_forall. intros x Hx.
    destruct (inv_entries _ _ _ _ HI i v x Hv Hx) as [Hin|Hr]; [|done].
    by apply (proj1 (Forall_forall _ _) Hs).
  - rewrite (inv_num _ _ _ _ HI).
    pose proof (vertices_bound startState (numPegs g0) g q Hs HI) as Hb.
    destruct startState as [|x st]; [simpl in *; lia|].
    apply Forall_cons in Hs as [Hx _].
    rewrite <- length_all_cfgs by lia. lia.
Qed.

(** ** [GetVertex] *)

(** [GetVertex] keeps the vertices there are, in their places, and returns
    the position of a vertex that compares equal to the state asked for;
    asking for the same state again returns the same vertex and creates
    nothing. *)
Theorem GetVertex_idempotent st g :
  let r := GetVertex st g in
  GetVertex st r.1 = r
  ∧ vtxList g `prefix_of` vtxList r.1
  ∧ ∃ v, vtxList r.1 !! r.2 = Some v ∧ std_equal (state v) st = true.
Proof.
  intros r. subst r.
  destruct (GetVertex_cases st g) as [(p & v & HG & Hv & Heq)|[HG Hno]].
  - rewrite HG. simpl. rewrite HG. split; [done|]. split; [done|]. eauto.
  - rewrite HG. simpl. split.
    + unfold GetVertex at 1. simpl.
      rewrite (find_vertex_app_new _ _ _ 0%nat Hno). done.
    + split; [by apply prefix_app_r|].
      exists (newVtx st (numVertices g)). split; [|apply std_equal_refl].
      rewrite lookup_app_r by lia. by rewrite Nat.sub_diag.
Qed.

(** ** A graph used again *)

(** [BuildAndExplore] starts by [Cleanup], and a search changes neither
    [numDisks] nor [numPegs]: a search run on the graph another search
    left behind gives what it gives on the graph as constructed. *)
Theorem graph_reusable fuel fuel' s e s' e' g0 :
  BuildAndExplore fuel s e (outcome_graph (BuildAndExplore fuel' s' e' g0))
  = BuildAndExplore fuel s e g0.
Proof.
  destruct (rtc_step_params _ _ (BuildAndExplore_steps fuel' s' e' g0)) as [Hp Hd].
  simpl in Hp, Hd. unfold BuildAndExplore at 1 3. rewrite !seed_eq.
  by rewrite Hp, Hd.
Qed.

(** ** Moves *)

(** When every entry of a configuration is the number of a peg, a move the
    loops generate for it can be taken back: for the configuration it leads
    to, the loops generate the move of the same disk to the peg it came
    from, which restores the configuration; and the entries stay numbers
    of pegs. *)
Theorem generated_move_undone np s d p :
  in_range np s → (d, p) ∈ generated_moves np s →
  (d, s !!! d) ∈ generated_moves np (<[d := p]> s)
  ∧ <[d := s !!! d]> (<[d := p]> s) = s
  ∧ in_range np (<[d := p]> s).
Proof.
  intros Hs Hm.
  apply elem_of_generated_moves in Hm as (Hd & Hp & Hsm & Hne & Hfree).
  unfold DiskNotSmallestOnPeg in Hsm.
  rewrite PegHasSmallerDisk_false in Hsm, Hfree.
  split; [|split; [|by apply Forall_insert]].
  - assert (∀ i, (i < d)%nat → <[d := p]> s !!! i = s !!! i) as Hi.
    { intros i Hlt. apply list_lookup_total_insert_ne. lia. }
    apply elem_of_generated_moves. unfold DiskNotSmallestOnPeg.
    rewrite list_lookup_total_insert_eq by done. rewrite length_insert.
    split; [done|]. split.
    { by apply (Forall_lookup_total_1 _ s d Hs). }
    split; [|split; [done|]]; apply PegHasSmallerDisk_false; intros i Hlt;
      rewrite Hi by done; auto.
  - rewrite list_insert_insert_eq. apply list_insert_id.
    by apply list_lookup_lookup_total_lt.
Qed.

Lemma generated_move_undone_witness :
  (0%nat, [0; 0; 1] !!! 0%nat) ∈ generated_moves 3 (<[0%nat := 2]> [0; 0; 1])
  ∧ <[0%nat := [0; 0; 1] !!! 0%nat]> (<[0%nat := 2]> [0; 0; 1]) = [0; 0; 1]
  ∧ in_range 3 (<[0%nat := 2]> [0; 0; 1]).
Proof.
  apply (generated_move_undone 3 [0; 0; 1] 0%nat 2).
  - unfold in_range. repeat (constructor; [simpl; lia|]). constructor.
  - apply list_elem_of_In. vm_compute. auto.
Defined.

(** With three pegs or more, any two configurations with the same number
    of disks, whose entries are numbers of pegs, are joined by a sequence
    of moves the loops generate. *)
Theorem configurations_connected np s t :
  3 ≤ np → length s = length t → in_range np s → in_range np t →
  ∃ k, nsteps (neighbor np) k s t.
Proof. intros Hnp Hl Hs Ht. by apply rtc_nsteps_1, connected. Qed.

Lemma configurations_connected_witness : ∃ k, nsteps (neighbor 3) k [0; 1] [2; 2].
Proof.
  apply (configurations_connected 3 [0; 1] [2; 2]); [lia|reflexivity| |];
    unfold in_range; repeat (constructor; [simpl; lia|]); constructor.
Defined.

(** ** Reading the input *)

(** [GetNextInt] returns a value exactly when a space or a newline is among
    the first [MAX_NUMBER_BUF] characters of the input and [atoi] is
    defined on the characters before the first one; it consumes the input
    up to and including that delimiter, and returns the value of [atoi] on
    the characters before it. *)
Theorem GetNextInt_spec stdin v rest :
  GetNextInt stdin = Some (v, rest) ↔
  ∃ tok c, stdin = tok ++ c :: rest ∧ is_delimiter c = true
           ∧ Forall (fun x => is_delimiter x = false) tok
           ∧ (length tok < MAX_NUMBER_BUF)%nat
           ∧ atoi tok = Some v.
Proof.
  unfold GetNextInt. split.
  - destruct (read_token MAX_NUMBER_BUF stdin) as [[tok rest']|] eqn:Hr; simpl; [|done].
    destruct (atoi tok) as [v'|] eqn:Ha; simpl; [|done]. intros [= <- <-].
    apply read_token_Some in Hr as (c & Hs & Hd & Hf & Hl). by exists tok, c.
  - intros (tok & c & Hs & Hd & Hf & Hl & Ha).
    assert (read_token MAX_NUMBER_BUF stdin = Some (tok, rest)) as ->.
    { apply read_token_Some. by exists c. }
    simpl. by rewrite Ha.
Qed.

(** [main] reads the two counts and the two configurations and nothing
    more: what follows them on the input changes neither what is read nor
    the result. *)
Theorem input_tail_ignored fuel stdin extra r :
  read_input stdin = Some r →
  read_input (stdin ++ extra) = Some r
  ∧ main fuel (stdin ++ extra) = main fuel stdin.
Proof.
  intros H. pose proof (read_input_app stdin extra r H) as H'.
  split; [done|]. unfold main. by rewrite H, H'.
Qed.

Lemma input_tail_ignored_witness :
  let stdin := list_ascii_of_string "1 3 1 3 " in
  let extra := list_ascii_of_string "junk" in
  read_input (stdin ++ extra) = Some (1, 3, [0], [2])
  ∧ main 3 (stdin ++ extra) = main 3 stdin.
Proof.
  intros stdin extra. apply (input_tail_ignored 3 stdin extra (1, 3, [0], [2])).
  vm_compute. reflexivity.
Defined.

(** ** The list printed is a shortest one *)

(** Whenever [main] prints a result, replaying the moves it printed from
    the start configuration read ends in the goal configuration read, and
    no list of moves that replays from the start to the goal is shorter
    than the list printed. *)
Theorem main_prints_shortest fuel stdin nd np startState endState out :
  read_input stdin = Some (nd, np, startState, endState) →
  main fuel stdin = Exit out →
  replay np startState (printed_moves out) = Some endState
  ∧ ∀ ms, replay np startState ms = Some endState →
          (length (printed_moves out) ≤ length ms)%nat.
Proof.
  intros Hin Hout. destruct (read_input_lengths _ _ _ _ _ Hin) as [Hs He].
  assert (length startState = length endState) as Hlen by congruence.
  unfold main in Hout. rewrite Hin in Hout. unfold solve in Hout.
  destruct (BuildAndExplore fuel startState endState (Graph_new nd np))
    as [D g| |] eqn:Hrun; [|done..].
  destruct (solve_Returned fuel nd np startState endState D g Hlen Hrun)
    as (fwd & Hsol & Hfl & HD & Hr).
  unfold solve in Hsol. rewrite Hrun in Hsol. rewrite Hsol in Hout.
  injection Hout as <-. rewrite printed_moves_map. split; [done|].
  intros ms Hms. apply replay_nsteps in Hms.
  destruct (BuildAndExplore_shortest fuel startState endState (Graph_new nd np) D g
              Hlen Hrun) as (_ & _ & Hmin).
  apply Hmin in Hms. rewrite length_fmap, Hfl. lia.
Qed.

Lemma main_prints_shortest_witness :
  let out := [LineNumMoves 3; LineCount 3; LineMove 1 2; LineMove 1 3; LineMove 2 3] in
  replay 3 [0; 0] (printed_moves out) = Some [2; 2]
  ∧ ∀ ms, replay 3 [0; 0] ms = Some [2; 2] →
          (length (printed_moves out) ≤ length ms)%nat.
Proof.
  intros out.
  apply (main_prints_shortest 9 (list_ascii_of_string "2 3 1 1 3 3 ") 2 3
           [0; 0] [2; 2] out).
  - vm_compute. reflexivity.
  - vm_compute. reflexivity.
Defined.

(** ** The distance of every vertex *)

(** At every turn of the loop and at return, the distance held by a vertex
    is the least number of generated moves that lead from the start
    configuration to the state of the vertex. *)
Theorem distances_shortest fuel startState endState g0 i v :
  let g := outcome_graph (BuildAndExplore fuel startState endState g0) in
  vtxList g !! i = Some v →
  0 ≤ distance v
  ∧ nsteps (neighbor (numPegs g0)) (Z.to_nat (distance v)) startState (state v)
  ∧ ∀ k, nsteps (neighbor (numPegs g0)) k startState (state v) →
         distance v ≤ Z.of_nat k.
Proof.
  intros g Hv. destruct (outcome_Layered fuel startState endState g0) as (q & HI & HLy).
  fold g in HI, HLy.
  pose proof (inv_dist _ _ _ _ HI i v Hv) as Hd. split; [done|]. split.
  - destruct (collect_chain _ _ _ _ HI (Z.to_nat (distance v)) i v [] Hv)
      as (chain & _ & Hlen & Hrep); [lia|].
    apply replay_nsteps in Hrep. by rewrite length_fmap, Hlen in Hrep.
  - intros k Hk. destruct (inv_start _ _ _ _ HI) as (v0 & H0 & Hs0 & Hd0 & _).
    destruct (lower_bound_all startState (numPegs g0) g q HI HLy
                k startState (state v) Hk 0%nat v0 0 H0 Hs0)
      as [(j & vj & Hj & Hsj & Hdj)|Hr]; [lia| |].
    + rewrite (inv_uniq _ _ _ _ HI j i vj v Hj Hv Hsj) in Hj.
      rewrite Hv in Hj. injection Hj as <-. lia.
    + pose proof (Hr i v Hv). lia.
Qed.

Lemma distances_shortest_witness :
  let g := outcome_graph (BuildAndExplore 2 [0; 0] [2; 2] (Graph_new 2 3)) in
  let v := deref g 3%nat in
  0 ≤ distance v
  ∧ nsteps (neighbor 3) (Z.to_nat (distance v)) [0; 0] (state v)
  ∧ ∀ k, nsteps (neighbor 3) k [0; 0] (state v) → distance v ≤ Z.of_nat k.
Proof.
  intros g v.
  apply (distances_shortest 2 [0; 0] [2; 2] (Graph_new 2 3) 3%nat v).
  vm_compute. reflexivity.
Defined.

(** Vertices are created in the order of their distances: at every turn of
    the loop and at return, a vertex that comes earlier in [vtxList] holds
    a distance that is not larger. *)
Theorem created_by_distance fuel startState endState g0 i j vi vj :
  let g := outcome_graph (BuildAndExplore fuel startState endState g0) in
  (i ≤ j)%nat → vtxList g !! i = Some vi → vtxList g !! j = Some vj →
  distance vi ≤ distance vj.
Proof.
  intros g Hij Hi Hj.
  destruct (outcome_Layered fuel startState endState g0) as (q & HI & HLy).
  by apply (lay_order _ _ _ HLy i j vi vj).
Qed.

Lemma created_by_distance_witness :
  let g := outcome_graph (BuildAndExplore 2 [0; 0] [2; 2] (Graph_new 2 3)) in
  distance (deref g 2%nat) ≤ distance (deref g 3%nat).
Proof.
  intros g.
  apply (created_by_distance 2 [0; 0] [2; 2] (Graph_new 2 3) 2%nat 3%nat
           (deref g 2%nat) (deref g 3%nat)).
  - lia.
  - vm_compute. reflexivity.
  - vm_compute. reflexivity.
Defined.

(** ** What the edges join *)

(** At every turn of the loop and at return, every entry of the edge list
    of a vertex is the index of another vertex, whose state is one
    generated move away from the state of the first, in one direction or
    the other; in both directions when every entry of the start
    configuration is the number of a peg. *)
Theorem edges_join_neighbors fuel startState endState g0 i v e :
  let g := outcome_graph (BuildAndExplore fuel startState endState g0) in
  vtxList g !! i = Some v → e ∈ edgeList v →
  ∃ j u, e = Z.of_nat j ∧ j ≠ i ∧ vtxList g !! j = Some u
         ∧ (neighbor (numPegs g0) (state v) (state u)
            ∨ neighbor (numPegs g0) (state u) (state v))
         ∧ (in_range (numPegs g0) startState →
            neighbor (numPegs g0) (state v) (state u)
            ∧ neighbor (numPegs g0) (state u) (state v)).
Proof.
  intros g Hv He.
  destruct (BuildAndExplore_EdgesJoin fuel startState endState g0 i v e Hv He)
    as (j & u & -> & Hu & Hn).
  fold g in Hu. exists j, u. split; [done|]. split.
  { intros ->. rewrite Hv in Hu. injection Hu as <-.
    destruct Hn as [Hn|Hn]; by apply neighbor_ne in Hn. }
  split; [done|]. split; [done|]. intros Hs.
  destruct (outcome_Inv fuel startState endState g0) as [q HI]. fold g in HI.
  pose proof (Inv_in_range _ _ _ _ i v Hs HI Hv) as Hrv.
  pose proof (Inv_in_range _ _ _ _ j u Hs HI Hu) as Hru.
  destruct Hn as [Hn|Hn].
  - split; [done|]. by apply (neighbor_sym _ _ _ Hrv).
  - split; [|done]. by apply (neighbor_sym _ _ _ Hru).
Qed.

Lemma edges_join_neighbors_witness :
  let g := outcome_graph (BuildAndExplore 3 [0] [2] (Graph_new 1 3)) in
  let v := deref g 0%nat in
  ∃ j u, 1 = Z.of_nat j ∧ j ≠ 0%nat ∧ vtxList g !! j = Some u
         ∧ (neighbor 3 (state v) (state u) ∨ neighbor 3 (state u) (state v))
         ∧ (in_range 3 [0] → neighbor 3 (state v) (state u)
                             ∧ neighbor 3 (state u) (state v)).
Proof.
  intros g v.
  apply (edges_join_neighbors 3 [0] [2] (Graph_new 1 3) 0%nat v 1).
  - vm_compute. reflexivity.
  - vm_compute. apply list_elem_of_further, list_elem_of_here.
Defined.

(** ** No disk *)

(** When the number of disks read is zero or negative, [main] reads two
    empty configurations, and with them the search returns 0 in its first
    turn whatever the number of pegs is: the output is the count 0 and no
    move. *)
Theorem no_disk_prints_zero fuel stdin nd np startState endState :
  read_input stdin = Some (nd, np, startState, endState) →
  nd ≤ 0 →
  startState = [] ∧ endState = []
  ∧ main (S fuel) stdin = Exit [LineNumMoves 0; LineCount 0].
Proof.
  intros Hin Hnd. destruct (read_input_lengths _ _ _ _ _ Hin) as [Hs He].
  replace (Z.to_nat nd) with 0%nat in * by lia.
  apply nil_length_inv in Hs as ->. apply nil_length_inv in He as ->.
  split; [done|]. split; [done|]. unfold main. rewrite Hin.
  destruct (BuildAndExplore_same fuel [] (Graph_new nd np)) as [g Hrun].
  destruct (solve_Returned (S fuel) nd np [] [] 0 g eq_refl Hrun)
    as (fwd & -> & Hl & _).
  simpl in Hl. apply nil_length_inv in Hl as ->. done.
Qed.

Lemma no_disk_prints_zero_witness :
  let stdin := list_ascii_of_string "0 -5 " in
  @nil Z = [] ∧ @nil Z = []
  ∧ main 1 stdin = Exit [LineNumMoves 0; LineCount 0].
Proof.
  intros stdin. apply (no_disk_prints_zero 0 stdin 0 (-5) [] []).
  - vm_compute. reflexivity.
  - lia.
Defined.
